(** * Tempo Strike: the gameplay core

    A shallow embedding of the simulation core of the rhythm game:
    the score handlers of [App.tsx], the hand-signal conditioner of
    [hooks/useMediaPipe] and the per-frame spawn/judge loop of
    [components/GameScene], together with the properties they are
    expected to satisfy.

    Numbers.  Score, combo, multiplier and health only ever hold integer
    values and are modelled in [Z].  Times, depths and coordinates are
    JavaScript doubles; they are idealised as exact rationals ([Q]), so
    rounding, NaN and infinities are outside the model.  The square root
    used by [THREE.Vector3] is not rational; it is a parameter of every
    definition that needs it.

    State.  The handlers a frame calls only queue state updates; React
    applies them together at the next render.  Every hook takes its own
    updates in the order they were queued, and an updater function runs
    at that render, so a [setMultiplier] called from inside the
    [setCombo] updater lands behind the [setMultiplier] calls the
    handlers made themselves ([applyFrame]).

    Objects.  The note objects of the chart are shared between the chart
    array and the list of active notes and are mutated in place.  The
    chart is the store ([notesState]); the active list holds references,
    that is indices into the chart. *)

From Stdlib Require Import ZArith QArith Qminmax Qabs Lqa String.
From stdpp Require Import base list pretty sorting.

(** ** Comparisons on rationals *)

Definition Qlt_bool (a b : Q) : bool := negb (Qle_bool b a).

(** A rational square root, exact on squares; it is only used to run
    the definitions on concrete inputs. *)
Definition sqrtQ (q : Q) : Q :=
  Z.sqrt (Qnum q * Zpos (Qden q)) # Qden q.

(** ** types.ts *)

Inductive GameStatus := LOADING | IDLE | PLAYING | GAME_OVER | VICTORY.

(** [HandType = 'left' | 'right'] *)
Inductive HandType := HandLeft | HandRight.

Inductive CutDirection := UP | DOWN | LEFT | RIGHT | ANY.

Record NoteData := {
  id : string;
  time : Q;              (* when the note should reach the player *)
  lineIndex : nat;       (* 0-3, horizontal position *)
  lineLayer : nat;       (* 0-2, vertical position *)
  type : HandType;
  cutDirection : CutDirection;
  hit : bool;            (* [hit?: boolean]; absent counts as false *)
  missed : bool;
  hitTime : option Q
}.

Definition set_missed (n : NoteData) : NoteData :=
  {| id := id n; time := time n; lineIndex := lineIndex n;
     lineLayer := lineLayer n; type := type n;
     cutDirection := cutDirection n;
     hit := hit n; missed := true; hitTime := hitTime n |}.

Definition set_hit (t : Q) (n : NoteData) : NoteData :=
  {| id := id n; time := time n; lineIndex := lineIndex n;
     lineLayer := lineLayer n; type := type n;
     cutDirection := cutDirection n;
     hit := true; missed := missed n; hitTime := Some t |}.

(** [n.hit = false; n.missed = false] of [startGame]. *)
Definition reset_flags (n : NoteData) : NoteData :=
  {| id := id n; time := time n; lineIndex := lineIndex n;
     lineLayer := lineLayer n; type := type n;
     cutDirection := cutDirection n;
     hit := false; missed := false; hitTime := hitTime n |}.

(** ** THREE.Vector3 (the operations the core calls) *)

Module THREE.
Local Open Scope Q_scope.

Record Vector3 := { x : Q; y : Q; z : Q }.

Definition subVectors (a b : Vector3) : Vector3 :=
  {| x := x a - x b; y := y a - y b; z := z a - z b |}.

Definition multiplyScalar (v : Vector3) (s : Q) : Vector3 :=
  {| x := x v * s; y := y v * s; z := z v * s |}.

(** [divideScalar(s)] is [multiplyScalar(1 / s)]. *)
Definition divideScalar (v : Vector3) (s : Q) : Vector3 :=
  multiplyScalar v (1 / s).

(** [lerpVectors(v1, v2, alpha)]: [v1 + (v2 - v1) * alpha]. *)
Definition lerpVectors (v1 v2 : Vector3) (alpha : Q) : Vector3 :=
  {| x := x v1 + (x v2 - x v1) * alpha;
     y := y v1 + (y v2 - y v1) * alpha;
     z := z v1 + (z v2 - z v1) * alpha |}.

Definition dot (a b : Vector3) : Q :=
  x a * x b + y a * y b + z a * z b.

Definition distanceToSquared (a b : Vector3) : Q :=
  let dx := x a - x b in
  let dy := y a - y b in
  let dz := z a - z b in
  dx * dx + dy * dy + dz * dz.

Section WithSqrt.
Variable sqrt : Q -> Q.

Definition length (v : Vector3) : Q :=
  sqrt (x v * x v + y v * y v + z v * z v).

Definition distanceTo (a b : Vector3) : Q :=
  sqrt (distanceToSquared a b).

(** [normalize()] is [divideScalar(length() || 1)]. *)
Definition normalize (v : Vector3) : Vector3 :=
  let l := length v in
  divideScalar v (if Qeq_bool l 0 then 1 else l).
End WithSqrt.
End THREE.

(** [HandPositions], with the extra fields of the ref that
    [useMediaPipe] keeps behind it. *)
Module HandPositions.
Record t := {
  left : option THREE.Vector3;
  right : option THREE.Vector3;
  lastLeft : option THREE.Vector3;
  lastRight : option THREE.Vector3;
  leftVelocity : THREE.Vector3;
  rightVelocity : THREE.Vector3;
  lastTimestamp : Q          (* milliseconds *)
}.
End HandPositions.

(** ** constants.ts *)

Section Constants.
Local Open Scope Q_scope.

Definition TRACK_LENGTH : Q := 50.
Definition SPAWN_Z : Q := -30.
Definition PLAYER_Z : Q := 0.
Definition MISS_Z : Q := 5.
Definition NOTE_SPEED : Q := 10.

Definition LANE_WIDTH : Q := 0.8.
Definition LAYER_HEIGHT : Q := 0.8.
Definition NOTE_SIZE : Q := 0.5.

Definition LANE_X_POSITIONS : list Q :=
  [-1.5 * LANE_WIDTH; -0.5 * LANE_WIDTH; 0.5 * LANE_WIDTH; 1.5 * LANE_WIDTH].
Definition LAYER_Y_POSITIONS : list Q := [0.8; 1.6; 2.4].

Definition DIRECTION_VECTORS (d : CutDirection) : THREE.Vector3 :=
  match d with
  | UP => {| THREE.x := 0; THREE.y := 1; THREE.z := 0 |}
  | DOWN => {| THREE.x := 0; THREE.y := -1; THREE.z := 0 |}
  | LEFT => {| THREE.x := -1; THREE.y := 0; THREE.z := 0 |}
  | RIGHT => {| THREE.x := 1; THREE.y := 0; THREE.z := 0 |}
  | ANY => {| THREE.x := 0; THREE.y := 0; THREE.z := 0 |}
  end.
End Constants.

(** ** App.tsx: score, combo, multiplier, health *)

Section App.
Local Open Scope Z_scope.

Record ScoreState := {
  score : Z;
  combo : Z;
  multiplier : Z;
  health : Z
}.

(** The [useState] initial values. *)
Definition initialState : ScoreState :=
  {| score := 0; combo := 0; multiplier := 1; health := 100 |}.

(** The threshold chain inside the [setCombo] updater. *)
Definition multiplierFor (newCombo : Z) : Z :=
  if newCombo >? 30 then 8
  else if newCombo >? 20 then 4
  else if newCombo >? 10 then 2
  else 1.

(** [handleNoteHit(note, goodCut)].  The handler is a [useCallback]
    with dependency [multiplier]: the [multiplier] it reads in
    [setScore] is the value of the render that created the handler
    ([capturedMultiplier]), not the one it sets through
    [setMultiplier].  The [multiplier] field of the result is the value
    the [setCombo] updater passes to [setMultiplier]. *)
Definition handleNoteHit (capturedMultiplier : Z) (goodCut : bool)
    (s : ScoreState) : ScoreState :=
  let points := 100 in
  let points := if goodCut then points + 50 else points in
  let newCombo := combo s + 1 in
  {| score := score s + points * capturedMultiplier;
     combo := newCombo;
     multiplier := multiplierFor newCombo;
     health := Z.min 100 (health s + 2) |}.

(** [handleNoteMiss(note)].  The second component tells whether
    [endGame(false)] was scheduled. *)
Definition handleNoteMiss (s : ScoreState) : ScoreState * bool :=
  let newHealth := health s - 15 in
  if newHealth <=? 0 then
    ({| score := score s; combo := 0; multiplier := 1; health := 0 |}, true)
  else
    ({| score := score s; combo := 0; multiplier := 1; health := newHealth |},
     false).

(** The four resets at the top of [startGame]. *)
Definition startGame_reset (s : ScoreState) : ScoreState :=
  {| score := 0; combo := 0; multiplier := 1; health := 100 |}.

Definition endGame (victory : bool) : GameStatus :=
  if victory then VICTORY else GAME_OVER.
End App.

(** The callbacks a frame sends up from the scene: [onNoteHit(note,
    goodCut)], [onNoteMiss(note)], [onSongEnd()].  A note is named by
    its index in the chart. *)
Inductive SceneEvent :=
| NoteHit (ref : nat) (goodCut : bool)
| NoteMiss (ref : nat)
| SongEnd.

Definition event_ref (e : SceneEvent) : option nat :=
  match e with
  | NoteHit ref _ => Some ref
  | NoteMiss ref => Some ref
  | SongEnd => None
  end.

(** One callback applied to the score on its own; [m] is the multiplier
    the current [handleNoteHit] closure holds. *)
Definition applyEvent (m : Z) (s : ScoreState) (e : SceneEvent) : ScoreState :=
  match e with
  | NoteHit _ goodCut => handleNoteHit m goodCut s
  | NoteMiss _ => fst (handleNoteMiss s)
  | SongEnd => s
  end.

(** The [setMultiplier] calls of one frame.  [handleNoteMiss] calls
    [setMultiplier(1)] itself: the update is queued while the handlers
    of the frame run.  [handleNoteHit] calls [setMultiplier] inside the
    updater it passes to [setCombo]; React runs the updaters when it
    renders, once every handler of the frame has returned, so these
    calls are applied behind all the queued ones.  [s] is the state the
    [setCombo] queue has reached. *)
Fixpoint queuedMultipliers (m : Z) (s : ScoreState) (events : list SceneEvent)
    : list Z :=
  match events with
  | [] => []
  | e :: events' =>
      let s' := applyEvent m s e in
      match e with
      | NoteMiss _ => multiplier s' :: queuedMultipliers m s' events'
      | _ => queuedMultipliers m s' events'
      end
  end.

Fixpoint updaterMultipliers (m : Z) (s : ScoreState) (events : list SceneEvent)
    : list Z :=
  match events with
  | [] => []
  | e :: events' =>
      let s' := applyEvent m s e in
      match e with
      | NoteHit _ _ => multiplier s' :: updaterMultipliers m s' events'
      | _ => updaterMultipliers m s' events'
      end
  end.

(** All callbacks of one frame run against the handler of the last
    render, so they share the multiplier that render saw, and their
    state updates are applied together at the next render.  The score,
    combo and health updates act on their own hook in handler order.
    The multiplier ends as the last value it was set to: by the last
    hit of the frame if there is one, else by a miss, else it stays. *)
Definition applyFrame (s : ScoreState) (events : list SceneEvent) : ScoreState :=
  let m := multiplier s in
  let s' := fold_left (applyEvent m) events s in
  {| score := score s';
     combo := combo s';
     multiplier :=
       default m (last (queuedMultipliers m s events ++
                        updaterMultipliers m s events));
     health := health s' |}.

Definition applyFrames (s : ScoreState) (frames : list (list SceneEvent))
    : ScoreState :=
  fold_left applyFrame frames s.

(** ** hooks/useMediaPipe: the hand-signal conditioner *)

Section MediaPipe.
Local Open Scope Q_scope.

(** Mapping 2D normalized coordinates to the 3D game world. *)
Definition mapHandToWorld (x y : Q) : THREE.Vector3 :=
  let GAME_X_RANGE := 5 in
  let GAME_Y_RANGE := 3.5 in
  let Y_OFFSET := 0.8 in
  let worldX := (0.5 - x) * GAME_X_RANGE in
  let worldY := (1.0 - y) * GAME_Y_RANGE - (GAME_Y_RANGE / 2) + Y_OFFSET in
  let worldZ := - Qmax 0 (worldY * 0.2) in
  {| THREE.x := worldX; THREE.y := Qmax 0.1 worldY; THREE.z := worldZ |}.

(** One detected hand of a [HandLandmarkerResult]: the category name
    of [handedness[i][0]] and the index finger tip, [landmarks[i][8]]. *)
Record Detection := {
  categoryName : string;
  tip_x : Q;
  tip_y : Q
}.

(** The loop over [results.landmarks]: a later hand of the same side
    overwrites an earlier one. *)
Definition collectHands (results : list Detection)
    : option THREE.Vector3 * option THREE.Vector3 :=
  fold_left
    (fun '(newLeft, newRight) d =>
       let isRight := String.eqb (categoryName d) "Right" in
       let worldPos := mapHandToWorld (tip_x d) (tip_y d) in
       if isRight then (newLeft, Some worldPos)
       else (Some worldPos, newRight))
    results (None, None).

Definition LERP : Q := 0.6.

(** The "Left" block of [processResults] (the "Right" block is the
    same code on the right-hand fields).  Given the raw new position,
    the stored position, the stored previous position and the stored
    velocity, the new values of the three fields. *)
Definition updateHand (deltaTime : Q) (newPos cur last : option THREE.Vector3)
    (vel : THREE.Vector3)
    : option THREE.Vector3 * option THREE.Vector3 * THREE.Vector3 :=
  match newPos with
  | Some newPos =>
      match cur with
      | Some cur =>
          let newPos := THREE.lerpVectors cur newPos LERP in
          let vel :=
            if Qlt_bool 0.001 deltaTime
            then THREE.divideScalar (THREE.subVectors newPos cur) deltaTime
            else vel in
          (Some newPos, Some cur, vel)
      | None => (Some newPos, Some newPos, vel)
      end
  | None => (None, last, vel)
  end.

(** [processResults(results)], with [now] the value
    [performance.now()] returns at its first line. *)
Definition processResults (now : Q) (results : list Detection)
    (s : HandPositions.t) : HandPositions.t :=
  let deltaTime := (now - HandPositions.lastTimestamp s) / 1000 in
  let '(newLeft, newRight) := collectHands results in
  let '(l, ll, lv) :=
    updateHand deltaTime newLeft (HandPositions.left s)
      (HandPositions.lastLeft s) (HandPositions.leftVelocity s) in
  let '(r, lr, rv) :=
    updateHand deltaTime newRight (HandPositions.right s)
      (HandPositions.lastRight s) (HandPositions.rightVelocity s) in
  {| HandPositions.left := l; HandPositions.right := r;
     HandPositions.lastLeft := ll; HandPositions.lastRight := lr;
     HandPositions.leftVelocity := lv; HandPositions.rightVelocity := rv;
     HandPositions.lastTimestamp := now |}.

Definition zeroVector : THREE.Vector3 :=
  {| THREE.x := 0; THREE.y := 0; THREE.z := 0 |}.

(** The initial value of [handPositionsRef]. *)
Definition initialHands : HandPositions.t :=
  {| HandPositions.left := None; HandPositions.right := None;
     HandPositions.lastLeft := None; HandPositions.lastRight := None;
     HandPositions.leftVelocity := zeroVector;
     HandPositions.rightVelocity := zeroVector;
     HandPositions.lastTimestamp := 0 |}.

(** A run of detector cycles: each cycle has its clock reading and its
    detections. *)
Definition runCycles (cycles : list (Q * list Detection))
    (s : HandPositions.t) : HandPositions.t :=
  fold_left (fun s c => processResults (fst c) (snd c) s) cycles s.
End MediaPipe.

(** ** components/GameScene: the per-frame spawn and judge loop *)

Record SceneRefs := {
  notesState : list NoteData;      (* the chart, with its mutable flags *)
  activeNotesRef : list nat;       (* references into the chart *)
  nextNoteIndexRef : nat
}.

(** The part of the audio element a frame reads. *)
Record Audio := {
  currentTime : Q;
  ended : bool
}.

Section GameScene.
Local Open Scope Q_scope.
Variable sqrt : Q -> Q.

(** Look ahead by the time it takes for a note to travel from spawn
    to player. *)
Definition spawnAheadTime : Q := Qabs (SPAWN_Z - PLAYER_Z) / NOTE_SPEED.

(** The [while] loop of step 1.  It runs at most once per remaining
    note; [fuel] bounds the number of iterations. *)
Fixpoint spawnLoop (fuel : nat) (now : Q) (st : SceneRefs) : SceneRefs :=
  match fuel with
  | O => st
  | S fuel =>
      match notesState st !! nextNoteIndexRef st with
      | Some nextNote =>
          if Qle_bool (time nextNote - spawnAheadTime) now then
            spawnLoop fuel now
              {| notesState := notesState st;
                 activeNotesRef :=
                   activeNotesRef st ++ [nextNoteIndexRef st];
                 nextNoteIndexRef := S (nextNoteIndexRef st) |}
          else st
      | None => st     (* nextNoteIndexRef = notesState.length *)
      end
  end.

Definition spawnNotes (now : Q) (st : SceneRefs) : SceneRefs :=
  spawnLoop (List.length (notesState st) - nextNoteIndexRef st) now st.

(** Calculate current Z position. *)
Definition currentZ (now : Q) (note : NoteData) : Q :=
  let timeDiff := time note - now in
  PLAYER_Z - (timeDiff * NOTE_SPEED).

(** The computation of [goodCut] on a distance hit. *)
Definition cutQuality (note : NoteData) (handVel : THREE.Vector3) : bool :=
  let speed := THREE.length sqrt handVel in
  match cutDirection note with
  | ANY => if Qlt_bool speed 1.5 then false else true
  | d =>
      let requiredDir := DIRECTION_VECTORS d in
      let vecB := THREE.normalize sqrt handVel in
      let dot := THREE.dot vecB requiredDir in
      if Qlt_bool dot 0.3 || Qlt_bool speed 1.5 then false else true
  end.

(** [vecA.set(LANE_X_POSITIONS[..], LAYER_Y_POSITIONS[..], currentZ)];
    an index outside a table reads [undefined], which no distance
    comparison accepts. *)
Definition notePosition (now : Q) (note : NoteData) : option THREE.Vector3 :=
  match LANE_X_POSITIONS !! lineIndex note,
        LAYER_Y_POSITIONS !! lineLayer note with
  | Some lx, Some ly =>
      Some {| THREE.x := lx; THREE.y := ly; THREE.z := currentZ now note |}
  | _, _ => None
  end.

Definition resolve (i ref : nat) (note : NoteData) (st : SceneRefs)
    : SceneRefs :=
  {| notesState := <[ref := note]> (notesState st);
     activeNotesRef := delete i (activeNotesRef st);   (* splice(i, 1) *)
     nextNoteIndexRef := nextNoteIndexRef st |}.

(** [note.type === 'left' ? hands.left : hands.right] *)
Definition handPosOf (h : HandType) (hands : HandPositions.t)
    : option THREE.Vector3 :=
  match h with
  | HandLeft => HandPositions.left hands
  | HandRight => HandPositions.right hands
  end.

(** [note.type === 'left' ? hands.leftVelocity : hands.rightVelocity] *)
Definition handVelOf (h : HandType) (hands : HandPositions.t)
    : THREE.Vector3 :=
  match h with
  | HandLeft => HandPositions.leftVelocity hands
  | HandRight => HandPositions.rightVelocity hands
  end.

(** The body of the [for] loop of step 2, at index [i] of the active
    list. *)
Definition judgeNote (now : Q) (hands : HandPositions.t) (i : nat)
    (st : SceneRefs) : SceneRefs * list SceneEvent :=
  match activeNotesRef st !! i with
  | None => (st, [])
  | Some ref =>
    match notesState st !! ref with
    | None => (st, [])
    | Some note =>
      if hit note || missed note then (st, [])
      else
        let currentZ := currentZ now note in
        (* Miss check (passed player) *)
        if Qlt_bool MISS_Z currentZ then
          (resolve i ref (set_missed note) st, [NoteMiss ref])
        (* Collision check (only if near player) *)
        else if Qlt_bool (PLAYER_Z - 1.5) currentZ
                && Qlt_bool currentZ (PLAYER_Z + 1.0) then
          let handPos := handPosOf (type note) hands in
          let handVel := handVelOf (type note) hands in
          match handPos, notePosition now note with
          | Some handPos, Some notePos =>
              (* Collision radius 0.8 *)
              if Qlt_bool (THREE.distanceTo sqrt handPos notePos) 0.8 then
                let goodCut := cutQuality note handVel in
                (resolve i ref (set_hit now note) st, [NoteHit ref goodCut])
              else (st, [])
          | _, _ => (st, [])
          end
        else (st, [])
    end
  end.

(** [for (let i = k - 1; i >= 0; i--)] *)
Fixpoint judgeLoop (now : Q) (hands : HandPositions.t) (k : nat)
    (st : SceneRefs) : SceneRefs * list SceneEvent :=
  match k with
  | O => (st, [])
  | S i =>
      let '(st1, e1) := judgeNote now hands i st in
      let '(st2, e2) := judgeLoop now hands i st1 in
      (st2, e1 ++ e2)
  end.

(** The game part of the first [useFrame] callback (beat pulsing and
    camera shake only touch lights and camera). *)
Definition useFrame (gameStatus : GameStatus) (audio : Audio)
    (hands : HandPositions.t) (st : SceneRefs)
    : SceneRefs * list SceneEvent :=
  match gameStatus with
  | PLAYING =>
      let now := currentTime audio in
      if ended audio then (st, [SongEnd])
      else
        let st := spawnNotes now st in
        judgeLoop now hands (List.length (activeNotesRef st)) st
  | _ => (st, [])
  end.

(** What one frame sees: the status, the audio clock and the hands. *)
Definition FrameInput : Type := GameStatus * Audio * HandPositions.t.

(** A run of frames, with the callbacks of each frame. *)
Fixpoint runFrames (frames : list FrameInput) (st : SceneRefs)
    : SceneRefs * list (list SceneEvent) :=
  match frames with
  | [] => (st, [])
  | (gs, audio, hands) :: frames =>
      let '(st1, e) := useFrame gs audio hands st in
      let '(st2, es) := runFrames frames st1 in
      (st2, e :: es)
  end.
End GameScene.

(** A session starts on a freshly mounted scene: [startGame] clears the
    flags of every note of the chart, nothing is active and the cursor
    is at the first note. *)
Definition startSession (chart : list NoteData) : SceneRefs :=
  {| notesState := map reset_flags chart;
     activeNotesRef := [];
     nextNoteIndexRef := 0 |}.

(** ** Vocabulary of the properties *)

(** The outcome of a note is read off its two flags. *)
Definition pending (n : NoteData) : Prop := hit n = false /\ missed n = false.
Definition resolved (n : NoteData) : Prop := hit n = true \/ missed n = true.

(** What may happen to a note object between two moments of a session:
    nothing, or one resolution of a pending note. *)
Definition note_step (n n' : NoteData) : Prop :=
  n' = n \/ (pending n /\ (n' = set_missed n \/ exists t, n' = set_hit t n)).

(** The state of the scene between two frames of a session: the active
    list holds distinct references to spawned, still pending notes, the
    notes behind the cursor are untouched, and no note carries both
    flags. *)
Record SceneInv (st : SceneRefs) : Prop := {
  inv_nodup : NoDup (activeNotesRef st);
  inv_active : forall ref, ref ∈ activeNotesRef st ->
    ref < nextNoteIndexRef st /\
    exists n, notesState st !! ref = Some n /\ pending n;
  inv_future : forall ref n, nextNoteIndexRef st <= ref ->
    notesState st !! ref = Some n -> pending n;
  inv_excl : forall ref n, notesState st !! ref = Some n ->
    ~ (hit n = true /\ missed n = true)
}.

(** What a run of frames from [st] to [st'] with callbacks [events] may
    have done: every note object took at most one step, no note got two
    callbacks, and a callback tells the flag its note now carries. *)
Definition session_trace (st st' : SceneRefs) (events : list SceneEvent)
    : Prop :=
  length (notesState st') = length (notesState st) /\
  (forall ref n, notesState st !! ref = Some n ->
     exists n', notesState st' !! ref = Some n' /\ note_step n n') /\
  NoDup (omap event_ref events) /\
  (forall ref goodCut, NoteHit ref goodCut ∈ events ->
     exists n t, notesState st !! ref = Some n /\ pending n /\
                 notesState st' !! ref = Some (set_hit t n)) /\
  (forall ref, NoteMiss ref ∈ events ->
     exists n, notesState st !! ref = Some n /\ pending n /\
               notesState st' !! ref = Some (set_missed n)).

(** The chart is ordered by [time] ascending. *)
Definition chart_sorted (notes : list NoteData) : Prop :=
  forall i j ni nj, i <= j -> notes !! i = Some ni -> notes !! j = Some nj ->
    (time ni <= time nj)%Q.

Section Verdict.
Local Open Scope Q_scope.
Variable sqrt : Q -> Q.

(** The situation in which the loop body reaches the distance test
    and passes it. *)
Definition distanceHit (now : Q) (hands : HandPositions.t) (note : NoteData)
    : Prop :=
  ~ MISS_Z < currentZ now note /\
  PLAYER_Z - 1.5 < currentZ now note /\ currentZ now note < PLAYER_Z + 1.0 /\
  exists handPos notePos,
    handPosOf (type note) hands = Some handPos /\
    notePosition now note = Some notePos /\
    THREE.distanceTo sqrt handPos notePos < 0.8.

(** What the loop body decides for a pending note; it depends on the
    note, the clock and the hands only. *)
Inductive Verdict := Keep | Miss | Hit (goodCut : bool).

Definition verdict (now : Q) (hands : HandPositions.t) (note : NoteData)
    : Verdict :=
  if Qlt_bool MISS_Z (currentZ now note) then Miss
  else if Qlt_bool (PLAYER_Z - 1.5) (currentZ now note)
          && Qlt_bool (currentZ now note) (PLAYER_Z + 1.0) then
    match handPosOf (type note) hands, notePosition now note with
    | Some handPos, Some notePos =>
        if Qlt_bool (THREE.distanceTo sqrt handPos notePos) 0.8
        then Hit (cutQuality sqrt note (handVelOf (type note) hands))
        else Keep
    | _, _ => Keep
    end
  else Keep.

Definition judged (now : Q) (hands : HandPositions.t) (note : NoteData)
    : NoteData :=
  match verdict now hands note with
  | Keep => note
  | Miss => set_missed note
  | Hit _ => set_hit now note
  end.

Definition kept (now : Q) (hands : HandPositions.t) (notes : list NoteData)
    (ref : nat) : bool :=
  match notes !! ref with
  | Some note =>
      match verdict now hands note with Keep => true | _ => false end
  | None => true
  end.

Definition callbacks (now : Q) (hands : HandPositions.t)
    (notes : list NoteData) (ref : nat) : list SceneEvent :=
  match notes !! ref with
  | Some note =>
      match verdict now hands note with
      | Keep => []
      | Miss => [NoteMiss ref]
      | Hit goodCut => [NoteHit ref goodCut]
      end
  | None => []
  end.
End Verdict.

(** ** Data of the scenarios *)

Section Scenarios.
Local Open Scope Q_scope.

(** A chart with the single target
    [{lane=1, layer=0, hand=left, dir=any, arrivalTime=2.0}]. *)
Definition scenarioNote : NoteData :=
  {| id := "note-0"; time := 2.0; lineIndex := 1; lineLayer := 0;
     type := HandLeft; cutDirection := ANY;
     hit := false; missed := false; hitTime := None |}.

(** A left hand at the slot of [scenarioNote], moving at speed 2. *)
Definition scenarioHands : HandPositions.t :=
  {| HandPositions.left :=
       Some {| THREE.x := -0.4; THREE.y := 0.8; THREE.z := 0 |};
     HandPositions.right := None;
     HandPositions.lastLeft := None; HandPositions.lastRight := None;
     HandPositions.leftVelocity :=
       {| THREE.x := 2; THREE.y := 0; THREE.z := 0 |};
     HandPositions.rightVelocity := zeroVector;
     HandPositions.lastTimestamp := 0 |}.

Definition scenarioAudio : Audio := {| currentTime := 2.0; ended := false |}.

(** The same target asking for a cut direction, the left hand at its
    slot moving with a given velocity, and the callbacks of the frame at
    time 2.0 in which the two meet. *)
Definition noteAsking (d : CutDirection) : NoteData :=
  {| id := "note-0"; time := 2.0; lineIndex := 1; lineLayer := 0;
     type := HandLeft; cutDirection := d;
     hit := false; missed := false; hitTime := None |}.

Definition leftHandMoving (vx vy vz : Q) : HandPositions.t :=
  {| HandPositions.left :=
       Some {| THREE.x := -0.4; THREE.y := 0.8; THREE.z := 0 |};
     HandPositions.right := None;
     HandPositions.lastLeft := None; HandPositions.lastRight := None;
     HandPositions.leftVelocity :=
       {| THREE.x := vx; THREE.y := vy; THREE.z := vz |};
     HandPositions.rightVelocity := zeroVector;
     HandPositions.lastTimestamp := 0 |}.

Definition cutFrame (d : CutDirection) (vx vy vz : Q) : list SceneEvent :=
  snd (useFrame sqrtQ PLAYING scenarioAudio (leftHandMoving vx vy vz)
         (startSession [noteAsking d])).

(** Two frames of a session on the single-target chart: the hit frame
    of the scenario, then a frame half a second later. *)
Definition scenarioFrames : list FrameInput :=
  [(PLAYING, scenarioAudio, scenarioHands);
   (PLAYING, {| currentTime := 2.6; ended := false |}, scenarioHands)].

(** The clock once the single target is 6 units past the player. *)
Definition lateAudio : Audio := {| currentTime := 2.6; ended := false |}.

(** A chart of two notes, in time order. *)
Definition twoNotes : list NoteData :=
  [scenarioNote;
   {| id := "note-1"; time := 6.0; lineIndex := 2; lineLayer := 0;
      type := HandRight; cutDirection := ANY;
      hit := false; missed := false; hitTime := None |}].

(** A chart whose first note is for a hand that is not tracked and
    whose second note arrives 0.6 s later at the slot of the left hand:
    at time 2.6 the first is beyond the miss line while the second is
    at the player. *)
Definition hitAndMissNotes : list NoteData :=
  [{| id := "note-0"; time := 2.0; lineIndex := 2; lineLayer := 0;
      type := HandRight; cutDirection := ANY;
      hit := false; missed := false; hitTime := None |};
   {| id := "note-1"; time := 2.6; lineIndex := 1; lineLayer := 0;
      type := HandLeft; cutDirection := ANY;
      hit := false; missed := false; hitTime := None |}].

(** The score after ten hits in ten frames: combo 10, multiplier 1. *)
Definition tenHits : ScoreState :=
  applyFrames initialState (repeat [NoteHit 0 true] 10).

Definition leftAt (x y : Q) : Detection :=
  {| categoryName := "Left"; tip_x := x; tip_y := y |}.

(** Two samples of the left hand, three cycles without it, and a new
    detection. *)
Definition gapBefore : list (Q * list Detection) :=
  [(1000, [leftAt 0.5 0.5]); (1100, [leftAt 0.4 0.5])].
Definition gapCycles : list (Q * list Detection) :=
  [(1200, []); (1300, []); (1400, [])].
Definition gapAfter : Q * list Detection := (1500, [leftAt 0.1 0.5]).

(** Where the smoothed left hand is after the two samples. *)
Definition gapLastPos : THREE.Vector3 :=
  THREE.lerpVectors (mapHandToWorld 0.5 0.5) (mapHandToWorld 0.4 0.5) LERP.

(** The velocity the scenario of the specification expects at the new
    detection: the step from the last sampled position to the new
    smoothed one, over the time since that last sample. *)
Definition spec_gap_velocity (lastPos newRaw : THREE.Vector3)
    (lastSampleTime now : Q) : THREE.Vector3 :=
  THREE.divideScalar
    (THREE.subVectors (THREE.lerpVectors lastPos newRaw LERP) lastPos)
    ((now - lastSampleTime) / 1000).
End Scenarios.

(** Which raw position a cycle reports for a hand. *)
Definition detected (h : HandType) (results : list Detection)
    : option THREE.Vector3 :=
  match h with
  | HandLeft => fst (collectHands results)
  | HandRight => snd (collectHands results)
  end.

(** The clamps a projected hand position satisfies. *)
Definition in_play_volume (p : THREE.Vector3) : Prop :=
  (0.1 <= THREE.y p)%Q /\ (THREE.z p <= 0)%Q.

(** ** constants.ts: the demo chart *)

Section DemoChart.
Local Open Scope Q_scope.

Definition SONG_BPM : Q := 140.
Definition BEAT_TIME : Q := 60 / SONG_BPM.

(** A note literal of [generateDemoChart]; every note of the chart asks
    for [CutDirection.ANY] and carries no flags. *)
Definition chartNote (idCount : nat) (t : Q) (index layer : nat)
    (h : HandType) : NoteData :=
  {| id := "note-" +:+ pretty idCount; time := t;
     lineIndex := index; lineLayer := layer; type := h;
     cutDirection := ANY; hit := false; missed := false; hitTime := None |}.

(** The body of the [for] loop at beat [i], on [idCount] and [notes]. *)
Definition chartStep (i : nat) (st : nat * list NoteData)
    : nat * list NoteData :=
  let '(idCount, notes) := st in
  let t := inject_Z (Z.of_nat i) * BEAT_TIME in
  (* Alternate hands every 4 beats, or do simultaneously sometimes *)
  let pattern := ((i / 16) mod 3)%nat in
  match pattern with
  | O =>
      (* Simple alternation *)
      if (i mod 4 =? 0)%nat
      then (S idCount, notes ++ [chartNote idCount t 1 0 HandLeft])
      else (S idCount, notes ++ [chartNote idCount t 2 0 HandRight])
  | 1%nat =>
      (* Double hits *)
      if (i mod 8 =? 0)%nat
      then (S (S idCount),
            notes ++ [chartNote idCount t 0 1 HandLeft;
                      chartNote (S idCount) t 3 1 HandRight])
      else (idCount, notes)
  | _ =>
      (* Streams (faster) *)
      (S (S idCount),
       notes ++ [chartNote idCount t 1 0 HandLeft;
                 chartNote (S idCount) (t + BEAT_TIME) 2 0 HandRight])
  end.

(** [for (let i = 4; i < 200; i += 2)], from beat [i] on; the result
    carries the beat the loop stopped at. *)
Fixpoint chartLoop (fuel i : nat) (st : nat * list NoteData)
    : nat * (nat * list NoteData) :=
  match fuel with
  | O => (i, st)
  | S fuel =>
      if (i <? 200)%nat then chartLoop fuel (i + 2) (chartStep i st)
      else (i, st)
  end.

(** [sort((a, b) => a.time - b.time)]: the sort is stable, so its
    result is the one of a stable insertion sort. *)
Fixpoint insertByTime (a : NoteData) (l : list NoteData) : list NoteData :=
  match l with
  | [] => [a]
  | b :: l' =>
      if Qle_bool (time a) (time b) then a :: b :: l'
      else b :: insertByTime a l'
  end.

Definition sortByTime (l : list NoteData) : list NoteData :=
  foldr insertByTime [] l.

Definition generateDemoChart : list NoteData :=
  sortByTime (snd (snd (chartLoop 98 4 (0%nat, [])))).

Definition DEMO_CHART : list NoteData := generateDemoChart.
End DemoChart.

(** ** components/GameScene: the notes handed to the renderer *)

Section VisibleNotes.
Local Open Scope Q_scope.

(** The predicate of the [visibleNotes] filter; [n.hitTime || 0] reads
    a missing hit time as 0. *)
Definition isVisible (currentTime : Q) (n : NoteData) : bool :=
  negb (missed n)
  && (negb (hit n) || Qlt_bool (currentTime - default 0 (hitTime n)) 0.5)
  && Qlt_bool (time n - currentTime) 5
  && Qlt_bool (-2) (time n - currentTime).

Definition visibleNotes (currentTime : Q) (notesState : list NoteData)
    : list NoteData :=
  List.filter (isVisible currentTime) notesState.
End VisibleNotes.

(** ** App.tsx: starting a game on the mounted scene *)

(** [DEMO_CHART.forEach(n => { n.hit = false; n.missed = false; })].
    The scene stays mounted between games: its active list and its
    cursor are refs of the component and are not reset. *)
Definition resetChart (st : SceneRefs) : SceneRefs :=
  {| notesState := map reset_flags (notesState st);
     activeNotesRef := activeNotesRef st;
     nextNoteIndexRef := nextNoteIndexRef st |}.

(** [startGame()]: [playSucceeds] tells whether [audio.play()]
    resolved; the resets come before the attempt. *)
Definition startGame (isCameraReady playSucceeds : bool)
    (gameStatus : GameStatus) (s : ScoreState) (st : SceneRefs)
    : GameStatus * ScoreState * SceneRefs :=
  if negb isCameraReady then (gameStatus, s, st)
  else
    (if playSucceeds then PLAYING else gameStatus,
     startGame_reset s, resetChart st).

(** ** More vocabulary *)

Definition isHit (e : SceneEvent) : bool :=
  match e with NoteHit _ _ => true | _ => false end.

Definition isMiss (e : SceneEvent) : bool :=
  match e with NoteMiss _ => true | _ => false end.

(** The callbacks after the last miss (all of them if there is none). *)
Fixpoint sinceLastMiss (events : list SceneEvent) : list SceneEvent :=
  match events with
  | [] => []
  | e :: events' =>
      if existsb isMiss events' then sinceLastMiss events'
      else if isMiss e then events' else e :: events'
  end.

Definition countHits (events : list SceneEvent) : Z :=
  Z.of_nat (length (List.filter isHit events)).

Definition countMisses (events : list SceneEvent) : Z :=
  Z.of_nat (length (List.filter isMiss events)).

(** The side a detection is taken for: only the category name "Right"
    makes a right hand. *)
Definition sideOf (d : Detection) : HandType :=
  if String.eqb (categoryName d) "Right" then HandRight else HandLeft.

Definition HandType_eqb (a b : HandType) : bool :=
  match a, b with
  | HandLeft, HandLeft | HandRight, HandRight => true
  | _, _ => false
  end.

(** A fingertip inside the camera image. *)
Definition normalized (d : Detection) : Prop :=
  (0 <= tip_x d <= 1)%Q /\ (0 <= tip_y d <= 1)%Q.

(** The part of the game world the projection of such a fingertip can
    reach. *)
Definition in_reach (p : THREE.Vector3) : Prop :=
  (-2.5 <= THREE.x p <= 2.5)%Q /\ (0.1 <= THREE.y p <= 2.55)%Q /\
  (-0.51 <= THREE.z p <= 0)%Q.

(** The point of the camera image whose projection has the world
    coordinates [lx], [ly] of a slot. *)
Definition fingertipFor (lx ly : Q) : Q * Q :=
  ((0.5 - lx / 5)%Q, (1 - (ly + 0.95) / 3.5)%Q).

(** The hands of the scenario with the right hand tracked as well. *)
Definition bothHands : HandPositions.t :=
  {| HandPositions.left := HandPositions.left scenarioHands;
     HandPositions.right :=
       Some {| THREE.x := 0.4; THREE.y := 0.8; THREE.z := 0 |};
     HandPositions.lastLeft := None; HandPositions.lastRight := None;
     HandPositions.leftVelocity := HandPositions.leftVelocity scenarioHands;
     HandPositions.rightVelocity :=
       {| THREE.x := 0; THREE.y := -3; THREE.z := 0 |};
     HandPositions.lastTimestamp := 0 |}.

(** A left hand at the projection of the fingertip for the slot of the
    single target, at rest. *)
Definition slotHands : HandPositions.t :=
  {| HandPositions.left :=
       Some (mapHandToWorld
               (fst (fingertipFor (-0.5 * LANE_WIDTH) 0.8))
               (snd (fingertipFor (-0.5 * LANE_WIDTH) 0.8)));
     HandPositions.right := None;
     HandPositions.lastLeft := None; HandPositions.lastRight := None;
     HandPositions.leftVelocity := zeroVector;
     HandPositions.rightVelocity := zeroVector;
     HandPositions.lastTimestamp := 0 |}.

(** The scene after the hit frame of the scenario. *)
Definition sceneAfterHit : SceneRefs :=
  fst (useFrame sqrtQ PLAYING scenarioAudio scenarioHands
         (startSession [scenarioNote])).

(** The clock a second before the single target arrives. *)
Definition earlyAudio : Audio := {| currentTime := 1.0; ended := false |}.

(** No note behind the cursor has been dropped: it is still active or
    it has been resolved. *)
Definition session_complete (st : SceneRefs) : Prop :=
  forall ref n, ref < nextNoteIndexRef st ->
    notesState st !! ref = Some n ->
    ref ∈ activeNotesRef st \/ resolved n.

(** The active list is in chart order. *)
Definition active_ascending (st : SceneRefs) : Prop :=
  StronglySorted lt (activeNotesRef st).

(** Boolean checks on a chart, to run on the demo chart. *)
Fixpoint sorted_by_time (l : list NoteData) : bool :=
  match l with
  | [] => true
  | a :: l' =>
      forallb (fun b => Qle_bool (time a) (time b)) l' && sorted_by_time l'
  end.

Definition well_formed_note (n : NoteData) : bool :=
  (lineIndex n <? 4)%nat && (lineLayer n <? 3)%nat
  && match cutDirection n with ANY => true | _ => false end
  && negb (hit n) && negb (missed n)
  && match type n with
     | HandLeft => (lineIndex n <? 2)%nat
     | HandRight => (2 <=? lineIndex n)%nat
     end.

(** * Properties *)

(** ** Rational comparisons *)

Lemma Qlt_bool_iff (a b : Q) : Qlt_bool a b = true <-> (a < b)%Q.
Proof.
  unfold Qlt_bool. rewrite negb_true_iff.
  split; intros H.
  - apply Qnot_le_lt. intros Hle. apply Qle_bool_iff in Hle. congruence.
  - destruct (Qle_bool b a) eqn:E; [|reflexivity].
    apply Qle_bool_iff in E. exfalso. exact (Qlt_not_le _ _ H E).
Qed.

Lemma Qlt_bool_false_iff (a b : Q) : Qlt_bool a b = false <-> (b <= a)%Q.
Proof.
  unfold Qlt_bool. rewrite negb_false_iff. apply Qle_bool_iff.
Qed.

Lemma sqrtQ_square (a : Z) (b : positive) :
  (0 <= a)%Z -> (sqrtQ ((a # b) * (a # b)) == a # b)%Q.
Proof.
  intros Ha. unfold sqrtQ, Qeq; cbn [Qmult Qnum Qden].
  replace (a * a * Z.pos (b * b))%Z with ((a * Z.pos b) * (a * Z.pos b))%Z
    by (rewrite Pos2Z.inj_mul; ring).
  rewrite Z.sqrt_square by lia. rewrite Pos2Z.inj_mul. ring.
Qed.

(** ** ScoreState *)

Section ScoreFacts.
Local Open Scope Z_scope.

Lemma multiplierFor_cases (c : Z) :
  (c <= 10 /\ multiplierFor c = 1) \/
  (11 <= c <= 20 /\ multiplierFor c = 2) \/
  (21 <= c <= 30 /\ multiplierFor c = 4) \/
  (31 <= c /\ multiplierFor c = 8).
Proof.
  unfold multiplierFor.
  destruct (Z.gtb_spec c 30); [lia|].
  destruct (Z.gtb_spec c 20); [lia|].
  destruct (Z.gtb_spec c 10); lia.
Qed.

Lemma handleNoteMiss_fields (s : ScoreState) :
  let s' := fst (handleNoteMiss s) in
  score s' = score s /\ combo s' = 0 /\ multiplier s' = 1 /\
  health s' = Z.max 0 (health s - 15).
Proof.
  unfold handleNoteMiss.
  destruct (Z.leb_spec (health s - 15) 0); cbn; repeat split; lia.
Qed.

(** A callback on its own keeps the multiplier in step with the combo,
    whatever multiplier the handler had captured. *)
Lemma applyEvent_multiplier (m : Z) (s : ScoreState) (e : SceneEvent) :
  multiplier s = multiplierFor (combo s) ->
  multiplier (applyEvent m s e) = multiplierFor (combo (applyEvent m s e)).
Proof.
  intros Hs. destruct e as [ref g | ref |]; cbn [applyEvent].
  - reflexivity.
  - destruct (handleNoteMiss_fields s) as (_ & Hc & Hm & _).
    rewrite Hc, Hm. reflexivity.
  - exact Hs.
Qed.

Lemma applyEvent_health (m : Z) (s : ScoreState) (e : SceneEvent) :
  0 <= health s <= 100 -> 0 <= health (applyEvent m s e) <= 100.
Proof.
  intros Hs. destruct e as [ref g | ref |]; cbn [applyEvent].
  - cbn. lia.
  - destruct (handleNoteMiss_fields s) as (_ & _ & _ & Hh). lia.
  - exact Hs.
Qed.

(** The score, combo and health a frame leaves are those of its
    callbacks taken one after the other. *)
Lemma applyFrame_score (s : ScoreState) (events : list SceneEvent) :
  score (applyFrame s events) =
  score (fold_left (applyEvent (multiplier s)) events s).
Proof. reflexivity. Qed.

Lemma applyFrame_combo (s : ScoreState) (events : list SceneEvent) :
  combo (applyFrame s events) =
  combo (fold_left (applyEvent (multiplier s)) events s).
Proof. reflexivity. Qed.

Lemma applyFrame_health (s : ScoreState) (events : list SceneEvent) :
  health (applyFrame s events) =
  health (fold_left (applyEvent (multiplier s)) events s).
Proof. reflexivity. Qed.

Lemma applyFrame_multiplier (s : ScoreState) (events : list SceneEvent) :
  multiplier (applyFrame s events) =
  default (multiplier s)
    (last (queuedMultipliers (multiplier s) s events ++
           updaterMultipliers (multiplier s) s events)).
Proof. reflexivity. Qed.

(** An invariant of single callbacks that does not look at the
    multiplier is an invariant of runs. *)
Lemma applyFrames_invariant (P : ScoreState -> Prop) :
  (forall m s e, P s -> P (applyEvent m s e)) ->
  (forall s s', score s = score s' -> combo s = combo s' ->
                health s = health s' -> P s -> P s') ->
  forall frames s, P s -> P (applyFrames s frames).
Proof.
  intros Hstep Hfields frames. unfold applyFrames.
  induction frames as [|f frames IH]; intros s Hs; cbn; [exact Hs|].
  apply IH.
  apply (Hfields (fold_left (applyEvent (multiplier s)) f s));
    [reflexivity | reflexivity | reflexivity |].
  generalize (multiplier s) as m. revert s Hs.
  induction f as [|e f IHf]; intros s Hs m; cbn; [exact Hs|].
  apply IHf. apply Hstep, Hs.
Qed.

Lemma queuedMultipliers_app (m : Z) (l k : list SceneEvent) (s : ScoreState) :
  queuedMultipliers m s (l ++ k) =
  queuedMultipliers m s l ++
  queuedMultipliers m (fold_left (applyEvent m) l s) k.
Proof.
  revert s. induction l as [|e l IH]; intros s; [reflexivity|].
  destruct e as [ref g | ref |];
    cbn [app queuedMultipliers fold_left]; rewrite IH; reflexivity.
Qed.

Lemma updaterMultipliers_app (m : Z) (l k : list SceneEvent) (s : ScoreState) :
  updaterMultipliers m s (l ++ k) =
  updaterMultipliers m s l ++
  updaterMultipliers m (fold_left (applyEvent m) l s) k.
Proof.
  revert s. induction l as [|e l IH]; intros s; [reflexivity|].
  destruct e as [ref g | ref |];
    cbn [app updaterMultipliers fold_left]; rewrite IH; reflexivity.
Qed.

Lemma updaterMultipliers_no_hit (m : Z) (events : list SceneEvent)
    (s : ScoreState) :
  Forall (fun e => isHit e = false) events ->
  updaterMultipliers m s events = [].
Proof.
  intros H. revert s. induction H as [|e events He _ IH]; intros s;
    [reflexivity|].
  destruct e as [ref g | ref |]; [discriminate | apply IH | apply IH].
Qed.

Lemma queuedMultipliers_no_miss (m : Z) (events : list SceneEvent)
    (s : ScoreState) :
  Forall (fun e => isMiss e = false) events ->
  queuedMultipliers m s events = [].
Proof.
  intros H. revert s. induction H as [|e events He _ IH]; intros s;
    [reflexivity|].
  destruct e as [ref g | ref |]; [apply IH | discriminate | apply IH].
Qed.

Lemma default_last_cons (d x : Z) (l : list Z) :
  default d (last (x :: l)) = default x (last l).
Proof.
  destruct l as [|z l]; [reflexivity|].
  change (last (x :: z :: l)) with (last (z :: l)).
  destruct (last (z :: l)) eqn:E; [reflexivity|].
  apply last_None in E. discriminate.
Qed.

(** The multiplier after a frame with a hit is the one its last hit
    asks for: the threshold value of the combo that hit has reached,
    whatever the callbacks behind it do to the combo. *)
Lemma applyFrame_last_hit (s : ScoreState) (before after : list SceneEvent)
    (ref : nat) (goodCut : bool) :
  Forall (fun e => isHit e = false) after ->
  multiplier (applyFrame s (before ++ NoteHit ref goodCut :: after)) =
  multiplierFor (combo (applyFrame s before) + 1).
Proof.
  intros Hafter. rewrite applyFrame_multiplier, applyFrame_combo.
  rewrite updaterMultipliers_app. cbn [updaterMultipliers].
  rewrite (updaterMultipliers_no_hit _ after) by exact Hafter.
  rewrite !app_assoc, last_snoc. reflexivity.
Qed.

(** A frame whose callbacks are all of one kind keeps the multiplier
    in step with the combo. *)
Lemma queuedMultipliers_in_step (m : Z) (events : list SceneEvent)
    (s : ScoreState) :
  multiplier s = multiplierFor (combo s) ->
  default (multiplier s) (last (queuedMultipliers m s events)) =
  multiplierFor (combo (fold_left (applyEvent m) events s)) \/
  existsb isHit events = true.
Proof.
  revert s. induction events as [|e events IH]; intros s Hs;
    [left; exact Hs|].
  destruct e as [ref g | ref |]; cbn [existsb isHit orb]; [right; reflexivity| |].
  - cbn [queuedMultipliers fold_left]. rewrite default_last_cons.
    apply IH, applyEvent_multiplier, Hs.
  - apply IH, Hs.
Qed.

Lemma updaterMultipliers_in_step (m : Z) (events : list SceneEvent)
    (s : ScoreState) :
  multiplier s = multiplierFor (combo s) ->
  default (multiplier s) (last (updaterMultipliers m s events)) =
  multiplierFor (combo (fold_left (applyEvent m) events s)) \/
  existsb isMiss events = true.
Proof.
  revert s. induction events as [|e events IH]; intros s Hs;
    [left; exact Hs|].
  destruct e as [ref g | ref |]; cbn [existsb isMiss orb]; [|right; reflexivity|].
  - cbn [updaterMultipliers fold_left]. rewrite default_last_cons.
    apply IH, (applyEvent_multiplier m s (NoteHit ref g)), Hs.
  - apply IH, Hs.
Qed.

Lemma existsb_false_Forall {A : Type} (f : A -> bool) (l : list A) :
  existsb f l = false -> Forall (fun a => f a = false) l.
Proof.
  induction l as [|a l IH]; cbn; [constructor|].
  intros H. apply orb_false_elim in H as [Ha Hl].
  constructor; [exact Ha | apply IH, Hl].
Qed.

Lemma applyFrame_in_step (s : ScoreState) (events : list SceneEvent) :
  existsb isHit events && existsb isMiss events = false ->
  multiplier s = multiplierFor (combo s) ->
  multiplier (applyFrame s events) = multiplierFor (combo (applyFrame s events)).
Proof.
  intros Hkind Hs. rewrite applyFrame_multiplier, applyFrame_combo.
  destruct (existsb isHit events) eqn:Hh.
  - cbn [andb] in Hkind.
    rewrite (queuedMultipliers_no_miss _ events)
      by (apply existsb_false_Forall, Hkind).
    cbn [app].
    destruct (updaterMultipliers_in_step (multiplier s) events s Hs)
      as [H|H]; [exact H | congruence].
  - rewrite (updaterMultipliers_no_hit _ events)
      by (apply existsb_false_Forall, Hh).
    rewrite app_nil_r.
    destruct (queuedMultipliers_in_step (multiplier s) events s Hs)
      as [H|H]; [exact H | congruence].
Qed.

Lemma tenHits_value :
  tenHits = {| score := 1500; combo := 10; multiplier := 1; health := 100 |}.
Proof. reflexivity. Qed.
End ScoreFacts.

Section ScoreTheorems.
Local Open Scope Z_scope.

(** C1 (as the code has it).  A hit increments the combo, sets the
    multiplier to the threshold value of the incremented combo, and adds
    150 (good cut) or 100 (weak cut) times the multiplier the handler
    captured at the last render, that is the multiplier the state held
    when the frame began, not the one the hit sets.  This holds for
    every hit of a frame, whatever callbacks the frame sent before it.
    In the single-target scenario the frame at time 2.0 sends one good
    hit, worth 150 times the multiplier held before it. *)
Theorem hit_scores_with_captured_multiplier :
  (forall m goodCut s,
     let s' := handleNoteHit m goodCut s in
     combo s' = combo s + 1 /\
     multiplier s' = multiplierFor (combo s + 1) /\
     score s' = score s + (if goodCut then 150 else 100) * m) /\
  (forall s ref goodCut,
     score (applyFrame s [NoteHit ref goodCut]) =
     score s + (if goodCut then 150 else 100) * multiplier s) /\
  (forall s events ref goodCut,
     let before := applyFrame s events in
     let after := applyFrame s (events ++ [NoteHit ref goodCut]) in
     combo after = combo before + 1 /\
     multiplier after = multiplierFor (combo before + 1) /\
     score after =
       score before + (if goodCut then 150 else 100) * multiplier s) /\
  (forall s,
     let events :=
       snd (useFrame sqrtQ PLAYING scenarioAudio scenarioHands
              (startSession [scenarioNote])) in
     events = [NoteHit 0 true] /\
     score (applyFrame s events) = score s + 150 * multiplier s).
Proof.
  split; [|split; [|split]].
  - intros m [] s; cbn; repeat split; lia.
  - intros s ref []; cbn; lia.
  - intros s events ref goodCut before after. subst before after.
    split; [|split].
    + rewrite !applyFrame_combo, fold_left_app. reflexivity.
    + apply applyFrame_last_hit. constructor.
    + rewrite !applyFrame_score, fold_left_app.
      destruct goodCut; cbn; lia.
  - intros s. assert (E : snd (useFrame sqrtQ PLAYING scenarioAudio
      scenarioHands (startSession [scenarioNote])) = [NoteHit 0%nat true])
      by (vm_compute; reflexivity).
    cbv zeta. rewrite E. split; [reflexivity|]. cbn. lia.
Qed.

(** C1 as stated fails: the hit that takes the combo from 10
    to 11 sets the multiplier to 2 but is itself worth 150, not 300. *)
Lemma hit_at_combo_10_uses_old_multiplier :
  let s' := applyFrame tenHits [NoteHit 0 true] in
  combo tenHits = 10 /\ combo s' = 11 /\ multiplier s' = 2 /\
  score s' = score tenHits + 150 /\
  score s' <> score tenHits + (100 + 50) * multiplier s'.
Proof. vm_compute. repeat split; congruence. Qed.

(** C3.  Starting from health 100, after any run of hit and miss
    callbacks the health is between 0 and 100; a hit adds 2 capped at
    100, a miss takes 15 floored at 0. *)
Theorem health_stays_in_range :
  (forall frames, 0 <= health (applyFrames initialState frames) <= 100) /\
  (forall m goodCut s,
     health (handleNoteHit m goodCut s) = Z.min 100 (health s + 2)) /\
  (forall s, health (fst (handleNoteMiss s)) = Z.max 0 (health s - 15)).
Proof.
  split; [|split].
  - intros frames.
    apply (applyFrames_invariant (fun s => 0 <= health s <= 100)).
    + intros m s e. apply applyEvent_health.
    + intros s s' _ _ Hh. rewrite Hh. tauto.
    + cbn. lia.
  - reflexivity.
  - intros s. apply handleNoteMiss_fields.
Qed.

(** C8 (where the code leaves the claim).  A miss sets the combo to 0
    and the multiplier to 1, but the multiplier a hit asks for is set
    when React runs the combo updater, behind the miss's own update.
    The scene reports the hits of a frame before its misses; in the
    frame that hits the second note of [hitAndMissNotes] while the first
    one passes the miss line, after ten hits, the combo goes from 10 to
    0 and the multiplier from 1 to 2, where the threshold value of combo
    0 is 1, and the next hit is paid twice.  In general the multiplier
    after a frame with a hit is the threshold value of the combo its
    last hit reached.  The multiplier is the threshold value of the
    combo as long as no frame sends both a hit and a miss.  The
    threshold function itself is 1 up to combo 10, 2 from 11 to 20, 4
    from 21 to 30 and 8 from 31 on, and never decreases when the combo
    grows. *)
Theorem multiplier_outlives_a_miss_in_the_frame_of_a_hit :
  (let events :=
     snd (useFrame sqrtQ PLAYING lateAudio scenarioHands
            (startSession hitAndMissNotes)) in
   let s := applyFrame tenHits events in
   events = [NoteHit 1 true; NoteMiss 0] /\
   combo tenHits = 10 /\ multiplier tenHits = 1 /\
   combo s = 0 /\ multiplier s = 2 /\ multiplierFor (combo s) = 1 /\
   score (applyFrame s [NoteHit 2 true]) = score s + 300) /\
  (forall s before ref goodCut after,
     Forall (fun e => isHit e = false) after ->
     multiplier (applyFrame s (before ++ NoteHit ref goodCut :: after)) =
     multiplierFor (combo (applyFrame s before) + 1)) /\
  (forall frames,
     Forall (fun f => existsb isHit f && existsb isMiss f = false) frames ->
     let s := applyFrames initialState frames in
     multiplier s = multiplierFor (combo s)) /\
  (forall c,
     (c <= 10 -> multiplierFor c = 1) /\
     (11 <= c <= 20 -> multiplierFor c = 2) /\
     (21 <= c <= 30 -> multiplierFor c = 4) /\
     (31 <= c -> multiplierFor c = 8)) /\
  (forall c1 c2, c1 <= c2 -> multiplierFor c1 <= multiplierFor c2).
Proof.
  split; [|split; [|split; [|split]]].
  - assert (E : snd (useFrame sqrtQ PLAYING lateAudio scenarioHands
                       (startSession hitAndMissNotes)) =
                [NoteHit 1%nat true; NoteMiss 0%nat])
      by (vm_compute; reflexivity).
    cbv zeta. rewrite E. vm_compute. repeat split; reflexivity.
  - intros s before ref goodCut after. apply applyFrame_last_hit.
  - intros frames Hkind. cbv zeta. unfold applyFrames.
    assert (G : forall s, multiplier s = multiplierFor (combo s) ->
              multiplier (fold_left applyFrame frames s) =
              multiplierFor (combo (fold_left applyFrame frames s))).
    { induction Hkind as [|f frames Hf _ IH]; intros s Hs; [exact Hs|].
      cbn [fold_left]. apply IH, applyFrame_in_step; assumption. }
    apply G. reflexivity.
  - intros c. pose proof (multiplierFor_cases c). repeat split; lia.
  - intros c1 c2 Hle.
    pose proof (multiplierFor_cases c1). pose proof (multiplierFor_cases c2).
    lia.
Qed.

Lemma multiplier_outlives_a_miss_in_the_frame_of_a_hit_witness :
  multiplier (applyFrame tenHits ([] ++ NoteHit 1 true :: [NoteMiss 0])) =
    multiplierFor (combo (applyFrame tenHits []) + 1) /\
  multiplier (applyFrames initialState (repeat [NoteHit 0 true] 11)) =
    multiplierFor (combo (applyFrames initialState
                            (repeat [NoteHit 0 true] 11))) /\
  multiplierFor 0 = 1 /\ multiplierFor 11 = 2 /\ multiplierFor 21 = 4 /\
  multiplierFor 31 = 8 /\ multiplierFor 11 <= multiplierFor 31.
Proof.
  pose proof multiplier_outlives_a_miss_in_the_frame_of_a_hit
    as (_ & Hlast & Hstep & Hv & Hm).
  split; [apply Hlast; repeat constructor|].
  split; [apply (Hstep (repeat [NoteHit 0%nat true] 11));
          repeat constructor|].
  split; [apply (Hv 0); lia|].
  split; [apply (Hv 11); lia|].
  split; [apply (Hv 21); lia|].
  split; [apply (Hv 31); lia|].
  apply (Hm 11 31). lia.
Defined.

(** C9.  A miss leaves the score as it is; only a hit callback changes
    the score during play, and the reset of [startGame] sets it to 0. *)
Theorem miss_leaves_score_unchanged :
  (forall s, score (fst (handleNoteMiss s)) = score s) /\
  (forall m s e, (forall ref goodCut, e <> NoteHit ref goodCut) ->
     score (applyEvent m s e) = score s) /\
  (forall s, score (startGame_reset s) = 0).
Proof.
  split; [|split].
  - intros s. apply handleNoteMiss_fields.
  - intros m s [ref g | ref |] Hne; cbn [applyEvent].
    + destruct (Hne ref g eq_refl).
    + apply handleNoteMiss_fields.
    + reflexivity.
  - reflexivity.
Qed.

Lemma miss_leaves_score_unchanged_witness :
  score (applyEvent 2 tenHits (NoteMiss 3)) = score tenHits.
Proof.
  apply (proj1 (proj2 miss_leaves_score_unchanged) 2 tenHits (NoteMiss 3)).
  intros ref goodCut. discriminate.
Defined.
End ScoreTheorems.

(** ** The hand-signal conditioner *)

Section ConditionerFacts.
Local Open Scope Q_scope.

Lemma mapHandToWorld_in_play_volume (x y : Q) :
  in_play_volume (mapHandToWorld x y).
Proof.
  unfold in_play_volume, mapHandToWorld; cbn [THREE.y THREE.z]. split.
  - apply Q.le_max_l.
  - match goal with |- - Qmax 0 ?w <= 0 => pose proof (Q.le_max_l 0 w) end.
    lra.
Qed.

Lemma lerpVectors_in_play_volume (p q : THREE.Vector3) :
  in_play_volume p -> in_play_volume q ->
  in_play_volume (THREE.lerpVectors p q LERP).
Proof.
  unfold in_play_volume, THREE.lerpVectors, LERP; cbn [THREE.y THREE.z].
  intros [Hpy Hpz] [Hqy Hqz]. split; lra.
Qed.

(** Every raw position of a cycle is the projection of a fingertip. *)
Lemma collectHands_projection (results : list Detection) (h : HandType)
    (p : THREE.Vector3) :
  detected h results = Some p -> exists x y, p = mapHandToWorld x y.
Proof.
  unfold detected, collectHands.
  assert (G : forall acc : option THREE.Vector3 * option THREE.Vector3,
             (forall q, fst acc = Some q -> exists x y, q = mapHandToWorld x y) ->
             (forall q, snd acc = Some q -> exists x y, q = mapHandToWorld x y) ->
             let r := fold_left
               (fun '(newLeft, newRight) d =>
                  let isRight := String.eqb (categoryName d) "Right" in
                  let worldPos := mapHandToWorld (tip_x d) (tip_y d) in
                  if isRight then (newLeft, Some worldPos)
                  else (Some worldPos, newRight)) results acc in
             (forall q, fst r = Some q -> exists x y, q = mapHandToWorld x y) /\
             (forall q, snd r = Some q -> exists x y, q = mapHandToWorld x y)).
  { induction results as [|d results IH]; intros [nl nr] Hl Hr; cbn [fold_left].
    - split; assumption.
    - apply IH; destruct (String.eqb (categoryName d) "Right"); cbn [fst snd];
        try assumption; intros q [= <-]; eauto. }
  destruct (G (None, None)) as [Gl Gr]; cbn; try discriminate.
  destruct h; [apply Gl | apply Gr].
Qed.

(** The new position and velocity of a hand after a cycle, from the
    stored ones and the detection of that cycle. *)
Lemma processResults_hand (now : Q) (results : list Detection)
    (s : HandPositions.t) (h : HandType) :
  let deltaTime := (now - HandPositions.lastTimestamp s) / 1000 in
  let s' := processResults now results s in
  match detected h results, handPosOf h s with
  | Some raw, Some prev =>
      let smoothed := THREE.lerpVectors prev raw LERP in
      handPosOf h s' = Some smoothed /\
      handVelOf h s' =
        if Qlt_bool 0.001 deltaTime
        then THREE.divideScalar (THREE.subVectors smoothed prev) deltaTime
        else handVelOf h s
  | Some raw, None =>
      handPosOf h s' = Some raw /\ handVelOf h s' = handVelOf h s
  | None, _ =>
      handPosOf h s' = None /\ handVelOf h s' = handVelOf h s
  end.
Proof.
  unfold processResults, detected.
  destruct (collectHands results) as [newLeft newRight].
  destruct h; cbn [fst snd handPosOf handVelOf].
  - destruct newLeft as [raw|], (HandPositions.left s) as [prev|];
      cbn [updateHand];
      destruct (updateHand _ newRight _ _ _) as [[r lr] rv]; cbn; auto.
  - destruct (updateHand _ newLeft _ _ _) as [[l ll] lv].
    destruct newRight as [raw|], (HandPositions.right s) as [prev|];
      cbn; auto.
Qed.

Lemma processResults_timestamp (now : Q) (results : list Detection)
    (s : HandPositions.t) :
  HandPositions.lastTimestamp (processResults now results s) = now.
Proof.
  unfold processResults.
  destruct (collectHands results) as [newLeft newRight].
  destruct (updateHand _ newLeft _ _ _) as [[l ll] lv].
  destruct (updateHand _ newRight _ _ _) as [[r lr] rv].
  reflexivity.
Qed.

(** Cycles that do not see a hand leave it untracked and keep its
    velocity. *)
Lemma runCycles_gap (h : HandType) (gap : list (Q * list Detection))
    (s : HandPositions.t) :
  (forall c, c ∈ gap -> detected h (snd c) = None) ->
  handVelOf h (runCycles gap s) = handVelOf h s /\
  (gap <> [] -> handPosOf h (runCycles gap s) = None).
Proof.
  revert s. induction gap as [|c gap IH]; intros s Hgap; cbn.
  - split; [reflexivity | congruence].
  - pose proof (processResults_hand (fst c) (snd c) s h) as Hc.
    cbv zeta in Hc. rewrite (Hgap c) in Hc by apply list_elem_of_here.
    destruct Hc as [Hpos Hvel].
    destruct (IH (processResults (fst c) (snd c) s)) as [IHv IHp].
    { intros c' Hc'. apply Hgap. apply list_elem_of_further, Hc'. }
    fold (runCycles gap (processResults (fst c) (snd c) s)).
    split; [congruence|]. intros _.
    destruct gap as [|c' gap]; [exact Hpos | apply IHp; discriminate].
Qed.

Lemma runCycles_in_play_volume (cycles : list (Q * list Detection))
    (s : HandPositions.t) :
  (forall h p, handPosOf h s = Some p -> in_play_volume p) ->
  forall h p, handPosOf h (runCycles cycles s) = Some p -> in_play_volume p.
Proof.
  revert s. induction cycles as [|c cycles IH]; intros s Hs; cbn; [exact Hs|].
  fold (runCycles cycles (processResults (fst c) (snd c) s)).
  apply IH. intros h p Hp.
  pose proof (processResults_hand (fst c) (snd c) s h) as Hc. cbv zeta in Hc.
  destruct (detected h (snd c)) as [raw|] eqn:Hraw.
  - destruct (collectHands_projection _ _ _ Hraw) as (x & y & ->).
    destruct (handPosOf h s) as [prev|] eqn:Hprev.
    + destruct Hc as [Hpos _]. rewrite Hpos in Hp. injection Hp as <-.
      apply lerpVectors_in_play_volume;
        [eapply Hs, Hprev | apply mapHandToWorld_in_play_volume].
    + destruct Hc as [Hpos _]. rewrite Hpos in Hp. injection Hp as <-.
      apply mapHandToWorld_in_play_volume.
  - destruct Hc as [Hpos _]. congruence.
Qed.
End ConditionerFacts.

Section ConditionerTheorems.
Local Open Scope Q_scope.

(** C2 (as the code has it).  Every detector cycle restarts the clock
    the divisor is taken from, whether or not it saw the hand.  When the
    hand was tracked in the previous cycle and is detected again, its
    position becomes the smoothed one and its velocity becomes (smoothed
    - previous) / deltaTime if deltaTime is above 1 ms, and stays as it
    was otherwise.  When the hand was not tracked in the previous cycle,
    or is not detected in this one, its velocity stays as it was.  So
    after a gap of one or more cycles the new detection does not
    recompute the velocity: the hand keeps the velocity it had before
    the gap and restarts at the raw detected position. *)
Theorem velocity_update_rule (now : Q) (results : list Detection)
    (s : HandPositions.t) (h : HandType) :
  let deltaTime := (now - HandPositions.lastTimestamp s) / 1000 in
  let s' := processResults now results s in
  HandPositions.lastTimestamp s' = now /\
  (forall prev raw,
     handPosOf h s = Some prev -> detected h results = Some raw ->
     let smoothed := THREE.lerpVectors prev raw LERP in
     handPosOf h s' = Some smoothed /\
     (0.001 < deltaTime ->
      handVelOf h s' =
        THREE.divideScalar (THREE.subVectors smoothed prev) deltaTime) /\
     (deltaTime <= 0.001 -> handVelOf h s' = handVelOf h s)) /\
  (handPosOf h s = None ->
     handVelOf h s' = handVelOf h s /\ handPosOf h s' = detected h results) /\
  (detected h results = None ->
     handVelOf h s' = handVelOf h s /\ handPosOf h s' = None) /\
  (forall gap s0,
     s = runCycles gap s0 -> gap <> [] ->
     Forall (fun c => detected h (snd c) = None) gap ->
     handVelOf h s' = handVelOf h s0 /\ handPosOf h s' = detected h results).
Proof.
  intros deltaTime s'.
  pose proof (processResults_hand now results s h) as Hc. cbv zeta in Hc.
  fold deltaTime s' in Hc.
  assert (Hnone : handPosOf h s = None ->
    handVelOf h s' = handVelOf h s /\ handPosOf h s' = detected h results).
  { intros Hs. rewrite Hs in Hc.
    destruct (detected h results); destruct Hc; split; congruence. }
  split; [apply processResults_timestamp|].
  split; [|split; [exact Hnone|split]].
  - intros prev raw Hprev Hraw smoothed. rewrite Hprev, Hraw in Hc.
    fold smoothed in Hc. destruct Hc as [Hpos Hvel].
    split; [exact Hpos|]. split; intros Hdt.
    + apply Qlt_bool_iff in Hdt. rewrite Hdt in Hvel. exact Hvel.
    + apply Qlt_bool_false_iff in Hdt. rewrite Hdt in Hvel. exact Hvel.
  - intros Hraw. rewrite Hraw in Hc. destruct Hc. split; assumption.
  - intros gap s0 -> Hne Hgap.
    destruct (runCycles_gap h gap s0) as [Hv Hp].
    { intros c Hin. rewrite Forall_forall in Hgap. apply Hgap, Hin. }
    destruct (Hnone (Hp Hne)) as [Hv' Hp']. split; congruence.
Qed.

Lemma velocity_update_rule_witness :
  let s0 := runCycles gapBefore initialHands in
  let s := runCycles gapCycles s0 in
  handVelOf HandLeft (processResults (fst gapAfter) (snd gapAfter) s) =
  handVelOf HandLeft s0.
Proof.
  intros s0 s.
  apply (proj2 (proj2 (proj2 (proj2
           (velocity_update_rule (fst gapAfter) (snd gapAfter) s HandLeft))))
           gapCycles s0).
  - reflexivity.
  - discriminate.
  - repeat constructor.
Defined.

(** C2 as stated fails: after two samples, three cycles
    without the hand and a new detection, the velocity is still the one
    of the second sample (3 along x), although the hand has moved; the
    step since the last sample over the 0.4 s since then would be 2.55
    along x. *)
Lemma redetection_keeps_old_velocity :
  let before := runCycles gapBefore initialHands in
  let after := runCycles (gapBefore ++ gapCycles ++ [gapAfter]) initialHands in
  HandPositions.left before = Some gapLastPos /\
  HandPositions.left after = Some (mapHandToWorld 0.1 0.5) /\
  HandPositions.leftVelocity after = HandPositions.leftVelocity before /\
  THREE.x (HandPositions.leftVelocity after) == 3 /\
  THREE.x (spec_gap_velocity gapLastPos (mapHandToWorld 0.1 0.5) 1100 1500)
    == 2.55 /\
  ~ THREE.x (HandPositions.leftVelocity after) ==
    THREE.x (spec_gap_velocity gapLastPos (mapHandToWorld 0.1 0.5) 1100 1500).
Proof.
  cbv zeta. repeat (split; [vm_compute; reflexivity|]).
  vm_compute. discriminate.
Qed.

(** C10.  The projection of a fingertip is a function of the two
    normalized coordinates alone; its height is at least 0.1, its depth
    is at most 0 and equals minus the larger of 0 and a fifth of the
    unclamped world height.  Smoothing keeps both bounds, so no tracked
    hand position the judge reads is below 0.1 or at positive depth. *)
Theorem hand_projection_is_clamped :
  (forall x y,
     let p := mapHandToWorld x y in
     0.1 <= THREE.y p /\ THREE.z p <= 0 /\
     THREE.z p == - Qmax 0 (0.2 * ((1.0 - y) * 3.5 - 3.5 / 2 + 0.8))) /\
  (forall cycles h p,
     handPosOf h (runCycles cycles initialHands) = Some p ->
     0.1 <= THREE.y p /\ THREE.z p <= 0).
Proof.
  split.
  - intros x y p.
    destruct (mapHandToWorld_in_play_volume x y) as [Hy Hz].
    split; [exact Hy|]. split; [exact Hz|].
    unfold p, mapHandToWorld; cbn [THREE.z].
    apply Qopp_comp, Q.max_compat; [reflexivity | ring].
  - intros cycles h p Hp.
    apply (runCycles_in_play_volume cycles initialHands) with (h := h);
      [|exact Hp].
    intros [] q; discriminate.
Qed.

Lemma hand_projection_is_clamped_witness :
  0.1 <= THREE.y (mapHandToWorld 0.5 0.5) /\
  THREE.z (mapHandToWorld 0.5 0.5) <= 0.
Proof.
  apply (proj2 hand_projection_is_clamped [(1000, [leftAt 0.5 0.5])] HandLeft).
  reflexivity.
Defined.
End ConditionerTheorems.

(** ** The spawn loop *)

Section SpawnFacts.
Local Open Scope Q_scope.

Lemma spawnAheadTime_value : spawnAheadTime == 3.
Proof. reflexivity. Qed.

(** What the [while] loop has done when it stops, provided the fuel
    covers the notes that remain: it stops at the end of the chart or at
    the first note that is not yet due. *)
Lemma spawnLoop_spec (fuel : nat) (now : Q) (st : SceneRefs) :
  (length (notesState st) - nextNoteIndexRef st <= fuel)%nat ->
  let st' := spawnLoop fuel now st in
  notesState st' = notesState st /\
  (nextNoteIndexRef st <= nextNoteIndexRef st')%nat /\
  activeNotesRef st' =
    activeNotesRef st ++
    seq (nextNoteIndexRef st) (nextNoteIndexRef st' - nextNoteIndexRef st) /\
  (forall i, (nextNoteIndexRef st <= i < nextNoteIndexRef st')%nat ->
     exists n, notesState st !! i = Some n /\ time n - spawnAheadTime <= now) /\
  (forall n, notesState st !! nextNoteIndexRef st' = Some n ->
     ~ time n - spawnAheadTime <= now).
Proof.
  revert st. induction fuel as [|fuel IH]; intros st Hfuel; cbn [spawnLoop].
  - cbv zeta. rewrite Nat.sub_diag, app_nil_r.
    repeat split; try lia.
    intros n Hn. apply lookup_lt_Some in Hn. lia.
  - destruct (notesState st !! nextNoteIndexRef st) as [nextNote|] eqn:Hnext.
    + destruct (Qle_bool (time nextNote - spawnAheadTime) now) eqn:Hdue.
      * apply Qle_bool_iff in Hdue.
        match goal with |- context [spawnLoop fuel now ?s] => set (st1 := s) end.
        specialize (IH st1). cbv zeta in IH. cbn [st1 notesState
          nextNoteIndexRef activeNotesRef] in IH.
        destruct IH as (Hnotes & Hle & Hact & Hin & Hout); [lia|].
        fold st1. cbv zeta.
        split; [exact Hnotes|]. split; [lia|]. split; [|split].
        -- rewrite Hact, <- app_assoc. f_equal.
           replace (nextNoteIndexRef (spawnLoop fuel now st1)
                    - nextNoteIndexRef st)%nat
             with (S (nextNoteIndexRef (spawnLoop fuel now st1)
                      - S (nextNoteIndexRef st)))%nat by lia.
           reflexivity.
        -- intros i Hi.
           destruct (decide (i = nextNoteIndexRef st)) as [->|Hne].
           ++ exists nextNote. split; assumption.
           ++ apply Hin. lia.
        -- exact Hout.
      * cbv zeta. rewrite Nat.sub_diag, app_nil_r.
        repeat split; try lia.
        intros n Hn. rewrite Hnext in Hn. injection Hn as <-.
        intros Hle. apply Qle_bool_iff in Hle. congruence.
    + cbv zeta. rewrite Nat.sub_diag, app_nil_r.
      repeat split; try lia. intros n Hn. congruence.
Qed.

(** The spawn step keeps the state of the scene well formed. *)
Lemma spawnNotes_inv (now : Q) (st : SceneRefs) :
  SceneInv st -> SceneInv (spawnNotes now st).
Proof.
  intros [Hnd Hact Hfut Hexcl].
  destruct (spawnLoop_spec
              (length (notesState st) - nextNoteIndexRef st) now st)
    as (Hnotes & Hle & Hact' & Hin & _); [lia|].
  fold (spawnNotes now st) in Hnotes, Hle, Hact', Hin.
  split.
  - rewrite Hact'. apply NoDup_app. split; [exact Hnd|].
    split; [|apply NoDup_seq].
    intros ref Href Hseq. apply elem_of_seq in Hseq.
    destruct (Hact ref Href). lia.
  - intros ref Href. rewrite Hact' in Href. rewrite Hnotes.
    apply elem_of_app in Href as [Href|Href].
    + destruct (Hact ref Href) as [Hlt Hn]. split; [lia | exact Hn].
    + apply elem_of_seq in Href.
      destruct (Hin ref) as (n & Hn & _); [lia|].
      split; [lia|]. exists n. split; [exact Hn|].
      apply (Hfut ref n); [lia | exact Hn].
  - intros ref n Href Hn. rewrite Hnotes in Hn.
    apply (Hfut ref n); [lia | exact Hn].
  - intros ref n Hn. rewrite Hnotes in Hn. apply (Hexcl ref n Hn).
Qed.

End SpawnFacts.

(** ** The judge loop *)

Section ListFacts.
Context {A B : Type}.

Lemma filter_ext_elem (P1 P2 : A -> Prop)
    `{!forall x, Decision (P1 x)} `{!forall x, Decision (P2 x)} (l : list A) :
  (forall x, x ∈ l -> (P1 x <-> P2 x)) -> filter P1 l = filter P2 l.
Proof.
  induction l as [|a l IH]; intros Hext; [reflexivity|].
  rewrite !filter_cons.
  rewrite IH by (intros x Hx; apply Hext, list_elem_of_further, Hx).
  pose proof (Hext a (list_elem_of_here a l)) as Ha.
  destruct (decide (P1 a)), (decide (P2 a)); tauto.
Qed.

Lemma flat_map_ext_elem (f g : A -> list B) (l : list A) :
  (forall x, x ∈ l -> f x = g x) -> flat_map f l = flat_map g l.
Proof.
  induction l as [|a l IH]; intros Hext; [reflexivity|]. cbn.
  rewrite (Hext a) by apply list_elem_of_here.
  rewrite IH by (intros x Hx; apply Hext, list_elem_of_further, Hx).
  reflexivity.
Qed.

Lemma elem_of_flat_map (f : A -> list B) (l : list A) (y : B) :
  y ∈ flat_map f l <-> exists x, x ∈ l /\ y ∈ f x.
Proof.
  rewrite list_elem_of_In, in_flat_map.
  split; intros (x & Hx & Hy); exists x; split;
    first [apply list_elem_of_In; assumption | apply list_elem_of_In in Hx;
           assumption | apply list_elem_of_In in Hy; assumption].
Qed.

Lemma NoDup_lookup_not_in_take (l : list A) (i : nat) (x : A) :
  NoDup l -> l !! i = Some x -> (x ∉ take i l) /\ (x ∉ drop (S i) l).
Proof.
  intros Hnd Hi. rewrite <- (take_drop_middle l i x Hi) in Hnd.
  apply NoDup_app in Hnd as (_ & Hdisj & Hnd).
  apply NoDup_cons in Hnd as [Hx _]. split; [|exact Hx].
  intros Hin. apply (Hdisj x Hin). apply list_elem_of_here.
Qed.

Lemma take_delete_same (l : list A) (i : nat) :
  take i (delete i l) = take i l.
Proof.
  rewrite delete_take_drop.
  destruct (Nat.le_gt_cases i (length l)) as [Hle|Hgt].
  - rewrite take_app_length'; [reflexivity|]. rewrite length_take. lia.
  - rewrite (drop_ge l (S i)) by lia. rewrite app_nil_r.
    rewrite take_take. f_equal. lia.
Qed.

Lemma drop_delete_same (l : list A) (i : nat) :
  drop i (delete i l) = drop (S i) l.
Proof.
  rewrite delete_take_drop.
  destruct (Nat.le_gt_cases i (length l)) as [Hle|Hgt].
  - rewrite drop_app_length'; [reflexivity|]. rewrite length_take. lia.
  - rewrite (drop_ge l (S i)) by lia. rewrite app_nil_r.
    apply drop_ge. rewrite length_take. lia.
Qed.
End ListFacts.

Section JudgeFacts.
Local Open Scope Q_scope.
Variable sqrt : Q -> Q.
Variable now : Q.
Variable hands : HandPositions.t.

(** The loop body on a pending note does what [verdict] says. *)
Lemma judgeNote_verdict (i ref : nat) (note : NoteData) (st : SceneRefs) :
  activeNotesRef st !! i = Some ref ->
  notesState st !! ref = Some note ->
  pending note ->
  judgeNote sqrt now hands i st =
    match verdict sqrt now hands note with
    | Keep => (st, [])
    | Miss => (resolve i ref (set_missed note) st, [NoteMiss ref])
    | Hit goodCut =>
        (resolve i ref (set_hit now note) st, [NoteHit ref goodCut])
    end.
Proof.
  intros Hi Href [Hhit Hmissed].
  unfold judgeNote, verdict. rewrite Hi, Href, Hhit, Hmissed. cbn [orb].
  destruct (Qlt_bool MISS_Z (currentZ now note)); [reflexivity|].
  destruct (Qlt_bool (PLAYER_Z - 1.5) (currentZ now note)
            && Qlt_bool (currentZ now note) (PLAYER_Z + 1.0)); [|reflexivity].
  destruct (handPosOf (type note) hands) as [handPos|]; [|reflexivity].
  destruct (notePosition now note) as [notePos|]; [|reflexivity].
  destruct (Qlt_bool (THREE.distanceTo sqrt handPos notePos) 0.8); reflexivity.
Qed.

(** A resolved note is passed over. *)
Lemma judgeNote_resolved (i ref : nat) (note : NoteData) (st : SceneRefs) :
  activeNotesRef st !! i = Some ref ->
  notesState st !! ref = Some note ->
  resolved note ->
  judgeNote sqrt now hands i st = (st, []).
Proof.
  intros Hi Href Hres. unfold judgeNote. rewrite Hi, Href.
  destruct Hres as [-> | ->]; [reflexivity|].
  rewrite orb_true_r. reflexivity.
Qed.

Lemma judged_step (note : NoteData) :
  pending note -> note_step note (judged sqrt now hands note).
Proof.
  intros Hp. unfold judged, note_step.
  destruct (verdict sqrt now hands note); eauto.
Qed.

Lemma judged_excl (note : NoteData) :
  pending note ->
  ~ (hit (judged sqrt now hands note) = true /\
     missed (judged sqrt now hands note) = true).
Proof.
  intros [Hh Hm]. unfold judged.
  destruct (verdict sqrt now hands note); cbn; intros []; congruence.
Qed.

Lemma judged_pending (note : NoteData) :
  pending note ->
  (pending (judged sqrt now hands note) <->
   verdict sqrt now hands note = Keep).
Proof.
  intros [Hh Hm]. unfold judged, pending.
  destruct (verdict sqrt now hands note); cbn; split;
    try tauto; try congruence; intros []; congruence.
Qed.

(** The [for] loop from index [k - 1] down to 0 on a list of distinct
    references to pending notes: of the first [k] entries it keeps those
    the verdict keeps, it rewrites the notes behind them as the verdict
    says, and it sends their callbacks from the last entry to the
    first. *)
Lemma judgeLoop_spec (k : nat) (st : SceneRefs) :
  NoDup (activeNotesRef st) ->
  (forall ref, ref ∈ activeNotesRef st ->
     exists n, notesState st !! ref = Some n /\ pending n) ->
  (k <= length (activeNotesRef st))%nat ->
  let st' := fst (judgeLoop sqrt now hands k st) in
  let events := snd (judgeLoop sqrt now hands k st) in
  activeNotesRef st' =
    filter (fun ref => kept sqrt now hands (notesState st) ref = true)
      (take k (activeNotesRef st)) ++ drop k (activeNotesRef st) /\
  nextNoteIndexRef st' = nextNoteIndexRef st /\
  length (notesState st') = length (notesState st) /\
  (forall ref n, notesState st !! ref = Some n ->
     notesState st' !! ref =
       Some (if bool_decide (ref ∈ take k (activeNotesRef st))
             then judged sqrt now hands n else n)) /\
  events =
    flat_map (callbacks sqrt now hands (notesState st))
      (reverse (take k (activeNotesRef st))).
Proof.
  revert st. induction k as [|i IH]; intros st Hnd Hact Hk; cbn [judgeLoop].
  { cbn. rewrite take_0, drop_0. repeat split.
    intros ref n Hn. rewrite bool_decide_eq_false_2; [exact Hn|].
    apply not_elem_of_nil. }
  destruct (lookup_lt_is_Some_2 (activeNotesRef st) i) as [ref Hi]; [lia|].
  destruct (Hact ref) as (note & Href & Hpend);
    [apply list_elem_of_lookup; eauto|].
  destruct (NoDup_lookup_not_in_take _ _ _ Hnd Hi) as [Hnotin _].
  rewrite (take_S_r _ _ _ Hi), reverse_snoc, filter_app. cbn [flat_map].
  rewrite (judgeNote_verdict i ref note st Hi Href Hpend).
  assert (Hcb : callbacks sqrt now hands (notesState st) ref =
                match verdict sqrt now hands note with
                | Keep => [] | Miss => [NoteMiss ref]
                | Hit g => [NoteHit ref g] end)
    by (unfold callbacks; rewrite Href; reflexivity).
  assert (Hkept : kept sqrt now hands (notesState st) ref =
                  match verdict sqrt now hands note with
                  | Keep => true | _ => false end)
    by (unfold kept; rewrite Href; reflexivity).
  assert (Hmem : forall r, r ∈ take i (activeNotesRef st) ++ [ref] <->
                           r = ref \/ r ∈ take i (activeNotesRef st)).
  { intros r. rewrite elem_of_app, list_elem_of_singleton. tauto. }
  (* what the loop does below index [i] once the note is resolved *)
  assert (Hres : forall note' ev,
    note' = judged sqrt now hands note ->
    kept sqrt now hands (notesState st) ref = false ->
    callbacks sqrt now hands (notesState st) ref = [ev] ->
    let r := let '(st2, e2) :=
               judgeLoop sqrt now hands i (resolve i ref note' st) in
             (st2, [ev] ++ e2) in
    activeNotesRef (fst r) =
      (filter (fun ref => kept sqrt now hands (notesState st) ref = true)
         (take i (activeNotesRef st)) ++
       filter (fun ref => kept sqrt now hands (notesState st) ref = true)
         [ref]) ++ drop (S i) (activeNotesRef st) /\
    nextNoteIndexRef (fst r) = nextNoteIndexRef st /\
    length (notesState (fst r)) = length (notesState st) /\
    (forall ref0 n, notesState st !! ref0 = Some n ->
       notesState (fst r) !! ref0 =
         Some (if bool_decide (ref0 ∈ take i (activeNotesRef st) ++ [ref])
               then judged sqrt now hands n else n)) /\
    snd r =
      callbacks sqrt now hands (notesState st) ref ++
      flat_map (callbacks sqrt now hands (notesState st))
        (reverse (take i (activeNotesRef st)))).
  { intros note' ev Hnote' Hk' Hev r. subst r.
    set (st1 := resolve i ref note' st).
    assert (Hother : forall r, r ∈ take i (activeNotesRef st) ->
                       notesState st1 !! r = notesState st !! r).
    { intros r Hr. cbn. apply list_lookup_insert_ne. congruence. }
    specialize (IH st1). cbv zeta in IH.
    destruct (judgeLoop sqrt now hands i st1) as [st2 e2].
    cbn [fst snd] in IH |- *.
    cbn [st1 resolve activeNotesRef nextNoteIndexRef] in IH.
    rewrite take_delete_same, drop_delete_same in IH.
    destruct IH as (Hact2 & Hnext2 & Hlen2 & Hnotes2 & Hev2).
    - cbn. rewrite delete_take_drop.
      rewrite <- (take_drop_middle _ _ _ Hi) in Hnd.
      apply NoDup_app in Hnd as (Hnd1 & Hdisj & Hnd2).
      apply NoDup_cons in Hnd2 as [_ Hnd2].
      apply NoDup_app. split; [exact Hnd1|]. split; [|exact Hnd2].
      intros x Hx Hx'. apply (Hdisj x Hx). apply list_elem_of_further, Hx'.
    - intros r Hr. apply list_elem_of_lookup in Hr as [j Hj].
      destruct (NoDup_lookup_not_in_take _ _ _ Hnd Hi) as [Hn1 Hn2].
      assert (Hrin : r ∈ activeNotesRef st /\ r <> ref).
      { rewrite delete_take_drop in Hj.
        assert (Hr : r ∈ take i (activeNotesRef st)
                         ++ drop (S i) (activeNotesRef st))
          by (apply list_elem_of_lookup; eauto).
        apply elem_of_app in Hr. split.
        - destruct Hr as [Hr|Hr];
            [eapply subseteq_take, Hr | eapply subseteq_drop, Hr].
        - intros ->. tauto. }
      destruct Hrin as [Hrin Hne]. destruct (Hact r Hrin) as (n & Hn & Hp).
      exists n. split; [|exact Hp].
      cbn. rewrite list_lookup_insert_ne by congruence. exact Hn.
    - rewrite length_delete by eauto. lia.
    - split; [|split; [exact Hnext2|split; [|split]]].
      + rewrite Hact2. f_equal.
        rewrite (filter_ext_elem
          (fun ref => kept sqrt now hands (notesState st) ref = true)
          (fun ref => kept sqrt now hands (notesState st1) ref = true)).
        * rewrite filter_cons, filter_nil.
          rewrite decide_False by congruence. rewrite app_nil_r. reflexivity.
        * intros r Hr. unfold kept. rewrite (Hother r Hr). reflexivity.
      + rewrite Hlen2. cbn. apply length_insert.
      + intros ref0 n Hn.
        destruct (decide (ref0 = ref)) as [->|Hne].
        * rewrite Href in Hn. injection Hn as <-.
          rewrite (Hnotes2 ref note').
          -- rewrite bool_decide_eq_false_2 by exact Hnotin.
             rewrite bool_decide_eq_true_2 by (apply Hmem; auto).
             congruence.
          -- cbn. apply list_lookup_insert_eq.
             apply lookup_lt_Some in Href. exact Href.
        * rewrite (Hnotes2 ref0 n).
          -- f_equal. apply (f_equal (fun b : bool =>
               if b then judged sqrt now hands n else n)).
             apply bool_decide_ext. rewrite Hmem. tauto.
          -- cbn. rewrite list_lookup_insert_ne by congruence. exact Hn.
      + rewrite Hev2, Hev. f_equal.
        apply flat_map_ext_elem. intros r Hr. rewrite elem_of_reverse in Hr.
        unfold callbacks. rewrite (Hother r Hr). reflexivity. }
  destruct (verdict sqrt now hands note) as [| |goodCut] eqn:Hv.
  - (* Keep: nothing changes at index [i] *)
    specialize (IH st Hnd Hact). cbv zeta in IH.
    destruct (judgeLoop sqrt now hands i st) as [st2 e2].
    cbn [fst snd] in IH |- *.
    destruct IH as (Hact2 & Hnext2 & Hlen2 & Hnotes2 & Hev2); [lia|].
    split; [|split; [exact Hnext2|split; [exact Hlen2|split]]].
    + rewrite Hact2, filter_cons, filter_nil, decide_True by congruence.
      rewrite <- app_assoc. cbn [app].
      rewrite <- (drop_S _ _ _ Hi). reflexivity.
    + intros ref0 n Hn. rewrite (Hnotes2 ref0 n Hn).
      destruct (decide (ref0 = ref)) as [->|Hne].
      * rewrite Href in Hn. injection Hn as <-.
        rewrite bool_decide_eq_false_2 by exact Hnotin.
        rewrite bool_decide_eq_true_2 by (apply Hmem; auto).
        unfold judged. rewrite Hv. reflexivity.
      * f_equal. apply (f_equal (fun b : bool =>
          if b then judged sqrt now hands n else n)).
        apply bool_decide_ext. rewrite Hmem. tauto.
    + rewrite Hcb. exact Hev2.
  - apply (Hres (set_missed note) (NoteMiss ref));
      [unfold judged; rewrite Hv; reflexivity | congruence | congruence].
  - apply (Hres (set_hit now note) (NoteHit ref goodCut));
      [unfold judged; rewrite Hv; reflexivity | congruence | congruence].
Qed.
End JudgeFacts.

Section FrameFacts.
Local Open Scope Q_scope.
Variable sqrt : Q -> Q.

Lemma callbacks_elem (now : Q) (hands : HandPositions.t)
    (notes : list NoteData) (r : nat) (e : SceneEvent) :
  e ∈ callbacks sqrt now hands notes r <->
  exists n, notes !! r = Some n /\
    ((verdict sqrt now hands n = Miss /\ e = NoteMiss r) \/
     (exists g, verdict sqrt now hands n = Hit g /\ e = NoteHit r g)).
Proof.
  unfold callbacks. destruct (notes !! r) as [n|].
  - destruct (verdict sqrt now hands n) as [| |g] eqn:Hv.
    + split; [intros H; inversion H|].
      intros (n' & [= <-] & [[? _] | (g & ? & _)]); congruence.
    + rewrite list_elem_of_singleton. split.
      * intros ->. eauto.
      * intros (n' & [= <-] & [[_ ->] | (g & ? & _)]); congruence.
    + rewrite list_elem_of_singleton. split.
      * intros ->. eauto 6.
      * intros (n' & [= <-] & [[? _] | (g' & ? & ->)]); congruence.
  - split; [intros H; inversion H|]. intros (n & ? & _). congruence.
Qed.

(** The notes that get a callback are the ones the verdict does not
    keep. *)
Lemma callbacks_refs (now : Q) (hands : HandPositions.t)
    (notes : list NoteData) (l : list nat) :
  omap event_ref (flat_map (callbacks sqrt now hands notes) l) =
  filter (fun ref => kept sqrt now hands notes ref = false) l.
Proof.
  induction l as [|r l IH]; [reflexivity|].
  cbn [flat_map]. rewrite omap_app, IH, filter_cons.
  unfold callbacks, kept.
  destruct (notes !! r) as [n|]; [destruct (verdict sqrt now hands n)|];
    cbn; first [rewrite decide_True by reflexivity
               | rewrite decide_False by discriminate]; reflexivity.
Qed.

(** A playing frame, as a whole: the spawn step, then the verdicts on
    all active notes. *)
Lemma useFrame_playing (audio : Audio) (hands : HandPositions.t)
    (st : SceneRefs) :
  SceneInv st -> ended audio = false ->
  let now := currentTime audio in
  let st0 := spawnNotes now st in
  let r := useFrame sqrt PLAYING audio hands st in
  activeNotesRef (fst r) =
    filter (fun ref => kept sqrt now hands (notesState st) ref = true)
      (activeNotesRef st0) /\
  nextNoteIndexRef (fst r) = nextNoteIndexRef st0 /\
  length (notesState (fst r)) = length (notesState st) /\
  (forall ref n, notesState st !! ref = Some n ->
     notesState (fst r) !! ref =
       Some (if bool_decide (ref ∈ activeNotesRef st0)
             then judged sqrt now hands n else n)) /\
  snd r =
    flat_map (callbacks sqrt now hands (notesState st))
      (reverse (activeNotesRef st0)).
Proof.
  intros Hinv Hended now st0 r. subst r. unfold useFrame. rewrite Hended.
  fold now. fold st0.
  pose proof (spawnNotes_inv now st Hinv) as Hinv0. fold st0 in Hinv0.
  assert (Hnotes0 : notesState st0 = notesState st).
  { apply (spawnLoop_spec _ now st). reflexivity. }
  pose proof (judgeLoop_spec sqrt now hands
                (length (activeNotesRef st0)) st0) as Hloop.
  cbv zeta in Hloop.
  rewrite firstn_all, drop_all, app_nil_r, Hnotes0 in Hloop.
  apply Hloop; [apply Hinv0 | | reflexivity].
  intros ref Href. rewrite <- Hnotes0. apply (inv_active _ Hinv0 ref Href).
Qed.

Lemma note_step_refl (n : NoteData) : note_step n n.
Proof. left. reflexivity. Qed.

Lemma note_step_trans (n1 n2 n3 : NoteData) :
  note_step n1 n2 -> note_step n2 n3 -> note_step n1 n3.
Proof.
  unfold note_step, pending.
  intros [-> | (Hp & H12)] H23; [exact H23|].
  destruct H23 as [-> | ([Hh Hm] & _)]; [right; auto|].
  destruct H12 as [-> | (t & ->)]; cbn in Hh, Hm; congruence.
Qed.

Lemma note_step_pending (n n' : NoteData) :
  note_step n n' -> pending n' -> n' = n.
Proof.
  unfold note_step, pending.
  intros [-> | (_ & [-> | (t & ->)])] [Hh Hm]; cbn in Hh, Hm; congruence.
Qed.

Lemma note_step_resolved (n n' : NoteData) :
  note_step n n' -> resolved n -> n' = n.
Proof.
  unfold note_step, pending, resolved.
  intros [-> | ([Hh Hm] & _)] Hr; [reflexivity|].
  destruct Hr; congruence.
Qed.

Lemma session_trace_refl (st : SceneRefs) : session_trace st st [].
Proof.
  split; [reflexivity|]. split; [|split; [constructor|split]].
  - intros ref n Hn. exists n. split; [exact Hn | apply note_step_refl].
  - intros ref g H. inversion H.
  - intros ref H. inversion H.
Qed.

Lemma session_trace_trans (st1 st2 st3 : SceneRefs)
    (e1 e2 : list SceneEvent) :
  session_trace st1 st2 e1 -> session_trace st2 st3 e2 ->
  session_trace st1 st3 (e1 ++ e2).
Proof.
  intros (Hlen1 & Hstep1 & Hnd1 & Hhit1 & Hmiss1)
         (Hlen2 & Hstep2 & Hnd2 & Hhit2 & Hmiss2).
  (* a note with a callback in the first part is resolved in between *)
  assert (Hres1 : forall ref, ref ∈ omap event_ref e1 ->
            exists n2, notesState st2 !! ref = Some n2 /\ resolved n2).
  { intros ref Href. apply list_elem_of_omap in Href as (e & He & Hr).
    destruct e as [r g | r |]; cbn in Hr; try discriminate;
      injection Hr as ->.
    - destruct (Hhit1 ref g He) as (n & t & _ & _ & Hn2).
      exists (set_hit t n). split; [exact Hn2 | left; reflexivity].
    - destruct (Hmiss1 ref He) as (n & _ & _ & Hn2).
      exists (set_missed n). split; [exact Hn2 | right; reflexivity]. }
  (* a note with a callback in the second part is pending in between *)
  assert (Hpend2 : forall ref, ref ∈ omap event_ref e2 ->
            exists n2, notesState st2 !! ref = Some n2 /\ pending n2).
  { intros ref Href. apply list_elem_of_omap in Href as (e & He & Hr).
    destruct e as [r g | r |]; cbn in Hr; try discriminate;
      injection Hr as ->.
    - destruct (Hhit2 ref g He) as (n & t & Hn & Hp & _). eauto.
    - destruct (Hmiss2 ref He) as (n & Hn & Hp & _). eauto. }
  split; [congruence|]. split; [|split; [|split]].
  - intros ref n Hn.
    destruct (Hstep1 ref n Hn) as (n2 & Hn2 & Hs12).
    destruct (Hstep2 ref n2 Hn2) as (n3 & Hn3 & Hs23).
    exists n3. split; [exact Hn3 | eapply note_step_trans; eassumption].
  - rewrite omap_app. apply NoDup_app. split; [exact Hnd1|].
    split; [|exact Hnd2].
    intros ref Hr1 Hr2.
    destruct (Hres1 ref Hr1) as (n2 & Hn2 & Hres).
    destruct (Hpend2 ref Hr2) as (n2' & Hn2' & [Hh Hm]).
    rewrite Hn2 in Hn2'. injection Hn2' as <-. destruct Hres; congruence.
  - intros ref g He. apply elem_of_app in He as [He|He].
    + destruct (Hhit1 ref g He) as (n & t & Hn & Hp & Hn2).
      destruct (Hstep2 ref _ Hn2) as (n3 & Hn3 & Hs).
      apply note_step_resolved in Hs; [|left; reflexivity]. subst n3.
      exists n, t. auto.
    + destruct (Hhit2 ref g He) as (n2 & t & Hn2 & Hp & Hn3).
      assert (Hlt : (ref < length (notesState st1))%nat)
        by (rewrite <- Hlen1; eapply lookup_lt_Some, Hn2).
      destruct (lookup_lt_is_Some_2 _ _ Hlt) as [n Hn].
      destruct (Hstep1 ref n Hn) as (n2' & Hn2' & Hs).
      rewrite Hn2 in Hn2'. injection Hn2' as <-.
      apply note_step_pending in Hs; [|exact Hp]. subst n2.
      exists n, t. auto.
  - intros ref He. apply elem_of_app in He as [He|He].
    + destruct (Hmiss1 ref He) as (n & Hn & Hp & Hn2).
      destruct (Hstep2 ref _ Hn2) as (n3 & Hn3 & Hs).
      apply note_step_resolved in Hs; [|right; reflexivity]. subst n3.
      exists n. auto.
    + destruct (Hmiss2 ref He) as (n2 & Hn2 & Hp & Hn3).
      assert (Hlt : (ref < length (notesState st1))%nat)
        by (rewrite <- Hlen1; eapply lookup_lt_Some, Hn2).
      destruct (lookup_lt_is_Some_2 _ _ Hlt) as [n Hn].
      destruct (Hstep1 ref n Hn) as (n2' & Hn2' & Hs).
      rewrite Hn2 in Hn2'. injection Hn2' as <-.
      apply note_step_pending in Hs; [|exact Hp]. subst n2.
      exists n. auto.
Qed.
End FrameFacts.

Section SessionFacts.
Local Open Scope Q_scope.
Variable sqrt : Q -> Q.

(** One frame keeps the scene well formed and is a legal piece of a
    session. *)
Lemma useFrame_trace (gs : GameStatus) (audio : Audio)
    (hands : HandPositions.t) (st : SceneRefs) :
  SceneInv st ->
  let r := useFrame sqrt gs audio hands st in
  SceneInv (fst r) /\ session_trace st (fst r) (snd r).
Proof.
  intros Hinv r.
  assert (Hidle : SceneInv st /\ session_trace st st [])
    by (split; [exact Hinv | apply session_trace_refl]).
  destruct gs; try exact Hidle.
  destruct (ended audio) eqn:Hended.
  { subst r. unfold useFrame. rewrite Hended. split; [exact Hinv|].
    destruct (session_trace_refl st) as (Hl & Hs & _).
    split; [exact Hl|]. split; [exact Hs|]. split; [constructor|].
    split; [intros ref g H | intros ref H];
      apply list_elem_of_singleton in H; discriminate. }
  destruct (useFrame_playing sqrt audio hands st Hinv Hended)
    as (Hact & Hnext & Hlen & Hnotes & Hev).
  fold r in Hact, Hnext, Hlen, Hnotes, Hev.
  set (now := currentTime audio) in *.
  pose proof (spawnNotes_inv now st Hinv) as Hinv0.
  set (st0 := spawnNotes now st) in *.
  assert (Hnotes0 : notesState st0 = notesState st)
    by (apply (spawnLoop_spec _ now st); reflexivity).
  destruct Hinv0 as [Hnd0 Hact0 Hfut0 Hexcl0]. rewrite Hnotes0 in *.
  (* every note of the new chart comes from one of the old chart *)
  assert (Hback : forall ref n', notesState (fst r) !! ref = Some n' ->
            exists n, notesState st !! ref = Some n /\
              n' = if bool_decide (ref ∈ activeNotesRef st0)
                   then judged sqrt now hands n else n).
  { intros ref n' Hn'.
    assert (Hlt : (ref < length (notesState st))%nat)
      by (rewrite <- Hlen; eapply lookup_lt_Some, Hn').
    destruct (lookup_lt_is_Some_2 _ _ Hlt) as [n Hn].
    exists n. split; [exact Hn|].
    rewrite (Hnotes ref n Hn) in Hn'. congruence. }
  split.
  - split.
    + rewrite Hact. apply NoDup_filter, Hnd0.
    + intros ref Href. rewrite Hact in Href.
      apply list_elem_of_filter in Href as [Hkept Href].
      destruct (Hact0 ref Href) as (Hlt & n & Hn & Hp).
      split; [lia|]. exists n. split; [|exact Hp].
      rewrite (Hnotes ref n Hn), bool_decide_eq_true_2 by exact Href.
      f_equal. unfold kept in Hkept. rewrite Hn in Hkept.
      unfold judged. destruct (verdict sqrt now hands n);
        [reflexivity | discriminate | discriminate].
    + intros ref n' Hge Hn'.
      destruct (Hback ref n' Hn') as (n & Hn & ->).
      rewrite bool_decide_eq_false_2.
      * apply (Hfut0 ref n); [lia | exact Hn].
      * intros Href. destruct (Hact0 ref Href). lia.
    + intros ref n' Hn'.
      destruct (Hback ref n' Hn') as (n & Hn & ->).
      destruct (bool_decide_reflect (ref ∈ activeNotesRef st0)) as [Href|_].
      * destruct (Hact0 ref Href) as (_ & n0 & Hn0 & Hp).
        rewrite Hn in Hn0. injection Hn0 as <-. apply judged_excl, Hp.
      * apply (Hexcl0 ref n Hn).
  - split; [exact Hlen|]. split; [|split; [|split]].
    + intros ref n Hn. eexists. split; [apply (Hnotes ref n Hn)|].
      destruct (bool_decide_reflect (ref ∈ activeNotesRef st0)) as [Href|_].
      * destruct (Hact0 ref Href) as (_ & n0 & Hn0 & Hp).
        rewrite Hn in Hn0. injection Hn0 as <-. apply judged_step, Hp.
      * apply note_step_refl.
    + rewrite Hev, callbacks_refs. apply NoDup_filter.
      rewrite reverse_Permutation. exact Hnd0.
    + intros ref g He. rewrite Hev in He.
      apply elem_of_flat_map in He as (r0 & Hr0 & He).
      rewrite elem_of_reverse in Hr0.
      apply callbacks_elem in He
        as (n & Hn & [[_ Heq] | (g' & Hv & Heq)]); [discriminate|].
      injection Heq as -> ->.
      destruct (Hact0 r0 Hr0) as (_ & n0 & Hn0 & Hp).
      rewrite Hn in Hn0. injection Hn0 as <-.
      exists n, now. split; [exact Hn|]. split; [exact Hp|].
      rewrite (Hnotes r0 n Hn), bool_decide_eq_true_2 by exact Hr0.
      unfold judged. rewrite Hv. reflexivity.
    + intros ref He. rewrite Hev in He.
      apply elem_of_flat_map in He as (r0 & Hr0 & He).
      rewrite elem_of_reverse in Hr0.
      apply callbacks_elem in He
        as (n & Hn & [[Hv Heq] | (g' & _ & Heq)]); [|discriminate].
      injection Heq as ->.
      destruct (Hact0 r0 Hr0) as (_ & n0 & Hn0 & Hp).
      rewrite Hn in Hn0. injection Hn0 as <-.
      exists n. split; [exact Hn|]. split; [exact Hp|].
      rewrite (Hnotes r0 n Hn), bool_decide_eq_true_2 by exact Hr0.
      unfold judged. rewrite Hv. reflexivity.
Qed.

(** So is any run of frames. *)
Lemma runFrames_trace (frames : list FrameInput) (st : SceneRefs) :
  SceneInv st ->
  let r := runFrames sqrt frames st in
  SceneInv (fst r) /\ session_trace st (fst r) (concat (snd r)).
Proof.
  revert st. induction frames as [|[[gs audio] hands] frames IH];
    intros st Hinv; cbn [runFrames].
  - split; [exact Hinv | apply session_trace_refl].
  - destruct (useFrame_trace gs audio hands st Hinv) as [Hinv1 Htr1].
    destruct (useFrame sqrt gs audio hands st) as [st1 e1].
    cbn [fst snd] in Hinv1, Htr1.
    destruct (IH st1 Hinv1) as [Hinv2 Htr2].
    destruct (runFrames sqrt frames st1) as [st2 es].
    cbn [fst snd concat] in *.
    split; [exact Hinv2 | eapply session_trace_trans; eassumption].
Qed.

(** A session starts in a well-formed scene. *)
Lemma startSession_inv (chart : list NoteData) : SceneInv (startSession chart).
Proof.
  assert (Hp : forall ref n, map reset_flags chart !! ref = Some n ->
                 pending n).
  { intros ref n Hn. rewrite list_lookup_fmap in Hn.
    destruct (chart !! ref); [|discriminate].
    injection Hn as <-. split; reflexivity. }
  split; cbn.
  - constructor.
  - intros ref Href. inversion Href.
  - intros ref n _ Hn. exact (Hp ref n Hn).
  - intros ref n Hn [Hh _]. destruct (Hp ref n Hn). congruence.
Qed.

(** The miss check comes first and does not look at the hands. *)
Lemma verdict_miss (now : Q) (hands : HandPositions.t) (note : NoteData) :
  MISS_Z < currentZ now note -> verdict sqrt now hands note = Miss.
Proof.
  intros Hz. unfold verdict.
  apply Qlt_bool_iff in Hz. rewrite Hz. reflexivity.
Qed.

(** A distance hit is a hit, of the quality [cutQuality] computes. *)
Lemma verdict_hit (now : Q) (hands : HandPositions.t) (note : NoteData) :
  distanceHit sqrt now hands note ->
  verdict sqrt now hands note =
    Hit (cutQuality sqrt note (handVelOf (type note) hands)).
Proof.
  intros (Hmiss & Hlo & Hhi & handPos & notePos & Hhand & Hpos & Hdist).
  unfold verdict.
  destruct (Qlt_bool MISS_Z (currentZ now note)) eqn:E.
  { apply Qlt_bool_iff in E. contradiction. }
  apply Qlt_bool_iff in Hlo, Hhi, Hdist.
  rewrite Hlo, Hhi, Hhand, Hpos, Hdist. reflexivity.
Qed.

(** The quality gate for a required direction. *)
Lemma cutQuality_directional (note : NoteData) (handVel : THREE.Vector3) :
  cutDirection note <> ANY ->
  (cutQuality sqrt note handVel = true <->
   0.3 <= THREE.dot (THREE.normalize sqrt handVel)
            (DIRECTION_VECTORS (cutDirection note)) /\
   1.5 <= THREE.length sqrt handVel).
Proof.
  intros Hdir.
  assert (G : forall d speed,
            (if Qlt_bool d 0.3 || Qlt_bool speed 1.5 then false else true)
            = true <-> 0.3 <= d /\ 1.5 <= speed).
  { intros d speed. destruct (Qlt_bool d 0.3) eqn:Ed; cbn [orb].
    - apply Qlt_bool_iff in Ed. split; [discriminate|]. intros [H _]. lra.
    - apply Qlt_bool_false_iff in Ed.
      destruct (Qlt_bool speed 1.5) eqn:Es.
      + apply Qlt_bool_iff in Es. split; [discriminate|]. intros [_ H]. lra.
      + apply Qlt_bool_false_iff in Es. tauto. }
  unfold cutQuality.
  destruct (cutDirection note); first [apply G | congruence].
Qed.

(** The same gate on the components of the hand velocity: the
    required directions are the unit vectors of the x and y axes, and a
    velocity of speed 1.5 or more is normalized by dividing it by its
    length. *)
Lemma cutQuality_components (note : NoteData) (handVel : THREE.Vector3) :
  cutDirection note <> ANY ->
  let speed := THREE.length sqrt handVel in
  let along :=
    match cutDirection note with
    | UP => THREE.y handVel
    | DOWN => - THREE.y handVel
    | LEFT => - THREE.x handVel
    | RIGHT => THREE.x handVel
    | ANY => 0
    end in
  (cutQuality sqrt note handVel = true <->
   0.3 * speed <= along /\ 1.5 <= speed).
Proof.
  intros Hdir speed along.
  rewrite (cutQuality_directional note handVel Hdir). fold speed.
  assert (G : 1.5 <= speed ->
            THREE.dot (THREE.normalize sqrt handVel)
              (DIRECTION_VECTORS (cutDirection note)) == along / speed).
  { intros Hs. unfold THREE.normalize. fold speed.
    destruct (Qeq_bool speed 0) eqn:E.
    { apply Qeq_bool_iff in E. rewrite E in Hs. lra. }
    assert (Hne : ~ speed == 0) by (intros E0; rewrite E0 in Hs; lra).
    subst along.
    destruct (cutDirection note); [| | | |congruence];
      unfold THREE.dot, THREE.divideScalar, THREE.multiplyScalar;
      cbn [THREE.x THREE.y THREE.z DIRECTION_VECTORS];
      field; exact Hne. }
  split; intros [Ha Hs]; (split; [|exact Hs]).
  - rewrite (G Hs) in Ha.
    apply (Qmult_le_compat_r _ _ speed) in Ha; [|lra].
    assert (E : along / speed * speed == along) by (field; lra).
    rewrite E in Ha. exact Ha.
  - rewrite (G Hs). apply Qle_shift_div_l; [lra | exact Ha].
Qed.

(** In a playing frame, the callbacks about an active note are the ones
    its verdict asks for, and the note becomes what the verdict says. *)
Lemma useFrame_active_note (audio : Audio) (hands : HandPositions.t)
    (st : SceneRefs) (ref : nat) (note : NoteData) :
  SceneInv st -> ended audio = false ->
  let now := currentTime audio in
  ref ∈ activeNotesRef (spawnNotes now st) ->
  notesState st !! ref = Some note ->
  let r := useFrame sqrt PLAYING audio hands st in
  (forall e, e ∈ snd r /\ event_ref e = Some ref <->
             e ∈ callbacks sqrt now hands (notesState st) ref) /\
  notesState (fst r) !! ref = Some (judged sqrt now hands note) /\
  (ref ∈ activeNotesRef (fst r) <-> verdict sqrt now hands note = Keep).
Proof.
  intros Hinv Hended now Href Hnote r.
  destruct (useFrame_playing sqrt audio hands st Hinv Hended)
    as (Hact & _ & _ & Hnotes & Hev).
  fold now r in Hact, Hnotes, Hev.
  assert (Hcb : forall r0 e, e ∈ callbacks sqrt now hands (notesState st) r0 ->
                  event_ref e = Some r0).
  { intros r0 e He. apply callbacks_elem in He
      as (n & _ & [[_ ->] | (g & _ & ->)]); reflexivity. }
  split; [|split].
  - intros e. rewrite Hev, elem_of_flat_map. split.
    + intros [(r0 & Hr0 & He) Hr]. rewrite (Hcb r0 e He) in Hr.
      injection Hr as ->. exact He.
    + intros He. split; [|exact (Hcb ref e He)].
      exists ref. split; [|exact He]. rewrite elem_of_reverse. exact Href.
  - rewrite (Hnotes ref note Hnote), bool_decide_eq_true_2 by exact Href.
    reflexivity.
  - rewrite Hact, list_elem_of_filter. unfold kept. rewrite Hnote.
    destruct (verdict sqrt now hands note); split;
      first [tauto | congruence | intros [? _]; congruence].
Qed.
End SessionFacts.

Section SceneTheorems.
Local Open Scope Q_scope.

(** C4.  Over any run of frames of a session, every note object takes at
    most one step, from pending to hit or from pending to missed, and a
    resolved note is never changed again; no note ends up both hit and
    missed; no note gets more than one callback, and a callback tells
    the flag its note carries from then on; and the active list only
    holds distinct pending notes, so a resolved note has left it and is
    not looked at again. *)
Theorem each_target_resolves_at_most_once (sqrt : Q -> Q)
    (frames : list FrameInput) (st : SceneRefs) :
  SceneInv st ->
  let st' := fst (runFrames sqrt frames st) in
  let events := concat (snd (runFrames sqrt frames st)) in
  (forall ref n, notesState st !! ref = Some n ->
     exists n', notesState st' !! ref = Some n' /\ note_step n n' /\
                (resolved n -> n' = n)) /\
  (forall ref n', notesState st' !! ref = Some n' ->
     ~ (hit n' = true /\ missed n' = true)) /\
  NoDup (omap event_ref events) /\
  (forall ref goodCut, NoteHit ref goodCut ∈ events ->
     exists n', notesState st' !! ref = Some n' /\
                hit n' = true /\ missed n' = false) /\
  (forall ref, NoteMiss ref ∈ events ->
     exists n', notesState st' !! ref = Some n' /\
                missed n' = true /\ hit n' = false) /\
  NoDup (activeNotesRef st') /\
  (forall ref, ref ∈ activeNotesRef st' ->
     exists n', notesState st' !! ref = Some n' /\ pending n').
Proof.
  intros Hinv st' events.
  destruct (runFrames_trace sqrt frames st Hinv)
    as [Hinv' (Hlen & Hstep & Hnd & Hhit & Hmiss)].
  fold st' in Hinv', Hlen, Hstep, Hhit, Hmiss. fold events in Hnd, Hhit, Hmiss.
  split; [|split; [|split; [exact Hnd|split; [|split; [|split]]]]].
  - intros ref n Hn. destruct (Hstep ref n Hn) as (n' & Hn' & Hs).
    exists n'. split; [exact Hn'|]. split; [exact Hs|].
    apply note_step_resolved, Hs.
  - apply (inv_excl _ Hinv').
  - intros ref g He. destruct (Hhit ref g He) as (n & t & _ & [_ Hm] & Hn').
    exists (set_hit t n). split; [exact Hn'|]. split; [reflexivity | exact Hm].
  - intros ref He. destruct (Hmiss ref He) as (n & _ & [Hh _] & Hn').
    exists (set_missed n). split; [exact Hn'|].
    split; [reflexivity | exact Hh].
  - apply (inv_nodup _ Hinv').
  - intros ref Href. apply (inv_active _ Hinv' ref Href).
Qed.

Lemma each_target_resolves_at_most_once_witness :
  NoDup (omap event_ref
           (concat (snd (runFrames sqrtQ scenarioFrames
                           (startSession [scenarioNote]))))).
Proof.
  apply (each_target_resolves_at_most_once sqrtQ scenarioFrames
           (startSession [scenarioNote]) (startSession_inv [scenarioNote])).
Defined.

(** C5.  In a playing frame, an active note that asks for a direction
    and is hit by distance gets exactly one callback, a hit, and is
    never reported missed.  The cut is good exactly when the dot product
    of the normalized hand velocity with the required direction is at
    least 0.3 and the hand speed is at least 1.5, and weak otherwise.
    On the components: the velocity along the required direction (y for
    up, -y for down, -x for left, x for right) is at least 0.3 times the
    speed, and the speed is at least 1.5. *)
Theorem directional_hit_quality (sqrt : Q -> Q) (audio : Audio)
    (hands : HandPositions.t) (st : SceneRefs) (ref : nat) (note : NoteData) :
  SceneInv st -> ended audio = false ->
  let now := currentTime audio in
  ref ∈ activeNotesRef (spawnNotes now st) ->
  notesState st !! ref = Some note ->
  distanceHit sqrt now hands note ->
  cutDirection note <> ANY ->
  let r := useFrame sqrt PLAYING audio hands st in
  let handVel := handVelOf (type note) hands in
  let speed := THREE.length sqrt handVel in
  let along :=
    match cutDirection note with
    | UP => THREE.y handVel
    | DOWN => - THREE.y handVel
    | LEFT => - THREE.x handVel
    | RIGHT => THREE.x handVel
    | ANY => 0
    end in
  let good := 0.3 * speed <= along /\ 1.5 <= speed in
  (good <->
   0.3 <= THREE.dot (THREE.normalize sqrt handVel)
            (DIRECTION_VECTORS (cutDirection note)) /\
   1.5 <= speed) /\
  (good -> NoteHit ref true ∈ snd r) /\
  (~ good -> NoteHit ref false ∈ snd r) /\
  (forall e, e ∈ snd r -> event_ref e = Some ref ->
     (e = NoteHit ref true /\ good) \/ (e = NoteHit ref false /\ ~ good)) /\
  notesState (fst r) !! ref = Some (set_hit now note).
Proof.
  intros Hinv Hended now Href Hnote Hhit Hdir r handVel speed along good.
  destruct (useFrame_active_note sqrt audio hands st ref note
              Hinv Hended Href Hnote) as (Hev & Hnote' & _).
  fold now r in Hev, Hnote'.
  pose proof (verdict_hit sqrt now hands note Hhit) as Hv. fold handVel in Hv.
  pose proof (cutQuality_components sqrt note handVel Hdir) as Hq.
  cbv zeta in Hq. fold speed along good in Hq.
  assert (Hcb : callbacks sqrt now hands (notesState st) ref =
                [NoteHit ref (cutQuality sqrt note handVel)])
    by (unfold callbacks; rewrite Hnote, Hv; reflexivity).
  split; [|split; [|split; [|split]]].
  - rewrite <- Hq. apply cutQuality_directional, Hdir.
  - intros Hg. apply Hq in Hg. apply Hev. rewrite Hcb, Hg.
    apply list_elem_of_here.
  - intros Hg. apply Hev. rewrite Hcb.
    destruct (cutQuality sqrt note handVel);
      [destruct Hg; apply Hq; reflexivity | apply list_elem_of_here].
  - intros e He Hr.
    assert (Hin : e ∈ [NoteHit ref (cutQuality sqrt note handVel)])
      by (rewrite <- Hcb; apply Hev; split; assumption).
    apply list_elem_of_singleton in Hin. subst e.
    destruct (cutQuality sqrt note handVel).
    + left. split; [reflexivity | apply Hq; reflexivity].
    + right. split; [reflexivity|]. intros Hg. apply Hq in Hg. discriminate.
  - rewrite Hnote'. unfold judged. rewrite Hv. reflexivity.
Qed.

(** C6.  In a playing frame, an active note whose depth
    [PLAYER_Z - (time - now) * NOTE_SPEED] is beyond [MISS_Z] gets
    exactly one callback, a miss, is marked missed and leaves the active
    list, whatever the positions and velocities of the hands. *)
Theorem late_target_is_missed (sqrt : Q -> Q) (audio : Audio)
    (hands : HandPositions.t) (st : SceneRefs) (ref : nat) (note : NoteData) :
  SceneInv st -> ended audio = false ->
  let now := currentTime audio in
  ref ∈ activeNotesRef (spawnNotes now st) ->
  notesState st !! ref = Some note ->
  MISS_Z < PLAYER_Z - (time note - now) * NOTE_SPEED ->
  let r := useFrame sqrt PLAYING audio hands st in
  NoteMiss ref ∈ snd r /\
  (forall e, e ∈ snd r -> event_ref e = Some ref -> e = NoteMiss ref) /\
  notesState (fst r) !! ref = Some (set_missed note) /\
  ref ∉ activeNotesRef (fst r).
Proof.
  intros Hinv Hended now Href Hnote Hlate r.
  destruct (useFrame_active_note sqrt audio hands st ref note
              Hinv Hended Href Hnote) as (Hev & Hnote' & Hact).
  fold now r in Hev, Hnote', Hact.
  pose proof (verdict_miss sqrt now hands note Hlate) as Hv.
  assert (Hcb : callbacks sqrt now hands (notesState st) ref = [NoteMiss ref])
    by (unfold callbacks; rewrite Hnote, Hv; reflexivity).
  split; [|split; [|split]].
  - apply Hev. rewrite Hcb. apply list_elem_of_here.
  - intros e He Hr. apply list_elem_of_singleton.
    rewrite <- Hcb. apply Hev. split; assumption.
  - rewrite Hnote'. unfold judged. rewrite Hv. reflexivity.
  - intros Hin. apply Hact in Hin. congruence.
Qed.
End SceneTheorems.

(** ** The theorems at concrete inputs *)

Section Witnesses.
Local Open Scope Q_scope.

Lemma twoNotes_sorted : chart_sorted (notesState (startSession twoNotes)).
Proof.
  intros i j ni nj Hle Hi Hj.
  destruct i as [|[|i]], j as [|[|j]]; cbn in Hi, Hj;
    try discriminate; try lia;
    injection Hi as <-; injection Hj as <-; vm_compute; discriminate.
Qed.


(** Cuts through a note at its slot: straight along the required
    direction at speed 2, against it, across it, too slowly, and at a
    slant whose share along the direction is 1/3 or 1/9. *)
Lemma directional_hit_quality_witness :
  NoteHit 0 true ∈ cutFrame UP 0 2 0 /\
  NoteHit 0 false ∈ cutFrame UP 0 (-2) 0 /\
  NoteHit 0 false ∈ cutFrame UP 2 0 0 /\
  NoteHit 0 false ∈ cutFrame UP 0 1 0 /\
  NoteHit 0 true ∈ cutFrame UP 2 1 2 /\
  NoteHit 0 false ∈ cutFrame UP 4 1 8 /\
  NoteHit 0 true ∈ cutFrame DOWN 0 (-2) 0 /\
  NoteHit 0 false ∈ cutFrame DOWN 0 2 0 /\
  NoteHit 0 true ∈ cutFrame LEFT (-2) 0 0 /\
  NoteHit 0 false ∈ cutFrame LEFT 2 0 0 /\
  NoteHit 0 true ∈ cutFrame RIGHT 2 0 0 /\
  NoteHit 0 false ∈ cutFrame RIGHT (-2) 0 0.
Proof.
  assert (H : forall d vx vy vz, d <> ANY ->
            let handVel := {| THREE.x := vx; THREE.y := vy; THREE.z := vz |} in
            let speed := THREE.length sqrtQ handVel in
            let along :=
              match d with
              | UP => vy | DOWN => - vy | LEFT => - vx | RIGHT => vx
              | ANY => 0
              end in
            let good := 0.3 * speed <= along /\ 1.5 <= speed in
            (good -> NoteHit 0 true ∈ cutFrame d vx vy vz) /\
            (~ good -> NoteHit 0 false ∈ cutFrame d vx vy vz)).
  { intros d vx vy vz Hd.
    pose proof (directional_hit_quality sqrtQ scenarioAudio
                  (leftHandMoving vx vy vz) (startSession [noteAsking d])
                  0 (noteAsking d) (startSession_inv _) eq_refl) as H.
    cbv zeta in H.
    destruct H as (_ & Hgood & Hweak & _).
    - vm_compute. constructor.
    - reflexivity.
    - split; [vm_compute; discriminate|].
      split; [vm_compute; reflexivity|].
      split; [vm_compute; reflexivity|].
      do 2 eexists. split; [reflexivity|]. split; [reflexivity|].
      vm_compute. reflexivity.
    - exact Hd.
    - split; [exact Hgood | exact Hweak]. }
  repeat match goal with
  | |- _ /\ _ => split
  | |- NoteHit 0 true ∈ cutFrame ?d ?vx ?vy ?vz =>
      apply (proj1 (H d vx vy vz ltac:(discriminate)));
      split; vm_compute; discriminate
  | |- NoteHit 0 false ∈ cutFrame ?d ?vx ?vy ?vz =>
      apply (proj2 (H d vx vy vz ltac:(discriminate)));
      intros [Ha Hs];
      first [ vm_compute in Ha; apply Ha; reflexivity
            | vm_compute in Hs; apply Hs; reflexivity ]
  end.
Defined.

Lemma late_target_is_missed_witness :
  NoteMiss 0
    ∈ snd (useFrame sqrtQ PLAYING lateAudio scenarioHands
             (startSession [scenarioNote])) /\
  (forall e,
     e ∈ snd (useFrame sqrtQ PLAYING lateAudio scenarioHands
                (startSession [scenarioNote])) ->
     event_ref e = Some 0%nat -> e = NoteMiss 0) /\
  notesState (fst (useFrame sqrtQ PLAYING lateAudio scenarioHands
                     (startSession [scenarioNote]))) !! 0%nat =
    Some (set_missed scenarioNote) /\
  0%nat ∉ activeNotesRef (fst (useFrame sqrtQ PLAYING lateAudio scenarioHands
                                 (startSession [scenarioNote]))).
Proof.
  apply (late_target_is_missed sqrtQ lateAudio scenarioHands
           (startSession [scenarioNote]) 0 scenarioNote).
  - apply startSession_inv.
  - reflexivity.
  - vm_compute. constructor.
  - reflexivity.
  - vm_compute. reflexivity.
Defined.
End Witnesses.

(** * Further properties of the code *)

(** ** Score, combo and health over a run *)

Section ScoreRuns.
Local Open Scope Z_scope.

Lemma multiplierFor_range (c : Z) : 1 <= multiplierFor c <= 8.
Proof. pose proof (multiplierFor_cases c). lia. Qed.

Lemma applyEvent_multiplier_range (m : Z) (s : ScoreState) (e : SceneEvent) :
  1 <= multiplier s <= 8 -> 1 <= multiplier (applyEvent m s e) <= 8.
Proof.
  intros Hs. destruct e as [ref g | ref |]; cbn [applyEvent].
  - apply multiplierFor_range.
  - destruct (handleNoteMiss_fields s) as (_ & _ & Hm & _). lia.
  - exact Hs.
Qed.

Lemma countHits_cons (e : SceneEvent) (events : list SceneEvent) :
  countHits (e :: events) = (if isHit e then 1 else 0) + countHits events.
Proof. unfold countHits. cbn. destruct (isHit e); cbn [length]; lia. Qed.

Lemma countMisses_cons (e : SceneEvent) (events : list SceneEvent) :
  countMisses (e :: events) = (if isMiss e then 1 else 0) + countMisses events.
Proof. unfold countMisses. cbn. destruct (isMiss e); cbn [length]; lia. Qed.

Lemma countHits_app (l k : list SceneEvent) :
  countHits (l ++ k) = countHits l + countHits k.
Proof.
  unfold countHits. rewrite List.filter_app, length_app. lia.
Qed.

Lemma countMisses_app (l k : list SceneEvent) :
  countMisses (l ++ k) = countMisses l + countMisses k.
Proof.
  unfold countMisses. rewrite List.filter_app, length_app. lia.
Qed.

Lemma countHits_nonneg (l : list SceneEvent) : 0 <= countHits l.
Proof. unfold countHits. lia. Qed.

(** The callbacks of one frame, run with a captured multiplier between
    1 and 8. *)
Lemma fold_applyEvent_bounds (m : Z) (events : list SceneEvent)
    (s : ScoreState) :
  1 <= m <= 8 -> 1 <= multiplier s <= 8 -> health s <= 100 ->
  let s' := fold_left (applyEvent m) events s in
  1 <= multiplier s' <= 8 /\ health s' <= 100 /\
  score s + 100 * countHits events <= score s' /\
  score s' <= score s + 1200 * countHits events /\
  Z.min (health s) 100 - 15 * countMisses events <= health s'.
Proof.
  intros Hm. revert s. induction events as [|e events IH]; intros s Hs Hh.
  - cbn. unfold countHits, countMisses. cbn. lia.
  - cbn [fold_left].
    pose proof (applyEvent_multiplier_range m s e Hs) as Hs1.
    assert (Hh1 : health (applyEvent m s e) <= 100).
    { destruct e as [ref g | ref |]; cbn [applyEvent].
      - cbn. lia.
      - destruct (handleNoteMiss_fields s) as (_ & _ & _ & H). lia.
      - exact Hh. }
    specialize (IH (applyEvent m s e) Hs1 Hh1). cbv zeta in IH |- *.
    destruct IH as (IH1 & IH2 & IH3 & IH4 & IH5).
    rewrite countHits_cons, countMisses_cons.
    split; [exact IH1|]. split; [exact IH2|].
    destruct e as [ref g | ref |]; cbn [applyEvent isHit isMiss] in *.
    + destruct g; cbn [handleNoteHit score health] in *; nia.
    + destruct (handleNoteMiss_fields s) as (Hsc & _ & _ & Hhe). lia.
    + lia.
Qed.

Lemma multiplier_calls_range (m : Z) (events : list SceneEvent)
    (s : ScoreState) :
  Forall (fun x => 1 <= x <= 8)
    (queuedMultipliers m s events ++ updaterMultipliers m s events).
Proof.
  apply Forall_app. revert s.
  induction events as [|e events IH]; intros s; [split; constructor|].
  destruct (IH (applyEvent m s e)) as [IHq IHu].
  destruct e as [ref g | ref |];
    cbn [queuedMultipliers updaterMultipliers]; split;
    first [assumption | constructor; [|assumption]].
  - apply multiplierFor_range.
  - destruct (handleNoteMiss_fields s) as (_ & _ & Hm & _).
    cbn [applyEvent]. lia.
Qed.

Lemma applyFrame_multiplier_range (s : ScoreState) (events : list SceneEvent) :
  1 <= multiplier s <= 8 -> 1 <= multiplier (applyFrame s events) <= 8.
Proof.
  intros Hs. rewrite applyFrame_multiplier.
  pose proof (multiplier_calls_range (multiplier s) events s) as Hall.
  destruct (last _) as [x|] eqn:Hlast; [|exact Hs].
  apply last_Some in Hlast as [l' Hl]. rewrite Hl in Hall.
  apply Forall_app in Hall as [_ Hx]. inversion Hx; subst. assumption.
Qed.

Lemma applyFrames_bounds (frames : list (list SceneEvent)) (s : ScoreState) :
  1 <= multiplier s <= 8 -> health s <= 100 ->
  let s' := applyFrames s frames in
  1 <= multiplier s' <= 8 /\ health s' <= 100 /\
  score s + 100 * countHits (concat frames) <= score s' /\
  score s' <= score s + 1200 * countHits (concat frames) /\
  Z.min (health s) 100 - 15 * countMisses (concat frames) <= health s'.
Proof.
  revert s. induction frames as [|f frames IH]; intros s Hs Hh.
  - cbn. unfold countHits, countMisses. cbn. lia.
  - cbn [applyFrames fold_left concat].
    destruct (fold_applyEvent_bounds (multiplier s) f s Hs Hs Hh)
      as (_ & F2 & F3 & F4 & F5).
    rewrite <- applyFrame_health in F2, F5.
    rewrite <- applyFrame_score in F3, F4.
    pose proof (applyFrame_multiplier_range s f Hs) as F1.
    specialize (IH (applyFrame s f) F1 F2). cbv zeta in IH.
    fold (applyFrames (applyFrame s f) frames).
    destruct IH as (IH1 & IH2 & IH3 & IH4 & IH5).
    rewrite countHits_app, countMisses_app. cbv zeta.
    repeat split; lia.
Qed.

Lemma applyFrames_app (s : ScoreState) (l k : list (list SceneEvent)) :
  applyFrames s (l ++ k) = applyFrames (applyFrames s l) k.
Proof. unfold applyFrames. apply fold_left_app. Qed.

(** The combo after a list of callbacks, from the combo before. *)
Lemma combo_fold (m : Z) (events : list SceneEvent) (s : ScoreState) :
  combo (fold_left (applyEvent m) events s) =
  if existsb isMiss events then countHits (sinceLastMiss events)
  else combo s + countHits events.
Proof.
  revert s. induction events as [|e events IH]; intros s.
  - cbn. unfold countHits. cbn. lia.
  - cbn [fold_left existsb sinceLastMiss]. rewrite IH.
    destruct (existsb isMiss events) eqn:Hex.
    + rewrite orb_true_r. reflexivity.
    + rewrite orb_false_r, countHits_cons.
      destruct e as [ref g | ref |]; cbn [isMiss isHit applyEvent].
      * cbn. lia.
      * destruct (handleNoteMiss_fields s) as (_ & Hc & _). lia.
      * lia.
Qed.

Lemma sinceLastMiss_app (l k : list SceneEvent) :
  sinceLastMiss (l ++ k) =
  if existsb isMiss k then sinceLastMiss k else sinceLastMiss l ++ k.
Proof.
  induction l as [|e l IH].
  - cbn. destruct (existsb isMiss k) eqn:Hk; [reflexivity|].
    induction k as [|e k IHk]; [reflexivity|].
    cbn in Hk |- *. apply orb_false_elim in Hk as [He Hk].
    rewrite Hk, He. reflexivity.
  - cbn [app sinceLastMiss]. rewrite existsb_app, IH.
    destruct (existsb isMiss k); [rewrite orb_true_r; reflexivity|].
    rewrite orb_false_r.
    destruct (existsb isMiss l); [reflexivity|].
    destruct (isMiss e); reflexivity.
Qed.

Lemma combo_applyFrames (frames : list (list SceneEvent)) (s : ScoreState) :
  combo (applyFrames s frames) =
  if existsb isMiss (concat frames)
  then countHits (sinceLastMiss (concat frames))
  else combo s + countHits (concat frames).
Proof.
  revert s. induction frames as [|f frames IH]; intros s.
  - cbn. unfold countHits. cbn. lia.
  - cbn [applyFrames fold_left concat].
    fold (applyFrames (applyFrame s f) frames). rewrite IH.
    rewrite existsb_app, sinceLastMiss_app, countHits_app.
    rewrite applyFrame_combo, combo_fold.
    destruct (existsb isMiss (concat frames));
      [rewrite orb_true_r; reflexivity|].
    rewrite orb_false_r.
    destruct (existsb isMiss f); [rewrite countHits_app|]; lia.
Qed.

(** X1.  Over any run of callbacks from the initial state the combo is
    the number of hits since the last miss (of all hits if there was no
    miss). *)
Theorem combo_counts_hits_since_last_miss (frames : list (list SceneEvent)) :
  combo (applyFrames initialState frames) =
  countHits (sinceLastMiss (concat frames)).
Proof.
  rewrite combo_applyFrames.
  destruct (existsb isMiss (concat frames)) eqn:Hex; [reflexivity|].
  cbn [combo initialState]. f_equal.
  rewrite <- (app_nil_l (concat frames)) at 2.
  rewrite sinceLastMiss_app, Hex. reflexivity.
Qed.

(** X2.  Over any run of callbacks from the initial state the score is a
    multiple of 50, lies between 100 and 1200 times the number of hits,
    and never goes down when the run goes on. *)
Theorem score_grows_with_hits (frames more : list (list SceneEvent)) :
  let s := applyFrames initialState frames in
  (50 | score s) /\
  100 * countHits (concat frames) <= score s <=
    1200 * countHits (concat frames) /\
  score s <= score (applyFrames initialState (frames ++ more)).
Proof.
  intros s.
  destruct (applyFrames_bounds frames initialState)
    as (Hm & Hh & Hlo & Hhi & _); [cbn; lia | cbn; lia|].
  fold s in Hm, Hh, Hlo, Hhi. cbn [score initialState] in Hlo, Hhi.
  split; [|split; [lia|]].
  - apply (applyFrames_invariant (fun s => (50 | score s))).
    + intros m s0 e [k Hk].
      destruct e as [ref g | ref |]; cbn [applyEvent].
      * destruct g; cbn [handleNoteHit score]; rewrite Hk.
        -- exists (k + 3 * m). lia.
        -- exists (k + 2 * m). lia.
      * destruct (handleNoteMiss_fields s0) as (Hsc & _).
        rewrite Hsc. exists k. exact Hk.
      * exists k. exact Hk.
    + intros s0 s' Hsc _ _. rewrite Hsc. tauto.
    + exists 0. reflexivity.
  - rewrite applyFrames_app. fold s.
    destruct (applyFrames_bounds more s Hm Hh) as (_ & _ & Hlo' & _).
    pose proof (countHits_nonneg (concat more)). lia.
Qed.

(** X3.  A miss ends the game exactly when it finds the health at 15 or
    less, which is exactly when it leaves the health at 0; from the
    initial state the health is at least 100 minus 15 per miss, so the
    miss that ends the game is at least the seventh, however many hits
    there were. *)
Theorem defeat_needs_seven_misses :
  (forall s, snd (handleNoteMiss s) = true <-> health s <= 15) /\
  (forall s, snd (handleNoteMiss s) = true <->
             health (fst (handleNoteMiss s)) = 0) /\
  (forall frames,
     100 - 15 * countMisses (concat frames) <=
     health (applyFrames initialState frames)) /\
  (forall frames,
     snd (handleNoteMiss (applyFrames initialState frames)) = true ->
     6 <= countMisses (concat frames)).
Proof.
  assert (H1 : forall s, snd (handleNoteMiss s) = true <-> health s <= 15).
  { intros s. unfold handleNoteMiss.
    destruct (Z.leb_spec (health s - 15) 0); cbn; split;
      first [lia | congruence | reflexivity]. }
  assert (H3 : forall frames,
     100 - 15 * countMisses (concat frames) <=
     health (applyFrames initialState frames)).
  { intros frames.
    destruct (applyFrames_bounds frames initialState)
      as (_ & _ & _ & _ & Hh); [cbn; lia | cbn; lia|].
    cbn [health initialState] in Hh. lia. }
  split; [exact H1|]. split; [|split; [exact H3|]].
  - intros s. unfold handleNoteMiss.
    destruct (Z.leb_spec (health s - 15) 0); cbn; split;
      first [lia | congruence | reflexivity].
  - intros frames Hd. apply H1 in Hd. specialize (H3 frames). lia.
Qed.

Lemma defeat_needs_seven_misses_witness :
  6 <= countMisses (concat (repeat [NoteMiss 0] 6)).
Proof.
  apply (proj2 (proj2 (proj2 defeat_needs_seven_misses))
           (repeat [NoteMiss 0] 6)).
  reflexivity.
Defined.
End ScoreRuns.

(** ** The conditioner: which detection counts, reach, measured speed *)

Section ConditionerRuns.
Local Open Scope Q_scope.

Lemma HandType_eqb_eq (a b : HandType) : HandType_eqb a b = true <-> a = b.
Proof. destruct a, b; cbn; split; congruence. Qed.

Lemma collectHands_snoc (results : list Detection) (d : Detection) :
  collectHands (results ++ [d]) =
  let '(newLeft, newRight) := collectHands results in
  let worldPos := mapHandToWorld (tip_x d) (tip_y d) in
  if String.eqb (categoryName d) "Right" then (newLeft, Some worldPos)
  else (Some worldPos, newRight).
Proof.
  unfold collectHands. rewrite fold_left_app. cbn [fold_left].
  destruct (fold_left _ results (None, None)) as [newLeft newRight].
  reflexivity.
Qed.

Lemma detected_last (h : HandType) (results : list Detection) :
  detected h results =
  (fun d => mapHandToWorld (tip_x d) (tip_y d))
    <$> last (List.filter (fun d => HandType_eqb (sideOf d) h) results).
Proof.
  induction results as [|d results IH] using rev_ind; [destruct h; reflexivity|].
  rewrite List.filter_app. cbn [List.filter].
  unfold detected in *. rewrite collectHands_snoc.
  destruct (collectHands results) as [newLeft newRight].
  unfold sideOf. cbn [fst snd] in IH.
  destruct (String.eqb (categoryName d) "Right"), h; cbn [HandType_eqb fst snd];
    rewrite ?app_nil_r, ?last_snoc; first [exact IH | reflexivity].
Qed.

Lemma detected_from_results (h : HandType) (results : list Detection)
    (p : THREE.Vector3) :
  detected h results = Some p ->
  exists d, d ∈ results /\ sideOf d = h /\
            p = mapHandToWorld (tip_x d) (tip_y d).
Proof.
  rewrite detected_last.
  destruct (last (List.filter _ results)) as [d|] eqn:Hlast; [|discriminate].
  intros [= <-]. exists d.
  apply last_Some in Hlast as [l' Hl'].
  assert (Hin : In d (List.filter
                        (fun d => HandType_eqb (sideOf d) h) results))
    by (rewrite Hl'; apply in_or_app; right; left; reflexivity).
  apply filter_In in Hin as [Hin Hside].
  split; [apply list_elem_of_In, Hin|].
  split; [apply HandType_eqb_eq, Hside | reflexivity].
Qed.

Lemma mapHandToWorld_in_reach (x y : Q) :
  0 <= x <= 1 -> 0 <= y <= 1 -> in_reach (mapHandToWorld x y).
Proof.
  intros Hx Hy. unfold in_reach, mapHandToWorld.
  cbn [THREE.x THREE.y THREE.z].
  set (worldY := (1.0 - y) * 3.5 - 3.5 / 2 + 0.8).
  assert (E : worldY == 3.5 * (1 - y) - 0.95) by (unfold worldY; field).
  assert (HwY : -0.95 <= worldY <= 2.55) by (rewrite E; lra).
  split; [lra|]. split.
  - split; [apply Q.le_max_l|]. apply Q.max_lub; lra.
  - pose proof (Q.le_max_l 0 (worldY * 0.2)).
    assert (Qmax 0 (worldY * 0.2) <= 0.51) by (apply Q.max_lub; lra).
    lra.
Qed.

Lemma lerpVectors_in_reach (p q : THREE.Vector3) :
  in_reach p -> in_reach q -> in_reach (THREE.lerpVectors p q LERP).
Proof.
  unfold in_reach, THREE.lerpVectors, LERP.
  cbn [THREE.x THREE.y THREE.z].
  intros (Hpx & Hpy & Hpz) (Hqx & Hqy & Hqz). repeat split; lra.
Qed.

Lemma runCycles_in_reach (cycles : list (Q * list Detection))
    (s : HandPositions.t) :
  Forall (fun c => Forall normalized (snd c)) cycles ->
  (forall h p, handPosOf h s = Some p -> in_reach p) ->
  forall h p, handPosOf h (runCycles cycles s) = Some p -> in_reach p.
Proof.
  revert s. induction cycles as [|c cycles IH]; intros s Hn Hs; cbn;
    [exact Hs|].
  fold (runCycles cycles (processResults (fst c) (snd c) s)).
  apply Forall_cons in Hn as [Hc Hn].
  apply IH; [exact Hn|]. intros h p Hp.
  pose proof (processResults_hand (fst c) (snd c) s h) as Hu. cbv zeta in Hu.
  destruct (detected h (snd c)) as [raw|] eqn:Hraw.
  - destruct (detected_from_results _ _ _ Hraw) as (d & Hd & _ & ->).
    rewrite Forall_forall in Hc. destruct (Hc d Hd) as [Hdx Hdy].
    pose proof (mapHandToWorld_in_reach _ _ Hdx Hdy) as Hreach.
    destruct (handPosOf h s) as [prev|] eqn:Hprev;
      destruct Hu as [Hpos _]; rewrite Hpos in Hp; injection Hp as <-.
    + apply lerpVectors_in_reach; [eapply Hs, Hprev | exact Hreach].
    + exact Hreach.
  - destruct Hu as [Hpos _]. congruence.
Qed.

(** X4.  In a detector cycle the raw position of a hand is the
    projection of the last detection of its side; a detection counts as
    a right hand only when its category name is "Right" and as a left
    hand otherwise; with no detection of its side the hand has no raw
    position. *)
Theorem last_detection_of_a_side_wins (h : HandType)
    (results : list Detection) :
  detected h results =
    (fun d => mapHandToWorld (tip_x d) (tip_y d))
      <$> last (List.filter (fun d => HandType_eqb (sideOf d) h) results) /\
  (forall d, sideOf d = h ->
     detected h (results ++ [d]) =
       Some (mapHandToWorld (tip_x d) (tip_y d))) /\
  (forall d, sideOf d <> h ->
     detected h (results ++ [d]) = detected h results) /\
  (forall d, sideOf d = HandRight <-> categoryName d = "Right"%string).
Proof.
  split; [apply detected_last|]. split; [|split].
  - intros d Hd. rewrite detected_last, List.filter_app. cbn [List.filter].
    apply HandType_eqb_eq in Hd. rewrite Hd, last_snoc. reflexivity.
  - intros d Hd. rewrite !detected_last, List.filter_app. cbn [List.filter].
    destruct (HandType_eqb (sideOf d) h) eqn:E.
    + apply HandType_eqb_eq in E. contradiction.
    + rewrite app_nil_r. reflexivity.
  - intros d. unfold sideOf.
    destruct (String.eqb_spec (categoryName d) "Right"); split; congruence.
Qed.

Lemma last_detection_of_a_side_wins_witness :
  detected HandLeft ([leftAt 0.5 0.5] ++ [leftAt 0.1 0.5]) =
  Some (mapHandToWorld (tip_x (leftAt 0.1 0.5)) (tip_y (leftAt 0.1 0.5))).
Proof.
  apply (proj1 (proj2 (last_detection_of_a_side_wins HandLeft
                         [leftAt 0.5 0.5])) (leftAt 0.1 0.5)).
  reflexivity.
Defined.

(** X5.  When every fingertip of every cycle lies inside the camera
    image, every tracked hand position stays inside the box
    -2.5 <= x <= 2.5, 0.1 <= y <= 2.55, -0.51 <= z <= 0, smoothing
    included. *)
Theorem tracked_hands_stay_in_reach (cycles : list (Q * list Detection))
    (h : HandType) (p : THREE.Vector3) :
  Forall (fun c => Forall normalized (snd c)) cycles ->
  handPosOf h (runCycles cycles initialHands) = Some p ->
  in_reach p.
Proof.
  intros Hn Hp.
  apply (runCycles_in_reach cycles initialHands Hn) with (h := h);
    [|exact Hp].
  intros [] q; discriminate.
Qed.

Lemma tracked_hands_stay_in_reach_witness :
  in_reach (mapHandToWorld 0.5 0.5).
Proof.
  apply (tracked_hands_stay_in_reach [(1000, [leftAt 0.5 0.5])] HandLeft).
  - repeat constructor; cbn; lra.
  - reflexivity.
Defined.

(** X6.  When a hand tracked in the previous cycle is detected again
    more than 1 ms later, each cycle closes 60% of the gap between the
    stored and the detected position, and the velocity is 0.6 times the
    raw displacement divided by the time since the previous cycle. *)
Theorem smoothing_scales_the_measured_velocity (now : Q)
    (results : list Detection) (s : HandPositions.t) (h : HandType)
    (prev raw : THREE.Vector3) :
  let deltaTime := (now - HandPositions.lastTimestamp s) / 1000 in
  let s' := processResults now results s in
  handPosOf h s = Some prev -> detected h results = Some raw ->
  0.001 < deltaTime ->
  exists smoothed,
    handPosOf h s' = Some smoothed /\
    THREE.x smoothed - THREE.x prev == 0.6 * (THREE.x raw - THREE.x prev) /\
    THREE.y smoothed - THREE.y prev == 0.6 * (THREE.y raw - THREE.y prev) /\
    THREE.z smoothed - THREE.z prev == 0.6 * (THREE.z raw - THREE.z prev) /\
    THREE.x (handVelOf h s') ==
      0.6 * (THREE.x raw - THREE.x prev) / deltaTime /\
    THREE.y (handVelOf h s') ==
      0.6 * (THREE.y raw - THREE.y prev) / deltaTime /\
    THREE.z (handVelOf h s') ==
      0.6 * (THREE.z raw - THREE.z prev) / deltaTime.
Proof.
  intros deltaTime s' Hprev Hraw Hdt.
  pose proof (processResults_hand now results s h) as Hu. cbv zeta in Hu.
  fold deltaTime s' in Hu. rewrite Hraw, Hprev in Hu.
  destruct Hu as [Hpos Hvel].
  assert (Hb : Qlt_bool 0.001 deltaTime = true) by (apply Qlt_bool_iff, Hdt).
  rewrite Hb in Hvel.
  exists (THREE.lerpVectors prev raw LERP).
  split; [exact Hpos|]. rewrite Hvel.
  assert (Hnz : ~ deltaTime == 0) by lra.
  unfold THREE.divideScalar, THREE.multiplyScalar, THREE.subVectors,
    THREE.lerpVectors, LERP; cbn [THREE.x THREE.y THREE.z].
  repeat split; first [ring | field; exact Hnz].
Qed.

Lemma smoothing_scales_the_measured_velocity_witness :
  exists smoothed,
    handPosOf HandLeft
      (processResults 1100 [leftAt 0.4 0.5]
         (runCycles [(1000, [leftAt 0.5 0.5])] initialHands)) =
      Some smoothed /\
    THREE.x smoothed - THREE.x (mapHandToWorld 0.5 0.5) ==
      0.6 * (THREE.x (mapHandToWorld 0.4 0.5)
             - THREE.x (mapHandToWorld 0.5 0.5)) /\
    THREE.y smoothed - THREE.y (mapHandToWorld 0.5 0.5) ==
      0.6 * (THREE.y (mapHandToWorld 0.4 0.5)
             - THREE.y (mapHandToWorld 0.5 0.5)) /\
    THREE.z smoothed - THREE.z (mapHandToWorld 0.5 0.5) ==
      0.6 * (THREE.z (mapHandToWorld 0.4 0.5)
             - THREE.z (mapHandToWorld 0.5 0.5)) /\
    THREE.x (handVelOf HandLeft
      (processResults 1100 [leftAt 0.4 0.5]
         (runCycles [(1000, [leftAt 0.5 0.5])] initialHands))) ==
      0.6 * (THREE.x (mapHandToWorld 0.4 0.5)
             - THREE.x (mapHandToWorld 0.5 0.5))
        / ((1100 - HandPositions.lastTimestamp
                     (runCycles [(1000, [leftAt 0.5 0.5])] initialHands))
           / 1000) /\
    THREE.y (handVelOf HandLeft
      (processResults 1100 [leftAt 0.4 0.5]
         (runCycles [(1000, [leftAt 0.5 0.5])] initialHands))) ==
      0.6 * (THREE.y (mapHandToWorld 0.4 0.5)
             - THREE.y (mapHandToWorld 0.5 0.5))
        / ((1100 - HandPositions.lastTimestamp
                     (runCycles [(1000, [leftAt 0.5 0.5])] initialHands))
           / 1000) /\
    THREE.z (handVelOf HandLeft
      (processResults 1100 [leftAt 0.4 0.5]
         (runCycles [(1000, [leftAt 0.5 0.5])] initialHands))) ==
      0.6 * (THREE.z (mapHandToWorld 0.4 0.5)
             - THREE.z (mapHandToWorld 0.5 0.5))
        / ((1100 - HandPositions.lastTimestamp
                     (runCycles [(1000, [leftAt 0.5 0.5])] initialHands))
           / 1000).
Proof.
  apply (smoothing_scales_the_measured_velocity 1100 [leftAt 0.4 0.5]
           (runCycles [(1000, [leftAt 0.5 0.5])] initialHands) HandLeft
           (mapHandToWorld 0.5 0.5) (mapHandToWorld 0.4 0.5)).
  - reflexivity.
  - reflexivity.
  - vm_compute. reflexivity.
Defined.
End ConditionerRuns.

(** ** The judge: when a note is hit, missed or kept *)

Section JudgeOutcomes.
Local Open Scope Q_scope.
Variable sqrt : Q -> Q.

Lemma verdict_Miss_inv (now : Q) (hands : HandPositions.t) (note : NoteData) :
  verdict sqrt now hands note = Miss -> MISS_Z < currentZ now note.
Proof.
  unfold verdict.
  destruct (Qlt_bool MISS_Z (currentZ now note)) eqn:E;
    [intros _; apply Qlt_bool_iff, E|].
  destruct (_ && _); [|discriminate].
  destruct (handPosOf (type note) hands); [|discriminate].
  destruct (notePosition now note); [|discriminate].
  destruct (Qlt_bool _ 0.8); discriminate.
Qed.

Lemma verdict_Hit_inv (now : Q) (hands : HandPositions.t) (note : NoteData)
    (g : bool) :
  verdict sqrt now hands note = Hit g ->
  distanceHit sqrt now hands note /\
  g = cutQuality sqrt note (handVelOf (type note) hands).
Proof.
  unfold verdict, distanceHit.
  destruct (Qlt_bool MISS_Z (currentZ now note)) eqn:E; [discriminate|].
  apply Qlt_bool_false_iff in E.
  destruct (Qlt_bool (PLAYER_Z - 1.5) (currentZ now note)) eqn:Elo;
    [|discriminate].
  destruct (Qlt_bool (currentZ now note) (PLAYER_Z + 1.0)) eqn:Ehi;
    [|discriminate].
  cbn [andb].
  destruct (handPosOf (type note) hands) as [handPos|]; [|discriminate].
  destruct (notePosition now note) as [notePos|]; [|discriminate].
  destruct (Qlt_bool (THREE.distanceTo sqrt handPos notePos) 0.8) eqn:Ed;
    [|discriminate].
  intros [= <-]. apply Qlt_bool_iff in Elo, Ehi, Ed.
  split; [|reflexivity].
  split; [apply Qle_not_lt, E|]. split; [exact Elo|]. split; [exact Ehi|].
  exists handPos, notePos. auto.
Qed.

Lemma verdict_Keep_iff (now : Q) (hands : HandPositions.t) (note : NoteData) :
  verdict sqrt now hands note = Keep <->
  ~ MISS_Z < currentZ now note /\ ~ distanceHit sqrt now hands note.
Proof.
  split.
  - intros Hv. split; intros H.
    + rewrite (verdict_miss sqrt now hands note H) in Hv. discriminate.
    + rewrite (verdict_hit sqrt now hands note H) in Hv. discriminate.
  - intros [Hm Hd].
    destruct (verdict sqrt now hands note) as [| |g] eqn:Hv; [reflexivity| |].
    + destruct (Hm (verdict_Miss_inv _ _ _ Hv)).
    + destruct (Hd (proj1 (verdict_Hit_inv _ _ _ _ Hv))).
Qed.

(** The verdict only reads the hand the note asks for. *)
Lemma verdict_required_hand (now : Q) (hands1 hands2 : HandPositions.t)
    (note : NoteData) :
  handPosOf (type note) hands1 = handPosOf (type note) hands2 ->
  handVelOf (type note) hands1 = handVelOf (type note) hands2 ->
  verdict sqrt now hands1 note = verdict sqrt now hands2 note.
Proof. intros Hp Hv. unfold verdict. rewrite Hp, Hv. reflexivity. Qed.

Lemma cutQuality_any (note : NoteData) (handVel : THREE.Vector3) :
  cutDirection note = ANY ->
  (cutQuality sqrt note handVel = true <-> 1.5 <= THREE.length sqrt handVel).
Proof.
  intros Hdir. unfold cutQuality. rewrite Hdir.
  destruct (Qlt_bool (THREE.length sqrt handVel) 1.5) eqn:E.
  - apply Qlt_bool_iff in E. split; [discriminate|]. intros H. lra.
  - apply Qlt_bool_false_iff in E. tauto.
Qed.

(** Where the callbacks of a frame come from. *)
Lemma useFrame_event_inv (gs : GameStatus) (audio : Audio)
    (hands : HandPositions.t) (st : SceneRefs) (e : SceneEvent) (ref : nat) :
  SceneInv st ->
  e ∈ snd (useFrame sqrt gs audio hands st) -> event_ref e = Some ref ->
  gs = PLAYING /\ ended audio = false /\
  ref ∈ activeNotesRef (spawnNotes (currentTime audio) st) /\
  exists note, notesState st !! ref = Some note /\ pending note /\
    ((verdict sqrt (currentTime audio) hands note = Miss /\ e = NoteMiss ref) \/
     (exists g, verdict sqrt (currentTime audio) hands note = Hit g /\
                e = NoteHit ref g)).
Proof.
  intros Hinv He Hr.
  destruct gs; try (cbn in He; inversion He; fail).
  destruct (ended audio) eqn:Hended.
  { unfold useFrame in He. rewrite Hended in He.
    apply list_elem_of_singleton in He. subst e. discriminate. }
  destruct (useFrame_playing sqrt audio hands st Hinv Hended)
    as (_ & _ & _ & _ & Hev).
  rewrite Hev in He. apply elem_of_flat_map in He as (r0 & Hr0 & He).
  rewrite elem_of_reverse in Hr0.
  apply callbacks_elem in He as (n & Hn & Hcases).
  assert (r0 = ref).
  { destruct Hcases as [[_ ->] | (g & _ & ->)]; cbn in Hr; congruence. }
  subst r0.
  pose proof (spawnNotes_inv (currentTime audio) st Hinv) as Hinv0.
  assert (Hnotes0 : notesState (spawnNotes (currentTime audio) st)
                    = notesState st)
    by (apply (spawnLoop_spec _ (currentTime audio) st); reflexivity).
  destruct (inv_active _ Hinv0 ref Hr0) as (_ & n0 & Hn0 & Hp).
  rewrite Hnotes0, Hn in Hn0. injection Hn0 as <-.
  split; [reflexivity|]. split; [reflexivity|]. split; [exact Hr0|].
  exists n. auto.
Qed.

(** X7.  In a playing frame, an active note that accepts any direction
    and is hit by distance gets exactly one callback, a hit, which is
    good exactly when the hand speed is at least 1.5, whatever the
    direction of the movement. *)
Theorem any_direction_hit_quality (audio : Audio)
    (hands : HandPositions.t) (st : SceneRefs) (ref : nat) (note : NoteData) :
  SceneInv st -> ended audio = false ->
  let now := currentTime audio in
  ref ∈ activeNotesRef (spawnNotes now st) ->
  notesState st !! ref = Some note ->
  distanceHit sqrt now hands note ->
  cutDirection note = ANY ->
  let r := useFrame sqrt PLAYING audio hands st in
  exists goodCut,
    (goodCut = true <->
     1.5 <= THREE.length sqrt (handVelOf (type note) hands)) /\
    NoteHit ref goodCut ∈ snd r /\
    (forall e, e ∈ snd r -> event_ref e = Some ref ->
       e = NoteHit ref goodCut) /\
    notesState (fst r) !! ref = Some (set_hit now note).
Proof.
  intros Hinv Hended now Href Hnote Hhit Hdir r.
  destruct (useFrame_active_note sqrt audio hands st ref note
              Hinv Hended Href Hnote) as (Hev & Hnote' & _).
  fold now r in Hev, Hnote'.
  pose proof (verdict_hit sqrt now hands note Hhit) as Hv.
  exists (cutQuality sqrt note (handVelOf (type note) hands)).
  split; [apply cutQuality_any, Hdir|].
  assert (Hcb : callbacks sqrt now hands (notesState st) ref =
                [NoteHit ref (cutQuality sqrt note
                                (handVelOf (type note) hands))])
    by (unfold callbacks; rewrite Hnote, Hv; reflexivity).
  split; [|split].
  - apply Hev. rewrite Hcb. apply list_elem_of_here.
  - intros e He Hr. apply list_elem_of_singleton.
    rewrite <- Hcb. apply Hev. split; assumption.
  - rewrite Hnote'. unfold judged. rewrite Hv. reflexivity.
Qed.

(** X8.  In a playing frame an active note is reported missed exactly
    when its depth is beyond [MISS_Z], reported hit exactly when it is
    not beyond [MISS_Z], lies strictly inside the window (-1.5, 1.0)
    around the player, its required hand is tracked and closer than 0.8
    to its slot, and it stays active, unchanged, exactly when neither
    holds. *)
Theorem outcome_of_an_active_note (audio : Audio)
    (hands : HandPositions.t) (st : SceneRefs) (ref : nat) (note : NoteData) :
  SceneInv st -> ended audio = false ->
  let now := currentTime audio in
  ref ∈ activeNotesRef (spawnNotes now st) ->
  notesState st !! ref = Some note ->
  let r := useFrame sqrt PLAYING audio hands st in
  (NoteMiss ref ∈ snd r <-> MISS_Z < currentZ now note) /\
  ((exists goodCut, NoteHit ref goodCut ∈ snd r) <->
   distanceHit sqrt now hands note) /\
  (ref ∈ activeNotesRef (fst r) <->
   ~ MISS_Z < currentZ now note /\ ~ distanceHit sqrt now hands note) /\
  (ref ∈ activeNotesRef (fst r) -> notesState (fst r) !! ref = Some note).
Proof.
  intros Hinv Hended now Href Hnote r.
  destruct (useFrame_active_note sqrt audio hands st ref note
              Hinv Hended Href Hnote) as (Hev & Hnote' & Hact).
  fold now r in Hev, Hnote', Hact.
  assert (Hcb : forall e, e ∈ callbacks sqrt now hands (notesState st) ref <->
            (verdict sqrt now hands note = Miss /\ e = NoteMiss ref) \/
            (exists g, verdict sqrt now hands note = Hit g /\
                       e = NoteHit ref g)).
  { intros e. rewrite callbacks_elem. split.
    - intros (n & Hn & H). rewrite Hnote in Hn. injection Hn as <-. exact H.
    - intros H. exists note. auto. }
  split; [|split; [|split]].
  - split.
    + intros He. assert (H : NoteMiss ref ∈ snd r /\
                             event_ref (NoteMiss ref) = Some ref) by auto.
      apply Hev, Hcb in H as [[Hv _] | (g & _ & ?)]; [|discriminate].
      apply (verdict_Miss_inv _ _ _ Hv).
    + intros Hz. apply (Hev (NoteMiss ref)), Hcb. left.
      split; [apply verdict_miss, Hz | reflexivity].
  - split.
    + intros [g He]. assert (H : NoteHit ref g ∈ snd r /\
                                 event_ref (NoteHit ref g) = Some ref) by auto.
      apply Hev, Hcb in H as [[_ ?] | (g' & Hv & _)]; [discriminate|].
      apply (verdict_Hit_inv _ _ _ _ Hv).
    + intros Hd. eexists. apply (Hev (NoteHit ref _)), Hcb. right.
      eexists. split; [apply verdict_hit, Hd | reflexivity].
  - rewrite Hact. apply verdict_Keep_iff.
  - intros Hin. apply Hact in Hin. rewrite Hnote'. unfold judged.
    rewrite Hin. reflexivity.
Qed.

(** X9.  No frame reports a hit on a note whose required hand is
    untracked, whose depth is at or outside an end of the window
    (-1.5, 1.0), or whose required hand is at distance 0.8 or more from
    its slot: the bounds are exclusive. *)
Theorem no_hit_outside_the_collision_bounds (gs : GameStatus) (audio : Audio)
    (hands : HandPositions.t) (st : SceneRefs) (ref : nat) (note : NoteData) :
  SceneInv st ->
  notesState st !! ref = Some note ->
  let now := currentTime audio in
  (handPosOf (type note) hands = None \/
   currentZ now note <= PLAYER_Z - 1.5 \/
   PLAYER_Z + 1.0 <= currentZ now note \/
   (forall handPos notePos,
      handPosOf (type note) hands = Some handPos ->
      notePosition now note = Some notePos ->
      0.8 <= THREE.distanceTo sqrt handPos notePos)) ->
  forall goodCut, NoteHit ref goodCut ∉ snd (useFrame sqrt gs audio hands st).
Proof.
  intros Hinv Hnote now Hout g He.
  destruct (useFrame_event_inv gs audio hands st (NoteHit ref g) ref
              Hinv He eq_refl)
    as (_ & _ & _ & n & Hn & _ & [[_ ?] | (g' & Hv & _)]); [discriminate|].
  rewrite Hnote in Hn. injection Hn as <-. fold now in Hv.
  apply verdict_Hit_inv in Hv
    as [(_ & Hlo & Hhi & hp & np & Hhp & Hnp & Hd) _].
  destruct Hout as [Hnone | [Hz | [Hz | Hfar]]].
  - congruence.
  - lra.
  - lra.
  - specialize (Hfar hp np Hhp Hnp). lra.
Qed.

(** X10.  What a frame does to a note does not depend on the hand the
    note does not ask for: two hand states that agree on the position
    and velocity of the required hand give the same callbacks about the
    note and leave it in the same state. *)
Theorem other_hand_is_ignored (audio : Audio)
    (hands1 hands2 : HandPositions.t) (st : SceneRefs) (ref : nat)
    (note : NoteData) :
  SceneInv st -> ended audio = false ->
  ref ∈ activeNotesRef (spawnNotes (currentTime audio) st) ->
  notesState st !! ref = Some note ->
  handPosOf (type note) hands1 = handPosOf (type note) hands2 ->
  handVelOf (type note) hands1 = handVelOf (type note) hands2 ->
  let r1 := useFrame sqrt PLAYING audio hands1 st in
  let r2 := useFrame sqrt PLAYING audio hands2 st in
  (forall e, event_ref e = Some ref -> (e ∈ snd r1 <-> e ∈ snd r2)) /\
  notesState (fst r1) !! ref = notesState (fst r2) !! ref /\
  (ref ∈ activeNotesRef (fst r1) <-> ref ∈ activeNotesRef (fst r2)).
Proof.
  intros Hinv Hended Href Hnote Hp Hv r1 r2.
  destruct (useFrame_active_note sqrt audio hands1 st ref note
              Hinv Hended Href Hnote) as (Hev1 & Hn1 & Ha1).
  destruct (useFrame_active_note sqrt audio hands2 st ref note
              Hinv Hended Href Hnote) as (Hev2 & Hn2 & Ha2).
  fold r1 in Hev1, Hn1, Ha1. fold r2 in Hev2, Hn2, Ha2.
  pose proof (verdict_required_hand (currentTime audio) hands1 hands2 note
                Hp Hv) as Hsame.
  assert (Hcb : callbacks sqrt (currentTime audio) hands1 (notesState st) ref =
                callbacks sqrt (currentTime audio) hands2 (notesState st) ref)
    by (unfold callbacks; rewrite Hnote, Hsame; reflexivity).
  split; [|split].
  - intros e Hr. split; intros He.
    + apply Hev2. rewrite <- Hcb. apply Hev1. auto.
    + apply Hev1. rewrite Hcb. apply Hev2. auto.
  - rewrite Hn1, Hn2. unfold judged. rewrite Hsame. reflexivity.
  - rewrite Ha1, Ha2, Hsame. reflexivity.
Qed.

(** A note a playing frame leaves in the active list is pending, not
    beyond [MISS_Z], and was in the list after the spawn step. *)
Lemma useFrame_kept_note (audio : Audio) (hands : HandPositions.t)
    (st : SceneRefs) (ref : nat) :
  SceneInv st -> ended audio = false ->
  let now := currentTime audio in
  let r := useFrame sqrt PLAYING audio hands st in
  ref ∈ activeNotesRef (fst r) ->
  ref ∈ activeNotesRef (spawnNotes now st) /\
  exists n, notesState (fst r) !! ref = Some n /\ pending n /\
            currentZ now n <= MISS_Z.
Proof.
  intros Hinv Hended now r Href.
  destruct (useFrame_playing sqrt audio hands st Hinv Hended)
    as (Hact & _ & _ & _ & _).
  fold now r in Hact.
  assert (Href0 : ref ∈ activeNotesRef (spawnNotes now st)).
  { rewrite Hact in Href. apply list_elem_of_filter in Href. tauto. }
  split; [exact Href0|].
  pose proof (spawnNotes_inv now st Hinv) as Hinv0.
  assert (Hnotes0 : notesState (spawnNotes now st) = notesState st)
    by (apply (spawnLoop_spec _ now st); reflexivity).
  destruct (inv_active _ Hinv0 ref Href0) as (_ & n & Hn & Hp).
  rewrite Hnotes0 in Hn.
  destruct (useFrame_active_note sqrt audio hands st ref n
              Hinv Hended Href0 Hn) as (_ & Hn' & Hkeep).
  fold now r in Hn', Hkeep.
  apply Hkeep in Href. exists n.
  split; [rewrite Hn'; unfold judged; rewrite Href; reflexivity|].
  split; [exact Hp|].
  apply verdict_Keep_iff in Href as [Hz _].
  apply Qnot_lt_le, Hz.
Qed.

(** X11.  After a playing frame the active list is the list after the
    spawn step with some entries removed, in the same order, and every
    note left in it is pending and not beyond [MISS_Z]. *)
Theorem no_active_note_beyond_the_miss_line (audio : Audio)
    (hands : HandPositions.t) (st : SceneRefs) :
  SceneInv st -> ended audio = false ->
  let now := currentTime audio in
  let r := useFrame sqrt PLAYING audio hands st in
  activeNotesRef (fst r) `sublist_of` activeNotesRef (spawnNotes now st) /\
  (forall ref, ref ∈ activeNotesRef (fst r) ->
     exists n, notesState (fst r) !! ref = Some n /\ pending n /\
               currentZ now n <= MISS_Z).
Proof.
  intros Hinv Hended now r.
  destruct (useFrame_playing sqrt audio hands st Hinv Hended)
    as (Hact & _ & _ & _ & _).
  fold now r in Hact.
  split; [rewrite Hact; apply sublist_filter|].
  intros ref Href.
  apply (useFrame_kept_note audio hands st ref Hinv Hended Href).
Qed.
End JudgeOutcomes.

(** ** The order of the callbacks of a frame *)

Section CallbackOrder.
Local Open Scope Q_scope.
Variable sqrt : Q -> Q.

Lemma StronglySorted_lt_seq (n k : nat) : StronglySorted lt (seq n k).
Proof.
  revert n. induction k as [|k IH]; intros n; cbn; constructor.
  - apply IH.
  - apply Forall_forall. intros x Hx. apply elem_of_seq in Hx. lia.
Qed.

Lemma StronglySorted_filter {A : Type} (R : A -> A -> Prop) (P : A -> Prop)
    `{!forall x, Decision (P x)} (l : list A) :
  StronglySorted R l -> StronglySorted R (filter P l).
Proof.
  induction 1 as [|a l Hl IH Ha]; [constructor|].
  rewrite filter_cons. destruct (decide (P a)); [|exact IH].
  constructor; [exact IH|].
  rewrite Forall_forall in Ha |- *. intros x Hx.
  apply list_elem_of_filter in Hx as [_ Hx]. apply Ha, Hx.
Qed.

Lemma spawnNotes_ascending (now : Q) (st : SceneRefs) :
  SceneInv st -> active_ascending st -> active_ascending (spawnNotes now st).
Proof.
  intros Hinv Hasc. unfold active_ascending.
  destruct (spawnLoop_spec
              (length (notesState st) - nextNoteIndexRef st) now st)
    as (_ & _ & Hact & _); [lia|].
  fold (spawnNotes now st) in Hact. rewrite Hact.
  apply StronglySorted_app_2; [|exact Hasc|apply StronglySorted_lt_seq].
  intros x1 x2 H1 H2. apply elem_of_seq in H2.
  destruct (inv_active _ Hinv x1 H1). lia.
Qed.

Lemma currentZ_antitone (now : Q) (a b : NoteData) :
  time a <= time b -> currentZ now b <= currentZ now a.
Proof. unfold currentZ, PLAYER_Z, NOTE_SPEED. intros H. lra. Qed.

Lemma judged_time (now : Q) (hands : HandPositions.t) (n : NoteData) :
  time (judged sqrt now hands n) = time n.
Proof. unfold judged. destruct (verdict sqrt now hands n); reflexivity. Qed.

(** Along an ascending list of references into a chart in time order,
    walked from its end, the hits come first and the misses last. *)
Lemma callbacks_hits_then_misses (now : Q) (hands : HandPositions.t)
    (notes : list NoteData) (l : list nat) :
  chart_sorted notes -> StronglySorted lt l ->
  exists hs ms,
    flat_map (callbacks sqrt now hands notes) (reverse l) = hs ++ ms /\
    Forall (fun e => isHit e = true) hs /\
    Forall (fun e => isMiss e = true) ms.
Proof.
  intros Hsorted. induction 1 as [|a l Hl IH Ha].
  - exists [], []. repeat split; constructor.
  - destruct IH as (hs & ms & Hev & Hhs & Hms).
    rewrite reverse_cons, flat_map_app, Hev. cbn [flat_map].
    rewrite app_nil_r.
    unfold callbacks at 1.
    destruct (notes !! a) as [na|] eqn:Hna;
      [|exists hs, ms; rewrite app_nil_r; auto].
    destruct (verdict sqrt now hands na) as [| |g] eqn:Hva.
    + exists hs, ms. rewrite app_nil_r. auto.
    + exists hs, (ms ++ [NoteMiss a]). rewrite app_assoc.
      split; [reflexivity|]. split; [exact Hhs|].
      apply Forall_app. split; [exact Hms | repeat constructor].
    + (* a hit on [a]: nothing after [a] in the chart can be missed *)
      assert (ms = []) as ->.
      { destruct ms as [|e ms]; [reflexivity|exfalso].
        apply Forall_cons in Hms as [He _].
        assert (Hin : e ∈ flat_map (callbacks sqrt now hands notes)
                          (reverse l))
          by (rewrite Hev; apply elem_of_app; right; apply list_elem_of_here).
        apply elem_of_flat_map in Hin as (b & Hb & Hin).
        rewrite elem_of_reverse in Hb.
        apply callbacks_elem in Hin
          as (nb & Hnb & [[Hvb _] | (g' & _ & ->)]); [|discriminate].
        rewrite Forall_forall in Ha. specialize (Ha b Hb).
        assert (Htime : time na <= time nb)
          by (apply (Hsorted a b na nb); [lia | exact Hna | exact Hnb]).
        pose proof (currentZ_antitone now na nb Htime) as Hz.
        apply verdict_Miss_inv in Hvb.
        apply verdict_Hit_inv in Hva as [(_ & _ & Hhi & _) _].
        unfold MISS_Z, PLAYER_Z in *. lra. }
      exists (hs ++ [NoteHit a g]), []. rewrite !app_nil_r.
      split; [reflexivity|]. split; [|constructor].
      apply Forall_app. split; [exact Hhs | repeat constructor].
Qed.

Lemma fold_ends_with_miss (m : Z) (events : list SceneEvent)
    (s : ScoreState) (e : SceneEvent) :
  last events = Some e -> isMiss e = true ->
  combo (fold_left (applyEvent m) events s) = 0%Z.
Proof.
  intros Hlast He. apply last_Some in Hlast as [l' ->].
  rewrite fold_left_app. cbn [fold_left].
  destruct e as [ref g | ref |]; try discriminate. cbn [applyEvent].
  apply (handleNoteMiss_fields (fold_left (applyEvent m) l' s)).
Qed.

(** X12.  On a chart in time order with the active list in chart order,
    the callbacks of a playing frame are all its hits followed by all
    its misses; so a frame that reports any miss leaves the combo at 0,
    even if it also reports hits.  The frame keeps the chart in time
    order and the active list in chart order. *)
Theorem misses_come_after_hits (audio : Audio) (hands : HandPositions.t)
    (st : SceneRefs) :
  SceneInv st -> active_ascending st -> chart_sorted (notesState st) ->
  ended audio = false ->
  let r := useFrame sqrt PLAYING audio hands st in
  (exists hs ms, snd r = hs ++ ms /\
     Forall (fun e => isHit e = true) hs /\
     Forall (fun e => isMiss e = true) ms) /\
  (forall ref s, NoteMiss ref ∈ snd r ->
     combo (applyFrame s (snd r)) = 0%Z) /\
  active_ascending (fst r) /\ chart_sorted (notesState (fst r)).
Proof.
  intros Hinv Hasc Hsorted Hended r.
  destruct (useFrame_playing sqrt audio hands st Hinv Hended)
    as (Hact & _ & Hlen & Hnotes & Hev).
  fold r in Hact, Hlen, Hnotes, Hev.
  pose proof (spawnNotes_ascending (currentTime audio) st Hinv Hasc) as Hasc0.
  destruct (callbacks_hits_then_misses (currentTime audio) hands
              (notesState st) _ Hsorted Hasc0) as (hs & ms & Hsplit & Hhs & Hms).
  rewrite <- Hev in Hsplit.
  split; [exists hs, ms; auto|]. split; [|split].
  - intros ref s Hmiss. rewrite Hsplit in Hmiss |- *.
    apply elem_of_app in Hmiss as [Hin|Hin].
    { rewrite Forall_forall in Hhs. specialize (Hhs _ Hin). discriminate. }
    destruct (last ms) as [e|] eqn:Hlast.
    + assert (He : isMiss e = true).
      { rewrite Forall_forall in Hms. apply Hms.
        apply last_Some in Hlast as [l' ->].
        apply elem_of_app. right. apply list_elem_of_here. }
      rewrite applyFrame_combo.
      apply (fold_ends_with_miss _ _ _ e); [|exact He].
      rewrite last_app, Hlast. reflexivity.
    + apply last_None in Hlast. subst ms. inversion Hin.
  - unfold active_ascending. rewrite Hact.
    apply StronglySorted_filter, Hasc0.
  - intros i j ni nj Hij Hi Hj.
    assert (Hback : forall k nk, notesState (fst r) !! k = Some nk ->
              exists n, notesState st !! k = Some n /\ time nk = time n).
    { intros k nk Hk.
      assert (Hlt : (k < length (notesState st))%nat)
        by (rewrite <- Hlen; eapply lookup_lt_Some, Hk).
      destruct (lookup_lt_is_Some_2 _ _ Hlt) as [n Hn].
      exists n. split; [exact Hn|].
      rewrite (Hnotes k n Hn) in Hk. injection Hk as <-.
      destruct (bool_decide _); [apply judged_time | reflexivity]. }
    destruct (Hback i ni Hi) as (ni0 & Hi0 & ->).
    destruct (Hback j nj Hj) as (nj0 & Hj0 & ->).
    apply (Hsorted i j ni0 nj0 Hij Hi0 Hj0).
Qed.
End CallbackOrder.

(** ** Starting again on the mounted scene *)

Section Restart.
Local Open Scope Q_scope.
Variable sqrt : Q -> Q.

Lemma resetChart_lookup (st : SceneRefs) (ref : nat) :
  notesState (resetChart st) !! ref = reset_flags <$> notesState st !! ref.
Proof. cbn. apply list_lookup_fmap. Qed.

Lemma resetChart_inv (st : SceneRefs) : SceneInv st -> SceneInv (resetChart st).
Proof.
  intros [Hnd Hact Hfut Hexcl].
  assert (Hp : forall ref n, notesState (resetChart st) !! ref = Some n ->
                 pending n).
  { intros ref n Hn. rewrite resetChart_lookup in Hn.
    destruct (notesState st !! ref); [|discriminate].
    injection Hn as <-. split; reflexivity. }
  split.
  - exact Hnd.
  - intros ref Href. destruct (Hact ref Href) as (Hlt & n & Hn & _).
    split; [exact Hlt|]. exists (reset_flags n).
    split; [rewrite resetChart_lookup, Hn; reflexivity | split; reflexivity].
  - intros ref n _ Hn. exact (Hp ref n Hn).
  - intros ref n Hn [Hh _]. destruct (Hp ref n Hn). congruence.
Qed.

(** A note before the cursor that is not in the active list is out of
    the game: no frame looks at it. *)
Lemma useFrame_inactive (gs : GameStatus) (audio : Audio)
    (hands : HandPositions.t) (st : SceneRefs) (ref : nat) :
  SceneInv st ->
  (ref < nextNoteIndexRef st)%nat -> ref ∉ activeNotesRef st ->
  let r := useFrame sqrt gs audio hands st in
  (ref < nextNoteIndexRef (fst r))%nat /\ (ref ∉ activeNotesRef (fst r)) /\
  notesState (fst r) !! ref = notesState st !! ref /\
  (forall e, e ∈ snd r -> event_ref e <> Some ref).
Proof.
  intros Hinv Hlt Hnot r.
  destruct (spawnLoop_spec
              (length (notesState st) - nextNoteIndexRef st)
              (currentTime audio) st)
    as (_ & Hle & Hact0 & _); [lia|].
  fold (spawnNotes (currentTime audio) st) in Hle, Hact0.
  assert (Hnot0 : ref ∉ activeNotesRef (spawnNotes (currentTime audio) st)).
  { rewrite Hact0. intros Hin. apply elem_of_app in Hin as [Hin|Hin];
      [contradiction | apply elem_of_seq in Hin; lia]. }
  assert (Hev : forall e, e ∈ snd r -> event_ref e <> Some ref).
  { intros e He Hr.
    destruct (useFrame_event_inv sqrt gs audio hands st e ref Hinv He Hr)
      as (_ & _ & Hin & _). contradiction. }
  assert (Hidle : (ref < nextNoteIndexRef st)%nat /\
                  (ref ∉ activeNotesRef st) /\
                  notesState st !! ref = notesState st !! ref) by auto.
  split; [|split; [|split; [|exact Hev]]];
    subst r; destruct gs; try apply Hidle;
    destruct (ended audio) eqn:Hended;
    try (unfold useFrame; rewrite Hended; apply Hidle);
    destruct (useFrame_playing sqrt audio hands st Hinv Hended)
      as (Hact & Hnext & Hlen & Hnotes & _).
  - rewrite Hnext. lia.
  - rewrite Hact. intros Hin. apply list_elem_of_filter in Hin. tauto.
  - destruct (notesState st !! ref) as [n|] eqn:Hn.
    + rewrite (Hnotes ref n Hn), bool_decide_eq_false_2 by exact Hnot0.
      reflexivity.
    + apply lookup_ge_None. rewrite Hlen. apply lookup_ge_None, Hn.
Qed.

Lemma runFrames_inactive (frames : list FrameInput) (st : SceneRefs)
    (ref : nat) :
  SceneInv st ->
  (ref < nextNoteIndexRef st)%nat -> ref ∉ activeNotesRef st ->
  let r := runFrames sqrt frames st in
  (ref ∉ activeNotesRef (fst r)) /\
  notesState (fst r) !! ref = notesState st !! ref /\
  (forall e, e ∈ concat (snd r) -> event_ref e <> Some ref).
Proof.
  revert st. induction frames as [|[[gs audio] hands] frames IH];
    intros st Hinv Hlt Hnot; cbn [runFrames].
  - cbn. split; [exact Hnot|]. split; [reflexivity|].
    intros e He. inversion He.
  - destruct (useFrame_trace sqrt gs audio hands st Hinv) as [Hinv1 _].
    destruct (useFrame_inactive gs audio hands st ref Hinv Hlt Hnot)
      as (Hlt1 & Hnot1 & Hn1 & Hev1).
    destruct (useFrame sqrt gs audio hands st) as [st1 e1].
    cbn [fst snd] in *.
    specialize (IH st1 Hinv1 Hlt1 Hnot1). cbv zeta in IH.
    destruct (runFrames sqrt frames st1) as [st2 es].
    cbn [fst snd concat] in *.
    destruct IH as (Hnot2 & Hn2 & Hev2).
    split; [exact Hnot2|]. split; [congruence|].
    intros e He. apply elem_of_app in He as [He|He]; auto.
Qed.

Lemma note_step_type (n n' : NoteData) : note_step n n' -> type n' = type n.
Proof.
  intros [-> | (_ & [-> | (t & ->)])]; reflexivity.
Qed.

(** X13.  [startGame] does nothing without the camera.  With the camera
    it resets score, combo, multiplier and health and clears the flags
    of every note whether or not the audio starts, enters PLAYING only
    if the audio starts, and leaves the cursor and the active list of
    the scene as the last game left them; the scene is well formed
    again. *)
Theorem startGame_resets_but_keeps_the_cursor (playSucceeds : bool)
    (gs : GameStatus) (s : ScoreState) (st : SceneRefs) :
  SceneInv st ->
  startGame false playSucceeds gs s st = (gs, s, st) /\
  let r := startGame true playSucceeds gs s st in
  fst (fst r) = (if playSucceeds then PLAYING else gs) /\
  snd (fst r) = initialState /\
  SceneInv (snd r) /\
  (forall ref n, notesState st !! ref = Some n ->
     notesState (snd r) !! ref = Some (reset_flags n)) /\
  (forall ref n, notesState (snd r) !! ref = Some n -> pending n) /\
  activeNotesRef (snd r) = activeNotesRef st /\
  nextNoteIndexRef (snd r) = nextNoteIndexRef st.
Proof.
  intros Hinv. split; [reflexivity|]. cbn.
  split; [reflexivity|]. split; [reflexivity|].
  split; [apply (resetChart_inv st Hinv)|].
  split; [|split; [|split; reflexivity]].
  - intros ref n Hn. rewrite list_lookup_fmap, Hn. reflexivity.
  - intros ref n Hn. rewrite list_lookup_fmap in Hn.
    destruct (notesState st !! ref); [|discriminate].
    injection Hn as <-. split; reflexivity.
Qed.

(** X14.  A note that was hit or missed in an earlier game does not come
    back when the game is started again: its flags are cleared, but over
    any run of frames it gets no callback, stays out of the active list
    and is never hit or missed. *)
Theorem resolved_notes_do_not_return (playSucceeds : bool) (gs : GameStatus)
    (s : ScoreState) (st : SceneRefs) (ref : nat) (n : NoteData)
    (frames : list FrameInput) :
  SceneInv st -> notesState st !! ref = Some n -> resolved n ->
  let st' := snd (startGame true playSucceeds gs s st) in
  let r := runFrames sqrt frames st' in
  notesState st' !! ref = Some (reset_flags n) /\
  (forall e, e ∈ concat (snd r) -> event_ref e <> Some ref) /\
  (ref ∉ activeNotesRef (fst r)) /\
  notesState (fst r) !! ref = Some (reset_flags n).
Proof.
  intros Hinv Hn Hres st' r.
  assert (Hst' : st' = resetChart st) by reflexivity.
  assert (Hn' : notesState st' !! ref = Some (reset_flags n))
    by (rewrite Hst', resetChart_lookup, Hn; reflexivity).
  assert (Hnot : ref ∉ activeNotesRef st).
  { intros Hin. destruct (inv_active _ Hinv ref Hin) as (_ & n0 & Hn0 & Hp).
    rewrite Hn in Hn0. injection Hn0 as <-.
    destruct Hp as [Hh Hm]. destruct Hres; congruence. }
  assert (Hlt : (ref < nextNoteIndexRef st)%nat).
  { destruct (Nat.lt_ge_cases ref (nextNoteIndexRef st)) as [H|H]; [exact H|].
    destruct (inv_future _ Hinv ref n H Hn) as [Hh Hm].
    destruct Hres; congruence. }
  destruct (runFrames_inactive frames st' ref) as (Ha & Hk & Hev).
  - rewrite Hst'. apply resetChart_inv, Hinv.
  - exact Hlt.
  - exact Hnot.
  - fold r in Ha, Hk, Hev.
    split; [exact Hn'|]. split; [exact Hev|]. split; [exact Ha|].
    rewrite Hk. exact Hn'.
Qed.

(** X15.  Over any run of frames in which the hand a note asks for is
    never tracked, the note is never reported hit. *)
Theorem untracked_hand_never_hits (frames : list FrameInput)
    (st : SceneRefs) (ref : nat) (note : NoteData) :
  SceneInv st -> notesState st !! ref = Some note ->
  Forall (fun f : FrameInput => handPosOf (type note) (snd f) = None) frames ->
  forall goodCut,
    NoteHit ref goodCut ∉ concat (snd (runFrames sqrt frames st)).
Proof.
  revert st note. induction frames as [|[[gs audio] hands] frames IH];
    intros st note Hinv Hnote Hun g; cbn [runFrames].
  - cbn. intros H. inversion H.
  - apply Forall_cons in Hun as [Hnone Hun]. cbn [snd] in Hnone.
    destruct (useFrame_trace sqrt gs audio hands st Hinv)
      as [Hinv1 (_ & Hstep & _)].
    assert (Hno1 : NoteHit ref g ∉ snd (useFrame sqrt gs audio hands st)).
    { intros He.
      destruct (useFrame_event_inv sqrt gs audio hands st _ ref Hinv He
                  eq_refl)
        as (_ & _ & _ & n & Hn & _ & [[_ ?] | (g' & Hv & _)]);
        [discriminate|].
      rewrite Hnote in Hn. injection Hn as <-.
      apply verdict_Hit_inv in Hv as [(_ & _ & _ & hp & _ & Hhp & _) _].
      congruence. }
    destruct (Hstep ref note Hnote) as (n1 & Hn1 & Hs).
    destruct (useFrame sqrt gs audio hands st) as [st1 e1].
    cbn [fst snd] in *.
    assert (Hun1 : Forall (fun f : FrameInput =>
                             handPosOf (type n1) (snd f) = None) frames)
      by (rewrite (note_step_type _ _ Hs); exact Hun).
    specialize (IH st1 n1 Hinv1 Hn1 Hun1 g).
    destruct (runFrames sqrt frames st1) as [st2 es].
    cbn [fst snd concat] in *.
    intros He. apply elem_of_app in He as [He|He]; auto.
Qed.
End Restart.

(** ** The demo chart *)

Section DemoChartFacts.
Local Open Scope Q_scope.

Lemma sorted_by_time_sound (l : list NoteData) :
  sorted_by_time l = true -> chart_sorted l.
Proof.
  induction l as [|a l IH]; intros Hs i j ni nj Hij Hi Hj.
  - discriminate.
  - cbn in Hs. apply andb_prop in Hs as [Ha Hl].
    destruct i as [|i].
    + cbn in Hi. injection Hi as <-. destruct j as [|j].
      * cbn in Hj. injection Hj as <-. apply Qle_refl.
      * cbn in Hj. rewrite forallb_forall in Ha.
        apply Qle_bool_iff, Ha, list_elem_of_In, list_elem_of_lookup. eauto.
    + destruct j as [|j]; [lia|]. cbn in Hi, Hj.
      apply (IH Hl i j ni nj); [lia | exact Hi | exact Hj].
Qed.

Lemma chartLoop_done (fuel i : nat) (st : nat * list NoteData) :
  (200 <= i)%nat -> chartLoop fuel i st = (i, st).
Proof.
  intros Hi. destruct fuel; [reflexivity|]. cbn [chartLoop].
  destruct (Nat.ltb_spec i 200); [lia | reflexivity].
Qed.

Lemma chartLoop_more_fuel (a b i : nat) (st : nat * list NoteData) :
  chartLoop (a + b) i st =
  chartLoop b (fst (chartLoop a i st)) (snd (chartLoop a i st)).
Proof.
  revert i st. induction a as [|a IH]; intros i st; [reflexivity|].
  cbn [Nat.add chartLoop].
  destruct (Nat.ltb_spec i 200); [apply IH|].
  cbn [fst snd]. symmetry. apply chartLoop_done. lia.
Qed.

(** A note with a lane and a layer of the tables has a slot position at
    every time. *)
Lemma notePosition_is_Some (now : Q) (n : NoteData) :
  (lineIndex n < 4)%nat -> (lineLayer n < 3)%nat ->
  is_Some (notePosition now n).
Proof.
  intros Hi Hl. unfold notePosition.
  destruct (lineIndex n) as [|[|[|[|?]]]]; try lia;
    destruct (lineLayer n) as [|[|[|?]]]; try lia; cbn; eauto.
Qed.

(** X16.  The loop of [generateDemoChart] ends by its own test with 114
    notes, already in time order, so the final sort changes nothing.
    The chart is in time order; every note has a lane below 4 and a
    layer below 3, hence a slot position at every time, accepts any
    direction, carries no flag, and is a left-hand note exactly when it
    is in one of the two left lanes; the ids are pairwise distinct. *)
Theorem demo_chart_is_well_formed :
  (forall extra,
     chartLoop (98 + extra) 4 (0%nat, []) = chartLoop 98 4 (0%nat, [])) /\
  DEMO_CHART = snd (snd (chartLoop 98 4 (0%nat, []))) /\
  length DEMO_CHART = 114%nat /\
  chart_sorted DEMO_CHART /\
  Forall (fun n =>
            (lineIndex n < 4)%nat /\ (lineLayer n < 3)%nat /\
            cutDirection n = ANY /\ pending n /\
            (type n = HandLeft <-> (lineIndex n < 2)%nat) /\
            forall now, is_Some (notePosition now n)) DEMO_CHART /\
  NoDup (map id DEMO_CHART).
Proof.
  split; [|split; [|split; [|split; [|split]]]].
  - intros extra. rewrite chartLoop_more_fuel.
    apply chartLoop_done. vm_compute. reflexivity.
  - vm_compute. reflexivity.
  - vm_compute. reflexivity.
  - apply sorted_by_time_sound. vm_compute. reflexivity.
  - assert (Hwf : forallb well_formed_note DEMO_CHART = true)
      by (vm_compute; reflexivity).
    rewrite forallb_forall in Hwf. apply Forall_forall. intros n Hn.
    apply list_elem_of_In, Hwf in Hn. unfold well_formed_note in Hn.
    repeat (apply andb_prop in Hn as [Hn ?]).
    assert (Hi : (lineIndex n < 4)%nat) by (apply Nat.ltb_lt; assumption).
    assert (Hl : (lineLayer n < 3)%nat) by (apply Nat.ltb_lt; assumption).
    split; [exact Hi|]. split; [exact Hl|].
    split; [destruct (cutDirection n); congruence|].
    split; [split; apply negb_true_iff; assumption|].
    split; [|intros now; apply notePosition_is_Some; assumption].
    destruct (type n).
    + split; [intros _; apply Nat.ltb_lt; assumption | reflexivity].
    + split; [discriminate|]. intros Hlt.
      assert ((2 <= lineIndex n)%nat) by (apply Nat.leb_le; assumption). lia.
  - apply (bool_decide_unpack _). vm_compute. exact I.
Qed.
End DemoChartFacts.

(** ** The notes handed to the renderer *)

Section VisibleFacts.
Local Open Scope Q_scope.
Variable sqrt : Q -> Q.

(** X17.  After a playing frame, every note still in the active list
    whose spawn time has come is among the visible notes of that time,
    and no missed note is ever among them. *)
Theorem tracked_notes_are_visible (audio : Audio) (hands : HandPositions.t)
    (st : SceneRefs) :
  SceneInv st -> ended audio = false ->
  let now := currentTime audio in
  let r := useFrame sqrt PLAYING audio hands st in
  (forall ref n, ref ∈ activeNotesRef (fst r) ->
     notesState (fst r) !! ref = Some n ->
     time n - spawnAheadTime <= now ->
     n ∈ visibleNotes now (notesState (fst r))) /\
  (forall t notes n, n ∈ visibleNotes t notes -> missed n = false).
Proof.
  intros Hinv Hended now r. split.
  - intros ref n Href Hn Hdue.
    destruct (useFrame_kept_note sqrt audio hands st ref Hinv Hended Href)
      as (_ & n' & Hn' & [Hh Hm] & Hz).
    fold now r in Hn'. rewrite Hn in Hn'. injection Hn' as <-.
    apply list_elem_of_In, filter_In. split.
    + apply list_elem_of_In, list_elem_of_lookup. eauto.
    + unfold isVisible. rewrite Hh, Hm. cbn [negb orb andb].
      pose proof spawnAheadTime_value as Hahead.
      unfold currentZ, PLAYER_Z, NOTE_SPEED, MISS_Z in Hz.
      unfold now in *.
      apply andb_true_intro. split; apply Qlt_bool_iff; lra.
  - intros t notes n Hin. apply list_elem_of_In, filter_In in Hin as [_ Hv].
    unfold isVisible in Hv. destruct (missed n); [discriminate|reflexivity].
Qed.
End VisibleFacts.

(** ** Every slot can be reached *)

Section Reachability.
Local Open Scope Q_scope.
Variable sqrt : Q -> Q.
Hypothesis sqrt_small : forall q, 0 <= q -> q < 0.64 -> sqrt q < 0.8.

Lemma fingertipFor_reaches (lx ly now : Q) (note : NoteData)
    (hands : HandPositions.t) :
  -1.2 <= lx <= 1.2 -> 0.8 <= ly <= 2.4 ->
  LANE_X_POSITIONS !! lineIndex note = Some lx ->
  LAYER_Y_POSITIONS !! lineLayer note = Some ly ->
  time note == now ->
  handPosOf (type note) hands =
    Some (mapHandToWorld (fst (fingertipFor lx ly)) (snd (fingertipFor lx ly))) ->
  distanceHit sqrt now hands note.
Proof.
  intros Hlx Hly Hlane Hlayer Htime Hhand.
  assert (Hz : currentZ now note == 0)
    by (unfold currentZ, PLAYER_Z, NOTE_SPEED; lra).
  unfold distanceHit.
  split; [unfold MISS_Z; lra|]. split; [unfold PLAYER_Z; lra|].
  split; [unfold PLAYER_Z; lra|].
  eexists _, _. split; [exact Hhand|].
  split; [unfold notePosition; rewrite Hlane, Hlayer; reflexivity|].
  unfold THREE.distanceTo. apply sqrt_small;
    unfold THREE.distanceToSquared, mapHandToWorld, fingertipFor;
    cbn [THREE.x THREE.y THREE.z fst snd].
  - match goal with |- 0 <= ?a * ?a + ?b * ?b + ?c * ?c =>
      pose proof (Qmult_le_0_compat a a); pose proof (Qmult_le_0_compat b b);
      pose proof (Qmult_le_0_compat c c);
      assert (0 <= a * a) by nra; assert (0 <= b * b) by nra;
      assert (0 <= c * c) by nra; lra end.
  - set (worldY := (1.0 - (1 - (ly + 0.95) / 3.5)) * 3.5 - 3.5 / 2 + 0.8).
    assert (EwY : worldY == ly) by (unfold worldY; field).
    assert (Ey : Qmax 0.1 worldY == ly)
      by (rewrite EwY; apply Q.max_r; lra).
    assert (Ezz : Qmax 0 (worldY * 0.2) == ly * 0.2)
      by (rewrite EwY; apply Q.max_r; lra).
    assert (Ex : (0.5 - (0.5 - lx / 5)) * 5 - lx == 0) by field.
    rewrite Ex, Ey, Ezz, Hz.
    assert (E : 0 * 0 + (ly - ly) * (ly - ly)
                + (- (ly * 0.2) - 0) * (- (ly * 0.2) - 0)
                == 0.04 * (ly * ly)) by ring.
    rewrite E. nra.
Qed.

(** X18.  Every slot of the grid can be hit from inside the camera
    image: for a note with a lane and a layer of the tables there is a
    fingertip position in the image such that, when the required hand
    is at its projection at the moment the note arrives, the note is hit
    by distance (for any square root below 0.8 on arguments below
    0.64). *)
Theorem every_slot_is_reachable (now : Q) (note : NoteData)
    (hands : HandPositions.t) (lx ly : Q) :
  LANE_X_POSITIONS !! lineIndex note = Some lx ->
  LAYER_Y_POSITIONS !! lineLayer note = Some ly ->
  time note == now ->
  let tip := fingertipFor lx ly in
  0 <= fst tip <= 1 /\ 0 <= snd tip <= 1 /\
  (handPosOf (type note) hands
     = Some (mapHandToWorld (fst tip) (snd tip)) ->
   distanceHit sqrt now hands note).
Proof.
  intros Hlane Hlayer Htime tip.
  assert (Hlx : -1.2 <= lx <= 1.2).
  { destruct (lineIndex note) as [|[|[|[|?]]]]; cbn in Hlane;
      try discriminate; injection Hlane as <-; split; vm_compute;
      discriminate. }
  assert (Hly : 0.8 <= ly <= 2.4).
  { destruct (lineLayer note) as [|[|[|?]]]; cbn in Hlayer;
      try discriminate; injection Hlayer as <-; split; vm_compute;
      discriminate. }
  assert (Ex : fst tip == 0.5 - lx / 5) by reflexivity.
  assert (Ey : snd tip == 1 - (ly + 0.95) / 3.5) by reflexivity.
  assert (Ex' : fst tip == 0.5 - 0.2 * lx) by (rewrite Ex; field).
  assert (Ey' : 7 * snd tip == 7 - 2 * (ly + 0.95)) by (rewrite Ey; field).
  split; [lra|]. split; [lra|].
  apply (fingertipFor_reaches lx ly now note hands Hlx Hly Hlane Hlayer Htime).
Qed.
End Reachability.

(** ** The further properties at concrete inputs *)

Section MoreWitnesses.
Local Open Scope Q_scope.

Lemma sqrtQ_small (q : Q) : 0 <= q -> q < 0.64 -> sqrtQ q < 0.8.
Proof.
  destruct q as [n d]. unfold Qle, Qlt, sqrtQ; cbn [Qnum Qden].
  intros Hn Hq.
  pose proof (Z.sqrt_spec (n * Z.pos d)) as Hs.
  pose proof (Z.sqrt_nonneg (n * Z.pos d)) as Hr.
  set (r := Z.sqrt (n * Z.pos d)) in *.
  assert (Hd : (0 < Z.pos d)%Z) by lia.
  destruct Hs as [Hlo _]; [nia|]. nia.
Qed.

Lemma any_direction_hit_quality_witness :
  let r := useFrame sqrtQ PLAYING scenarioAudio scenarioHands
             (startSession [scenarioNote]) in
  exists goodCut,
    (goodCut = true <->
     1.5 <= THREE.length sqrtQ (handVelOf (type scenarioNote) scenarioHands)) /\
    NoteHit 0 goodCut ∈ snd r /\
    (forall e, e ∈ snd r -> event_ref e = Some 0%nat ->
       e = NoteHit 0 goodCut) /\
    notesState (fst r) !! 0%nat =
      Some (set_hit (currentTime scenarioAudio) scenarioNote).
Proof.
  apply (any_direction_hit_quality sqrtQ scenarioAudio scenarioHands
           (startSession [scenarioNote]) 0 scenarioNote).
  - apply startSession_inv.
  - reflexivity.
  - vm_compute. constructor.
  - reflexivity.
  - split; [vm_compute; discriminate|].
    split; [vm_compute; reflexivity|].
    split; [vm_compute; reflexivity|].
    do 2 eexists. split; [reflexivity|]. split; [reflexivity|].
    vm_compute. reflexivity.
  - reflexivity.
Defined.

Lemma outcome_of_an_active_note_witness :
  let now := currentTime earlyAudio in
  let r := useFrame sqrtQ PLAYING earlyAudio scenarioHands
             (startSession [scenarioNote]) in
  (NoteMiss 0 ∈ snd r <-> MISS_Z < currentZ now scenarioNote) /\
  ((exists goodCut, NoteHit 0 goodCut ∈ snd r) <->
   distanceHit sqrtQ now scenarioHands scenarioNote) /\
  (0%nat ∈ activeNotesRef (fst r) <->
   ~ MISS_Z < currentZ now scenarioNote /\
   ~ distanceHit sqrtQ now scenarioHands scenarioNote) /\
  (0%nat ∈ activeNotesRef (fst r) ->
   notesState (fst r) !! 0%nat = Some scenarioNote).
Proof.
  apply (outcome_of_an_active_note sqrtQ earlyAudio scenarioHands
           (startSession [scenarioNote]) 0 scenarioNote).
  - apply startSession_inv.
  - reflexivity.
  - vm_compute. constructor.
  - reflexivity.
Defined.

Lemma no_hit_outside_the_collision_bounds_witness :
  NoteHit 0 true
    ∉ snd (useFrame sqrtQ PLAYING scenarioAudio initialHands
             (startSession [scenarioNote])).
Proof.
  apply (no_hit_outside_the_collision_bounds sqrtQ PLAYING scenarioAudio
           initialHands (startSession [scenarioNote]) 0 scenarioNote).
  - apply startSession_inv.
  - reflexivity.
  - left. reflexivity.
Defined.

Lemma other_hand_is_ignored_witness :
  let r1 := useFrame sqrtQ PLAYING scenarioAudio scenarioHands
              (startSession [scenarioNote]) in
  let r2 := useFrame sqrtQ PLAYING scenarioAudio bothHands
              (startSession [scenarioNote]) in
  (forall e, event_ref e = Some 0%nat -> (e ∈ snd r1 <-> e ∈ snd r2)) /\
  notesState (fst r1) !! 0%nat = notesState (fst r2) !! 0%nat /\
  (0%nat ∈ activeNotesRef (fst r1) <-> 0%nat ∈ activeNotesRef (fst r2)).
Proof.
  apply (other_hand_is_ignored sqrtQ scenarioAudio scenarioHands bothHands
           (startSession [scenarioNote]) 0 scenarioNote).
  - apply startSession_inv.
  - reflexivity.
  - vm_compute. constructor.
  - reflexivity.
  - reflexivity.
  - reflexivity.
Defined.

Lemma no_active_note_beyond_the_miss_line_witness :
  let now := currentTime earlyAudio in
  let r := useFrame sqrtQ PLAYING earlyAudio scenarioHands
             (startSession twoNotes) in
  activeNotesRef (fst r)
    `sublist_of` activeNotesRef (spawnNotes now (startSession twoNotes)) /\
  (forall ref, ref ∈ activeNotesRef (fst r) ->
     exists n, notesState (fst r) !! ref = Some n /\ pending n /\
               currentZ now n <= MISS_Z).
Proof.
  apply (no_active_note_beyond_the_miss_line sqrtQ earlyAudio scenarioHands
           (startSession twoNotes)).
  - apply startSession_inv.
  - reflexivity.
Defined.

Lemma misses_come_after_hits_witness :
  let r := useFrame sqrtQ PLAYING lateAudio scenarioHands
             (startSession twoNotes) in
  (exists hs ms, snd r = hs ++ ms /\
     Forall (fun e => isHit e = true) hs /\
     Forall (fun e => isMiss e = true) ms) /\
  (forall ref s, NoteMiss ref ∈ snd r ->
     combo (applyFrame s (snd r)) = 0%Z) /\
  active_ascending (fst r) /\ chart_sorted (notesState (fst r)).
Proof.
  apply (misses_come_after_hits sqrtQ lateAudio scenarioHands
           (startSession twoNotes)).
  - apply startSession_inv.
  - constructor.
  - apply twoNotes_sorted.
  - reflexivity.
Defined.

Lemma sceneAfterHit_inv : SceneInv sceneAfterHit.
Proof.
  apply (useFrame_trace sqrtQ PLAYING scenarioAudio scenarioHands
           (startSession [scenarioNote])).
  apply startSession_inv.
Qed.

Lemma startGame_resets_but_keeps_the_cursor_witness :
  startGame false true GAME_OVER tenHits sceneAfterHit
    = (GAME_OVER, tenHits, sceneAfterHit) /\
  let r := startGame true true GAME_OVER tenHits sceneAfterHit in
  fst (fst r) = PLAYING /\
  snd (fst r) = initialState /\
  SceneInv (snd r) /\
  (forall ref n, notesState sceneAfterHit !! ref = Some n ->
     notesState (snd r) !! ref = Some (reset_flags n)) /\
  (forall ref n, notesState (snd r) !! ref = Some n -> pending n) /\
  activeNotesRef (snd r) = activeNotesRef sceneAfterHit /\
  nextNoteIndexRef (snd r) = nextNoteIndexRef sceneAfterHit.
Proof.
  apply (startGame_resets_but_keeps_the_cursor true GAME_OVER tenHits
           sceneAfterHit).
  apply sceneAfterHit_inv.
Defined.

Lemma resolved_notes_do_not_return_witness :
  let st' := snd (startGame true true GAME_OVER tenHits sceneAfterHit) in
  let r := runFrames sqrtQ scenarioFrames st' in
  notesState st' !! 0%nat
    = Some (reset_flags (set_hit (currentTime scenarioAudio) scenarioNote)) /\
  (forall e, e ∈ concat (snd r) -> event_ref e <> Some 0%nat) /\
  (0%nat ∉ activeNotesRef (fst r)) /\
  notesState (fst r) !! 0%nat
    = Some (reset_flags (set_hit (currentTime scenarioAudio) scenarioNote)).
Proof.
  apply (resolved_notes_do_not_return sqrtQ true GAME_OVER tenHits
           sceneAfterHit 0
           (set_hit (currentTime scenarioAudio) scenarioNote) scenarioFrames).
  - apply sceneAfterHit_inv.
  - vm_compute. reflexivity.
  - left. reflexivity.
Defined.

Lemma untracked_hand_never_hits_witness :
  NoteHit 0 true
    ∉ concat (snd (runFrames sqrtQ
                     [(PLAYING, scenarioAudio, initialHands);
                      (PLAYING, lateAudio, initialHands)]
                     (startSession [scenarioNote]))).
Proof.
  apply (untracked_hand_never_hits sqrtQ
           [(PLAYING, scenarioAudio, initialHands);
            (PLAYING, lateAudio, initialHands)]
           (startSession [scenarioNote]) 0 scenarioNote).
  - apply startSession_inv.
  - reflexivity.
  - repeat constructor.
Defined.

Lemma tracked_notes_are_visible_witness :
  let now := currentTime earlyAudio in
  let r := useFrame sqrtQ PLAYING earlyAudio scenarioHands
             (startSession [scenarioNote]) in
  (forall ref n, ref ∈ activeNotesRef (fst r) ->
     notesState (fst r) !! ref = Some n ->
     time n - spawnAheadTime <= now ->
     n ∈ visibleNotes now (notesState (fst r))) /\
  (forall t notes n, n ∈ visibleNotes t notes -> missed n = false).
Proof.
  apply (tracked_notes_are_visible sqrtQ earlyAudio scenarioHands
           (startSession [scenarioNote])).
  - apply startSession_inv.
  - reflexivity.
Defined.

Lemma every_slot_is_reachable_witness :
  distanceHit sqrtQ 2.0 slotHands scenarioNote.
Proof.
  apply (every_slot_is_reachable sqrtQ sqrtQ_small 2.0 scenarioNote slotHands
           (-0.5 * LANE_WIDTH) 0.8).
  - reflexivity.
  - reflexivity.
  - reflexivity.
  - reflexivity.
Defined.
End MoreWitnesses.

(** ** Nothing is skipped *)

Section Completeness.
Local Open Scope Q_scope.
Variable sqrt : Q -> Q.

(** On a chart in time order the spawn step takes exactly the due notes
    from the cursor on. *)
Lemma spawn_due_iff (now : Q) (st : SceneRefs) (i : nat) (n : NoteData) :
  chart_sorted (notesState st) ->
  (nextNoteIndexRef st <= i)%nat -> notesState st !! i = Some n ->
  ((i < nextNoteIndexRef (spawnNotes now st))%nat <->
   time n - spawnAheadTime <= now).
Proof.
  intros Hsorted Hi Hn.
  destruct (spawnLoop_spec
              (length (notesState st) - nextNoteIndexRef st) now st)
    as (_ & _ & _ & Hin & Hout); [lia|].
  fold (spawnNotes now st) in Hin, Hout. split.
  - intros Hlt. destruct (Hin i) as (n' & Hn' & Hdue); [lia|]. congruence.
  - intros Hdue.
    destruct (Nat.lt_ge_cases i (nextNoteIndexRef (spawnNotes now st)))
      as [Hlt|Hge]; [exact Hlt|exfalso].
    destruct (notesState st !! nextNoteIndexRef (spawnNotes now st))
      as [n'|] eqn:Hn'.
    + apply (Hout n' eq_refl).
      pose proof (Hsorted _ _ _ _ Hge Hn' Hn) as Htime. lra.
    + apply lookup_ge_None in Hn'. apply lookup_lt_Some in Hn. lia.
Qed.

Lemma spawnNotes_active (now : Q) (st : SceneRefs) (ref : nat) :
  SceneInv st ->
  (ref ∈ activeNotesRef (spawnNotes now st) <->
   ref ∈ activeNotesRef st \/
   (nextNoteIndexRef st <= ref < nextNoteIndexRef (spawnNotes now st))%nat).
Proof.
  intros Hinv.
  destruct (spawnLoop_spec
              (length (notesState st) - nextNoteIndexRef st) now st)
    as (_ & Hle & Hact & _); [lia|].
  fold (spawnNotes now st) in Hle, Hact.
  rewrite Hact, elem_of_app, elem_of_seq.
  split; (intros [H|H]; [left; exact H | right; lia]).
Qed.

(** X19.  The lookahead is the travel time from the spawn plane to the
    player: on a chart in time order, a note at or after the cursor is in
    the active list after the spawn step exactly when its depth has
    reached [SPAWN_Z]. *)
Theorem notes_spawn_at_the_spawn_plane (now : Q) (st : SceneRefs)
    (i : nat) (n : NoteData) :
  SceneInv st -> chart_sorted (notesState st) ->
  (nextNoteIndexRef st <= i)%nat -> notesState st !! i = Some n ->
  (i ∈ activeNotesRef (spawnNotes now st) <-> SPAWN_Z <= currentZ now n).
Proof.
  intros Hinv Hsorted Hi Hn.
  rewrite (spawnNotes_active now st i Hinv).
  pose proof (spawn_due_iff now st i n Hsorted Hi Hn) as Hdue.
  pose proof spawnAheadTime_value as Hahead.
  assert (Hz : time n - spawnAheadTime <= now <-> SPAWN_Z <= currentZ now n)
    by (unfold currentZ, SPAWN_Z, PLAYER_Z, NOTE_SPEED; split; intros; lra).
  rewrite <- Hz, <- Hdue. split.
  - intros [Hin | Hlt]; [|lia].
    destruct (inv_active _ Hinv i Hin). lia.
  - intros Hlt. right. lia.
Qed.

Lemma note_step_time (n n' : NoteData) : note_step n n' -> time n' = time n.
Proof.
  intros [-> | (_ & [-> | (t & ->)])]; reflexivity.
Qed.

(** A frame keeps the chart in time order. *)
Lemma useFrame_sorted (gs : GameStatus) (audio : Audio)
    (hands : HandPositions.t) (st : SceneRefs) :
  SceneInv st -> chart_sorted (notesState st) ->
  chart_sorted (notesState (fst (useFrame sqrt gs audio hands st))).
Proof.
  intros Hinv Hsorted.
  destruct (useFrame_trace sqrt gs audio hands st Hinv)
    as [_ (Hlen & Hstep & _)].
  assert (Hback : forall k nk,
            notesState (fst (useFrame sqrt gs audio hands st)) !! k = Some nk ->
            exists n, notesState st !! k = Some n /\ time nk = time n).
  { intros k nk Hk.
    assert (Hlt : (k < length (notesState st))%nat)
      by (rewrite <- Hlen; eapply lookup_lt_Some, Hk).
    destruct (lookup_lt_is_Some_2 _ _ Hlt) as [n Hn].
    destruct (Hstep k n Hn) as (n' & Hn' & Hs).
    exists n. split; [exact Hn|]. rewrite Hk in Hn'. injection Hn' as <-.
    apply note_step_time, Hs. }
  intros i j ni nj Hij Hi Hj.
  destruct (Hback i ni Hi) as (ni0 & Hi0 & ->).
  destruct (Hback j nj Hj) as (nj0 & Hj0 & ->).
  apply (Hsorted i j ni0 nj0 Hij Hi0 Hj0).
Qed.

(** A frame drops no note, and a playing frame leaves no note beyond
    [MISS_Z] unresolved. *)
Lemma useFrame_complete (gs : GameStatus) (audio : Audio)
    (hands : HandPositions.t) (st : SceneRefs) :
  SceneInv st -> session_complete st -> chart_sorted (notesState st) ->
  let r := useFrame sqrt gs audio hands st in
  session_complete (fst r) /\
  (gs = PLAYING -> ended audio = false ->
   forall ref n', notesState (fst r) !! ref = Some n' ->
     MISS_Z < currentZ (currentTime audio) n' -> resolved n').
Proof.
  intros Hinv Hcomp Hsorted r.
  assert (Hidle : session_complete st) by exact Hcomp.
  destruct gs; try (split; [exact Hidle | discriminate]).
  destruct (ended audio) eqn:Hended.
  { subst r. unfold useFrame. rewrite Hended.
    split; [exact Hidle | discriminate]. }
  set (now := currentTime audio) in *.
  destruct (useFrame_playing sqrt audio hands st Hinv Hended)
    as (Hact & Hnext & Hlen & Hnotes & _).
  fold now r in Hact, Hnext, Hlen, Hnotes.
  pose proof (spawnNotes_inv now st Hinv) as Hinv0.
  assert (Hnotes0 : notesState (spawnNotes now st) = notesState st)
    by (apply (spawnLoop_spec _ now st); reflexivity).
  (* what the frame leaves of a note behind the new cursor *)
  assert (Hnote : forall ref n,
            (ref < nextNoteIndexRef (spawnNotes now st))%nat ->
            notesState st !! ref = Some n ->
            exists n', notesState (fst r) !! ref = Some n' /\
              time n' = time n /\
              (ref ∈ activeNotesRef (fst r) \/ resolved n') /\
              (MISS_Z < currentZ now n -> resolved n')).
  { intros ref n Hlt Hn.
    destruct (decide (ref ∈ activeNotesRef (spawnNotes now st)))
      as [Hin|Hnin].
    - destruct (useFrame_active_note sqrt audio hands st ref n
                  Hinv Hended Hin Hn) as (_ & Hn' & Hkeep).
      fold now r in Hn', Hkeep.
      exists (judged sqrt now hands n).
      split; [exact Hn'|]. split; [apply judged_time|].
      unfold judged.
      destruct (verdict sqrt now hands n) as [| |g] eqn:Hv.
      + split; [left; apply Hkeep; reflexivity|].
        intros Hz. rewrite (verdict_miss sqrt now hands n Hz) in Hv.
        discriminate.
      + split; [right|intros _]; right; reflexivity.
      + split; [right|intros _]; left; reflexivity.
    - exists n.
      split; [rewrite (Hnotes ref n Hn), bool_decide_eq_false_2 by exact Hnin;
              reflexivity|].
      split; [reflexivity|].
      assert (Hres : resolved n).
      { assert (Hnin' : ~ (ref ∈ activeNotesRef st \/
                  (nextNoteIndexRef st <= ref
                   < nextNoteIndexRef (spawnNotes now st))%nat))
          by (rewrite <- (spawnNotes_active now st ref Hinv); exact Hnin).
        destruct (Nat.lt_ge_cases ref (nextNoteIndexRef st)) as [Hlt0|Hge0].
        - destruct (Hcomp ref n Hlt0 Hn) as [Hin|Hres]; [|exact Hres].
          exfalso. apply Hnin'. left. exact Hin.
        - exfalso. apply Hnin'. right. lia. }
      split; [right; exact Hres | intros _; exact Hres]. }
  split.
  - intros ref n' Hlt Hn'. rewrite Hnext in Hlt.
    assert (Hl : (ref < length (notesState st))%nat)
      by (rewrite <- Hlen; eapply lookup_lt_Some, Hn').
    destruct (lookup_lt_is_Some_2 _ _ Hl) as [n Hn].
    destruct (Hnote ref n Hlt Hn) as (n'' & Hn'' & _ & Hor & _).
    rewrite Hn' in Hn''. injection Hn'' as <-. exact Hor.
  - intros _ _ ref n' Hn' Hz.
    assert (Hl : (ref < length (notesState st))%nat)
      by (rewrite <- Hlen; eapply lookup_lt_Some, Hn').
    destruct (lookup_lt_is_Some_2 _ _ Hl) as [n Hn].
    assert (Htime : time n' = time n).
    { rewrite (Hnotes ref n Hn) in Hn'. injection Hn' as <-.
      destruct (bool_decide _); [apply judged_time | reflexivity]. }
    assert (Hz0 : MISS_Z < currentZ now n)
      by (unfold currentZ in *; rewrite <- Htime; exact Hz).
    assert (Hlt : (ref < nextNoteIndexRef (spawnNotes now st))%nat).
    { destruct (Nat.lt_ge_cases ref (nextNoteIndexRef st)) as [Hlt0|Hge0].
      - pose proof (spawnLoop_spec
                      (length (notesState st) - nextNoteIndexRef st) now st)
          as Hs. cbv zeta in Hs. fold (spawnNotes now st) in Hs.
        destruct Hs as (_ & Hle & _); lia.
      - apply (spawn_due_iff now st ref n Hsorted Hge0 Hn).
        pose proof spawnAheadTime_value as Hahead.
        unfold currentZ, MISS_Z, PLAYER_Z, NOTE_SPEED in Hz0. lra. }
    destruct (Hnote ref n Hlt Hn) as (n'' & Hn'' & _ & _ & Hlate).
    rewrite Hn' in Hn''. injection Hn'' as <-. apply Hlate, Hz0.
Qed.

Lemma startSession_complete (chart : list NoteData) :
  session_complete (startSession chart).
Proof. intros ref n Hlt. cbn in Hlt. lia. Qed.

Lemma startSession_sorted (chart : list NoteData) :
  chart_sorted chart -> chart_sorted (notesState (startSession chart)).
Proof.
  intros Hs i j ni nj Hij Hi Hj. cbn in Hi, Hj.
  rewrite list_lookup_fmap in Hi, Hj.
  destruct (chart !! i) as [ci|] eqn:Hci; [|discriminate].
  destruct (chart !! j) as [cj|] eqn:Hcj; [|discriminate].
  injection Hi as <-. injection Hj as <-.
  apply (Hs i j ci cj Hij Hci Hcj).
Qed.

Lemma runFrames_complete (frames : list FrameInput) (st : SceneRefs) :
  SceneInv st -> session_complete st -> chart_sorted (notesState st) ->
  let st' := fst (runFrames sqrt frames st) in
  SceneInv st' /\ session_complete st' /\ chart_sorted (notesState st').
Proof.
  revert st. induction frames as [|[[gs audio] hands] frames IH];
    intros st Hinv Hcomp Hsorted; cbn [runFrames].
  - cbn. auto.
  - destruct (useFrame_trace sqrt gs audio hands st Hinv) as [Hinv1 _].
    destruct (useFrame_complete gs audio hands st Hinv Hcomp Hsorted)
      as [Hcomp1 _].
    pose proof (useFrame_sorted gs audio hands st Hinv Hsorted) as Hsorted1.
    destruct (useFrame sqrt gs audio hands st) as [st1 e1].
    cbn [fst snd] in *.
    specialize (IH st1 Hinv1 Hcomp1 Hsorted1). cbv zeta in IH.
    destruct (runFrames sqrt frames st1) as [st2 es]. exact IH.
Qed.

(** X20.  In a first session on a chart in time order nothing is
    skipped: after any run of frames followed by a playing frame, every
    note whose depth at that frame is beyond [MISS_Z] has been hit or
    missed. *)
Theorem every_late_note_is_judged (chart : list NoteData)
    (frames : list FrameInput) (audio : Audio) (hands : HandPositions.t) :
  chart_sorted chart -> ended audio = false ->
  let st := fst (runFrames sqrt frames (startSession chart)) in
  let r := useFrame sqrt PLAYING audio hands st in
  forall ref n, notesState (fst r) !! ref = Some n ->
    MISS_Z < currentZ (currentTime audio) n -> resolved n.
Proof.
  intros Hsorted Hended st r ref n Hn Hz.
  destruct (runFrames_complete frames (startSession chart))
    as (Hinv & Hcomp & Hs).
  - apply startSession_inv.
  - apply startSession_complete.
  - apply startSession_sorted, Hsorted.
  - fold st in Hinv, Hcomp, Hs.
    destruct (useFrame_complete PLAYING audio hands st Hinv Hcomp Hs)
      as [_ Hlate].
    apply (Hlate eq_refl Hended ref n Hn Hz).
Qed.
End Completeness.

Section CompletenessWitnesses.
Local Open Scope Q_scope.

Lemma notes_spawn_at_the_spawn_plane_witness :
  0%nat ∈ activeNotesRef (spawnNotes 2.0 (startSession twoNotes)) <->
  SPAWN_Z <= currentZ 2.0 (reset_flags scenarioNote).
Proof.
  apply (notes_spawn_at_the_spawn_plane 2.0 (startSession twoNotes) 0
           (reset_flags scenarioNote)).
  - apply startSession_inv.
  - apply twoNotes_sorted.
  - cbn. lia.
  - reflexivity.
Defined.

Lemma twoNotes_chart_sorted : chart_sorted twoNotes.
Proof. apply sorted_by_time_sound. vm_compute. reflexivity. Qed.

Lemma every_late_note_is_judged_witness :
  resolved (set_hit (currentTime scenarioAudio) scenarioNote).
Proof.
  apply (every_late_note_is_judged sqrtQ twoNotes scenarioFrames lateAudio
           scenarioHands twoNotes_chart_sorted eq_refl 0).
  - vm_compute. reflexivity.
  - vm_compute. reflexivity.
Defined.
End CompletenessWitnesses.
